(** * The branching-chat core of the llama.cpp server web UI

    A shallow embedding of
    - [examples/server/webui/src/utils/types.ts] (the message tree),
    - [getListMessageDisplay] of [components/ChatScreen.tsx] (the branch
      resolver used for display),
    - [sendMessage], [generateMessage], [stopGenerating],
      [replaceMessageAndGenerate] and the four [fetchRAG...] rewriters of
      [utils/app.context.tsx] (the generation controller),
    together with the properties the design document states about them. *)

From Stdlib Require Import ZArith NArith String Ascii List Lia.
From stdpp Require Import base option list relations sorting gmap fin_maps pretty.

Set Default Proof Using "Type".

(** ** JavaScript strings

    A JS string is a sequence of UTF-16 code units; [length], [substring],
    [startsWith], [trim] and [+] all work on code units. *)

Abbreviation jsstring := (list N).

Module Js.

(** The code units of an ASCII literal of the source text. *)
Definition lit (s : string) : jsstring :=
  map N_of_ascii (list_ascii_of_string s).

(** [s.startsWith(p)] *)
Fixpoint startsWith (s p : jsstring) : bool :=
  match p, s with
  | [], _ => true
  | _ :: _, [] => false
  | c :: p', d :: s' => (c =? d)%N && startsWith s' p'
  end.

(** [s.substring(0, n)] for a non-negative integer [n]. *)
Definition substring0 (n : nat) (s : jsstring) : jsstring := take n s.

(** ECMAScript [WhiteSpace] and [LineTerminator] code units, the ones
    [String.prototype.trim] strips. *)
Definition isWhiteSpace (c : N) : bool :=
  ((c =? 9) || (c =? 10) || (c =? 11) || (c =? 12) || (c =? 13) ||
   (c =? 32) || (c =? 160) || (c =? 5760) ||
   ((8192 <=? c) && (c <=? 8202)) ||
   (c =? 8232) || (c =? 8233) || (c =? 8239) || (c =? 8287) ||
   (c =? 12288) || (c =? 65279))%N.

Fixpoint trimStart (s : jsstring) : jsstring :=
  match s with
  | c :: s' => if isWhiteSpace c then trimStart s' else s
  | [] => []
  end.

Definition trimEnd (s : jsstring) : jsstring :=
  reverse (trimStart (reverse s)).

(** [s.trim()] *)
Definition trim (s : jsstring) : jsstring := trimEnd (trimStart s).

(** [s.indexOf(p)]: the first position at which [p] occurs, if any. *)
Fixpoint indexOf (s p : jsstring) : option nat :=
  if startsWith s p then Some 0%nat
  else match s with
       | [] => None
       | _ :: s' => S <$> indexOf s' p
       end.

(** [GetSubstitution] of ECMA-262 for a string pattern: there are no
    captures, so of the dollar forms only [$$], [$&], [$`] and [$']
    expand; every other code unit is copied. *)
Fixpoint getSubstitution (matched before after template : jsstring)
  : jsstring :=
  match template with
  | [] => []
  | c :: rest =>
      if (c =? 36)%N then
        match rest with
        | d :: rest' =>
            if (d =? 36)%N then
              36%N :: getSubstitution matched before after rest'
            else if (d =? 38)%N then
              matched ++ getSubstitution matched before after rest'
            else if (d =? 96)%N then
              before ++ getSubstitution matched before after rest'
            else if (d =? 39)%N then
              after ++ getSubstitution matched before after rest'
            else c :: getSubstitution matched before after rest
        | [] => [c]
        end
      else c :: getSubstitution matched before after rest
  end.

(** [s.replace(pattern, replacement)] with a string pattern: only the
    first occurrence is replaced. *)
Definition replace (s pattern replacement : jsstring) : jsstring :=
  match indexOf s pattern with
  | None => s
  | Some i =>
      let before := take i s in
      let after := drop (i + length pattern) s in
      before ++ getSubstitution pattern before after replacement ++ after
  end.

(** [a.join(sep)] on an array of strings. *)
Fixpoint join (sep : jsstring) (a : list jsstring) : jsstring :=
  match a with
  | [] => []
  | [x] => x
  | x :: a' => x ++ sep ++ join sep a'
  end.

End Js.

(** ** The message tree ([utils/types.ts]) *)

Record TimingReport := {
  prompt_n : Z;
  prompt_ms : Z;
  predicted_n : Z;
  predicted_ms : Z;
}.

Inductive MessageExtra :=
| MessageExtraTextFile (name content : jsstring)
| MessageExtraContext (content : jsstring).

Inductive NodeType := text | root.
Inductive Role := user | assistant | system.

#[global] Instance NodeType_eq_dec : EqDecision NodeType.
Proof. solve_decision. Defined.
#[global] Instance Role_eq_dec : EqDecision Role.
Proof. solve_decision. Defined.

(** [Message] and [PendingMessage] differ in the type of [content] only:
    [string] for the former, [string | null] for the latter. *)
Module Node.
Record t (C : Type) := mk {
  id : Z;
  convId : jsstring;
  type : NodeType;
  timestamp : Z;
  role : Role;
  content : C;
  timings : option TimingReport;
  extra : option (list MessageExtra);
  parent : Z;
  children : list Z;
}.
Arguments mk {C}.
Arguments id {C}.
Arguments convId {C}.
Arguments type {C}.
Arguments timestamp {C}.
Arguments role {C}.
Arguments content {C}.
Arguments timings {C}.
Arguments extra {C}.
Arguments parent {C}.
Arguments children {C}.

(** [{ ...n, content: c }] *)
Definition with_content {C D} (n : t C) (c : D) : t D :=
  mk (id n) (convId n) (type n) (timestamp n) (role n) c
     (timings n) (extra n) (parent n) (children n).

(** [n.timings = tm] *)
Definition with_timings {C} (n : t C) (tm : TimingReport) : t C :=
  mk (id n) (convId n) (type n) (timestamp n) (role n) (content n)
     (Some tm) (extra n) (parent n) (children n).

Definition with_parent {C} (n : t C) (p : Z) : t C :=
  mk (id n) (convId n) (type n) (timestamp n) (role n) (content n)
     (timings n) (extra n) p (children n).

Definition with_children {C} (n : t C) (cs : list Z) : t C :=
  mk (id n) (convId n) (type n) (timestamp n) (role n) (content n)
     (timings n) (extra n) (parent n) cs.
End Node.

Abbreviation Message := (Node.t jsstring).
Abbreviation PendingMessage := (Node.t (option jsstring)).

Record Conversation := {
  conv_id : jsstring;
  lastModified : Z;
  currNode : Z;
  name : jsstring;
}.

(** ** The branch resolver ([components/ChatScreen.tsx]) *)

(** A message display is a message node with additional information for
    rendering: the siblings of the node are stored as their leaf nodes.
    ([isPending] is never set by [getListMessageDisplay] and is left out.) *)
Record MessageDisplay := {
  msg : Message;
  siblingLeafNodeIds : list Z;
  siblingCurrIdx : Z;
}.

(** [const nodeMap = new Map(); for (const msg of msgs) nodeMap.set(msg.id, msg)]:
    a later node overrides an earlier one with the same id. *)
Definition buildNodeMap (msgs : list Message) : gmap Z Message :=
  foldl (fun m msg => <[Node.id msg := msg]> m) ∅ msgs.

(** The [while (currNode)] loop of [findLeafNode].  Every iteration that
    does not leave the loop consumes one unit of [fuel]; [None] stands for
    a loop that is still running when the fuel is spent. *)
Fixpoint findLeafNode_loop (nodeMap : gmap Z Message) (fuel : nat)
    (currNode : option Message) : option (option Message) :=
  match currNode with
  | None => Some None
  | Some n =>
      if decide (length (Node.children n) = 0%nat) then Some currNode
      else match fuel with
           | O => None
           | S fuel' =>
               findLeafNode_loop nodeMap fuel'
                 (nodeMap !! default (-1)%Z (last (Node.children n)))
           end
  end.

(** [currNode?.id ?? -1] *)
Definition leafId (currNode : option Message) : Z :=
  match currNode with
  | Some n => Node.id n
  | None => (-1)%Z
  end.

(** [findLeafNode(msgId)]: [currNode?.id ?? -1] after the loop.  The loop
    gets as many iterations as the map has nodes, which is all a run that
    ends can use (see [findLeafNode_loop_enough]). *)
Definition findLeafNode (nodeMap : gmap Z Message) (msgId : Z) : option Z :=
  leafId <$> findLeafNode_loop nodeMap (size nodeMap) (nodeMap !! msgId).

(** [siblings.indexOf(x)]: the first index holding [x], or [-1]. *)
Fixpoint indexOf (siblings : list Z) (x : Z) : Z :=
  match siblings with
  | [] => (-1)%Z
  | y :: rest =>
      if decide (y = x) then 0%Z
      else let i := indexOf rest x in
           if decide (i = (-1)%Z) then (-1)%Z else (i + 1)%Z
  end.

(** One iteration of the [for (const msg of currNodes)] loop: the entries
    it pushes onto [res] (none or one). *)
Definition displayEntry (nodeMap : gmap Z Message) (m : Message)
    : option (list MessageDisplay) :=
  match nodeMap !! Node.parent m with
  | None => Some []
  | Some parentNode =>
      let siblings := Node.children parentNode in
      if decide (Node.type m <> root) then
        leaves ← mapM (findLeafNode nodeMap) siblings;
        Some [ {| msg := m;
                  siblingLeafNodeIds := leaves;
                  siblingCurrIdx := indexOf siblings (Node.id m) |} ]
      else Some []
  end.

Fixpoint displayLoop (nodeMap : gmap Z Message) (currNodes : list Message)
    : option (list MessageDisplay) :=
  match currNodes with
  | [] => Some []
  | m :: rest =>
      entry ← displayEntry nodeMap m;
      res ← displayLoop nodeMap rest;
      Some (entry ++ res)
  end.

Section BranchResolver.

(** [StorageUtils.filterByLeafNodeId] belongs to [utils/storage.ts]; the
    resolver is stated over whatever path it returns. *)
Variable filterByLeafNodeId : list Message -> Z -> bool -> list Message.

Definition getListMessageDisplay (msgs : list Message) (leafNodeId : Z)
    : option (list MessageDisplay) :=
  let currNodes := filterByLeafNodeId msgs leafNodeId true in
  displayLoop (buildNodeMap msgs) currNodes.

End BranchResolver.

(** *** What the resolver is meant to compute *)

(** [leafDescent nodeMap n i r]: starting at id [i] and following the
    last child [n] times ends at a node without children, whose id is [r],
    or leaves the map, and then [r = -1]. *)
Inductive leafDescent (nodeMap : gmap Z Message) : nat -> Z -> Z -> Prop :=
| descent_missing i :
    nodeMap !! i = None -> leafDescent nodeMap 0 i (-1)
| descent_leaf i node :
    nodeMap !! i = Some node -> Node.children node = [] ->
    leafDescent nodeMap 0 i (Node.id node)
| descent_step n i node c r :
    nodeMap !! i = Some node -> last (Node.children node) = Some c ->
    leafDescent nodeMap n c r ->
    leafDescent nodeMap (S n) i r.

(** [c] is listed among the children of the node stored under [p]. *)
Definition childLink (nodeMap : gmap Z Message) (p c : Z) : Prop :=
  exists node, nodeMap !! p = Some node /\ c ∈ Node.children node.

(** The child links have no cycle. *)
Definition acyclic (nodeMap : gmap Z Message) : Prop :=
  forall i, ~ tc (childLink nodeMap) i i.

(** A checkable certificate of acyclicity: a rank that decreases along
    every child link. *)
Definition rankDecreases (nodeMap : gmap Z Message) (rank : Z -> nat) : bool :=
  bool_decide (map_Forall (fun p node =>
    Forall (fun c => (rank c < rank p)%nat) (Node.children node)) nodeMap).

(** [i] is the position of [x] in [siblings], [-1] when it is not there. *)
Definition positionOf (siblings : list Z) (x i : Z) : Prop :=
  (x ∈ siblings ->
     (0 <= i)%Z /\ siblings !! Z.to_nat i = Some x /\
     forall j, (j < Z.to_nat i)%nat -> siblings !! j <> Some x) /\
  (x ∉ siblings -> i = (-1)%Z).

(** The nodes of a path that get a display entry. *)
Definition displayed (nodeMap : gmap Z Message) (m : Message) : Prop :=
  Node.type m <> root /\ is_Some (nodeMap !! Node.parent m).

#[global] Instance displayed_dec nodeMap m : Decision (displayed nodeMap m).
Proof. unfold displayed. apply _. Defined.

(** What one display entry holds, stated on the tree. *)
Definition entryFor (nodeMap : gmap Z Message) (m : Message)
    (d : MessageDisplay) : Prop :=
  msg d = m /\
  exists parentNode,
    nodeMap !! Node.parent m = Some parentNode /\
    Forall2 (fun sibling leaf => exists n, leafDescent nodeMap n sibling leaf)
            (Node.children parentNode) (siblingLeafNodeIds d) /\
    positionOf (Node.children parentNode) (Node.id m) (siblingCurrIdx d).

(** *** The same, stated on the node set

    The resolver is handed a list of nodes and builds its own map of it.
    What it is to compute is stated here on the list itself. *)

(** The node of the set with the id [i].  Ids are unique within a
    conversation; should a list carry an id twice, the later message
    counts (see [nodeWithId_unique] for sets with unique ids). *)
Definition nodeWithId (msgs : list Message) (i : Z) : option Message :=
  last (filter (fun m => Node.id m = i) msgs).

(** [descentIn msgs n i r]: starting at the id [i] and following the last
    child [n] times ends at a node of the set that has no children, and
    [r] is its id, or at an id that no node of the set has, and then
    [r = -1]. *)
Inductive descentIn (msgs : list Message) : nat -> Z -> Z -> Prop :=
| descentIn_missing i :
    nodeWithId msgs i = None -> descentIn msgs 0 i (-1)
| descentIn_leaf i node :
    nodeWithId msgs i = Some node -> Node.children node = [] ->
    descentIn msgs 0 i i
| descentIn_step n i node c r :
    nodeWithId msgs i = Some node -> last (Node.children node) = Some c ->
    descentIn msgs n c r ->
    descentIn msgs (S n) i r.

(** [c] is listed among the children of the node of the set with id [p]. *)
Definition childIn (msgs : list Message) (p c : Z) : Prop :=
  exists node, nodeWithId msgs p = Some node /\ c ∈ Node.children node.

(** The child links of the set have no cycle. *)
Definition acyclicIn (msgs : list Message) : Prop :=
  forall i, ~ tc (childIn msgs) i i.

(** The nodes of a path that are to get a display entry: those that are
    not of type root and whose parent is in the set. *)
Definition displayedIn (msgs : list Message) (m : Message) : Prop :=
  Node.type m <> root /\ is_Some (nodeWithId msgs (Node.parent m)).

#[global] Instance displayedIn_dec msgs m : Decision (displayedIn msgs m).
Proof. unfold displayedIn. apply _. Defined.

(** What the display entry of the node [m] is to hold: for every child
    of the parent of [m], in children order, the leaf reached from it, and
    the position of [m] among these children. *)
Definition entryIn (msgs : list Message) (m : Message) (d : MessageDisplay)
    : Prop :=
  msg d = m /\
  exists parentNode,
    nodeWithId msgs (Node.parent m) = Some parentNode /\
    Forall2 (fun sibling leaf => exists n, descentIn msgs n sibling leaf)
            (Node.children parentNode) (siblingLeafNodeIds d) /\
    positionOf (Node.children parentNode) (Node.id m) (siblingCurrIdx d).

(** Modelled from the spec: [StorageUtils.filterByLeafNodeId] of
    [utils/storage.ts], whose text is missing.  "If leafId is
    unset/sentinel (e.g. -1), resolve it to the true leaf of the
    conversation by following, from the root, the last child at each fork
    until a node with no children is reached.  Walk from the resolved leaf
    up to the root via parent links, reverse to obtain root->leaf order."
    "A leaf id referring to a non-existent node must resolve to an empty
    sequence."  The walk is cut after as many steps as there are nodes,
    which no walk in a tree reaches. *)
Fixpoint walkUp (nodeMap : gmap Z Message) (fuel : nat) (nodeId : Z)
    : list Message :=
  match fuel with
  | O => []
  | S fuel' =>
      match nodeMap !! nodeId with
      | None => []
      | Some node => node :: walkUp nodeMap fuel' (Node.parent node)
      end
  end.

(** Modelled from the spec: see [walkUp]; root nodes are kept only when
    [includeRoot] is set. *)
Definition filterByLeafNodeId_spec (msgs : list Message) (leafNodeId : Z)
    (includeRoot : bool) : list Message :=
  let nodeMap := buildNodeMap msgs in
  let start :=
    if decide (leafNodeId = (-1)%Z) then
      match head (filter (fun m => Node.type m = root) msgs) with
      | Some r => default (-1)%Z (findLeafNode nodeMap (Node.id r))
      | None => (-1)%Z
      end
    else leafNodeId in
  filter (fun m => includeRoot = true \/ Node.type m <> root)
         (reverse (walkUp nodeMap (size nodeMap) start)).

(** *** A sample conversation

    Root [1] with the user message [2] and its edit [4] as children; the
    assistant reply [3] hangs under [2]; [9] names a parent that is not
    there. *)
Definition sampleNode (nodeId : Z) (ty : NodeType) (r : Role) (p : Z)
    (cs : list Z) : Message :=
  Node.mk nodeId (Js.lit "conv-1") ty nodeId r (Js.lit "...") None None p cs.

Definition sampleMsgs : list Message :=
  [ sampleNode 1 root system (-1) [2; 4]%Z;
    sampleNode 2 text user 1 [3]%Z;
    sampleNode 3 text assistant 2 [];
    sampleNode 4 text user 1 [];
    sampleNode 9 text user 7 [] ].

(** A path handed to the display loop as it is. *)
Definition wholeList (msgs : list Message) (_ : Z) (_ : bool) : list Message :=
  msgs.

Definition sampleRank (nodeId : Z) : nat := Z.to_nat (10 - nodeId).

(** ** The generation controller ([utils/app.context.tsx])

    The provider keeps two React states, [pendingMessages] and [aborts],
    both records keyed by conversation id, next to the persistent storage.
    The embedding threads them through every call as one explicit state,
    the state the next render is made from: a state setter takes effect
    in it at the call.  What the user gets to see
    ([alert], [navigate], the [onChunk] callback) is appended to a trace. *)

Record JsError := {
  err_name : jsstring;
  err_message : jsstring;
}.

(** [new Error(message)] *)
Definition Error (message : jsstring) : JsError :=
  {| err_name := Js.lit "Error"; err_message := message |}.

(** The [DOMException] a fetch or a body read rejects with once its
    signal is aborted. *)
Definition AbortError : JsError :=
  {| err_name := Js.lit "AbortError";
     err_message := Js.lit "signal is aborted without reason" |}.

(** Reading a property of [undefined]. *)
Definition TypeError (message : jsstring) : JsError :=
  {| err_name := Js.lit "TypeError"; err_message := message |}.

Inductive Effect :=
| Alert (message : jsstring)
| Navigate (path : jsstring)
| OnChunk (currLeafNodeId : option Z)
| UnhandledRejection (e : JsError).

(** Of the configuration object only [showTokensPerSecond] reaches the
    state; every other field goes into the request body. *)
Record Config := {
  showTokensPerSecond : bool;
}.

Record Storage := {
  conversations : gmap jsstring Conversation;
  messages : list Message;
  config : Config;
}.

Record AppState := {
  pendingMessages : gmap jsstring PendingMessage;
  (** [aborts[convId]]: the [aborted] flag of the controller's signal *)
  aborts : gmap jsstring bool;
  storage : Storage;
  (** [clock n] is what the [n]-th call of [Date.now()] returns *)
  clock : nat -> Z;
  ticks : nat;
  effects : list Effect;
}.

Definition with_pendingMessages (f : gmap jsstring PendingMessage -> gmap jsstring PendingMessage)
    (st : AppState) : AppState :=
  {| pendingMessages := f (pendingMessages st); aborts := aborts st;
     storage := storage st; clock := clock st; ticks := ticks st;
     effects := effects st |}.

Definition with_aborts (f : gmap jsstring bool -> gmap jsstring bool)
    (st : AppState) : AppState :=
  {| pendingMessages := pendingMessages st; aborts := f (aborts st);
     storage := storage st; clock := clock st; ticks := ticks st;
     effects := effects st |}.

Definition with_storage (f : Storage -> Storage) (st : AppState) : AppState :=
  {| pendingMessages := pendingMessages st; aborts := aborts st;
     storage := f (storage st); clock := clock st; ticks := ticks st;
     effects := effects st |}.

Definition with_tick (st : AppState) : AppState :=
  {| pendingMessages := pendingMessages st; aborts := aborts st;
     storage := storage st; clock := clock st; ticks := S (ticks st);
     effects := effects st |}.

Definition with_effect (e : Effect) (st : AppState) : AppState :=
  {| pendingMessages := pendingMessages st; aborts := aborts st;
     storage := storage st; clock := clock st; ticks := ticks st;
     effects := effects st ++ [e] |}.

(** *** Asynchronous functions as state transformers that may throw *)

Inductive Completion (A : Type) :=
| Return (a : A)
| Throw (e : JsError).
Arguments Return {A}.
Arguments Throw {A}.

Definition Task (A : Type) : Type := AppState -> Completion A * AppState.

Definition ret {A} (a : A) : Task A := fun st => (Return a, st).

Definition throw {A} (e : JsError) : Task A := fun st => (Throw e, st).

Definition bind {A B} (m : Task A) (k : A -> Task B) : Task B :=
  fun st =>
    match m st with
    | (Return a, st') => k a st'
    | (Throw e, st') => (Throw e, st')
    end.

(** [try { m } catch (err) { handler(err) }] *)
Definition tryCatch {A} (m : Task A) (handler : JsError -> Task A) : Task A :=
  fun st =>
    match m st with
    | (Return a, st') => (Return a, st')
    | (Throw e, st') => handler e st'
    end.

Declare Scope task_scope.
Delimit Scope task_scope with task.
Notation "'let*' x := m 'in' k" := (bind m (fun x => k))
  (at level 10, x pattern, m at level 100, k at level 200) : task_scope.
Notation "m ;;; k" := (bind m (fun _ => k))
  (at level 100, k at level 200, right associativity) : task_scope.
Open Scope task_scope.

Definition gets {A} (f : AppState -> A) : Task A := fun st => (Return (f st), st).

Definition modify (f : AppState -> AppState) : Task unit :=
  fun st => (Return tt, f st).

(** [Date.now()] *)
Definition dateNow : Task Z :=
  fun st => (Return (clock st (ticks st)), with_tick st).

Definition alert (message : jsstring) : Task unit :=
  modify (with_effect (Alert message)).

Definition navigate (path : jsstring) : Task unit :=
  modify (with_effect (Navigate path)).

(** The [onChunk] callback handed in by the chat screen. *)
Definition onChunk (currLeafNodeId : option Z) : Task unit :=
  modify (with_effect (OnChunk currLeafNodeId)).

(** A promise that is started and not awaited: a rejection reaches no
    handler of the caller.  The store takes writes in the order they are
    issued, so the write is in effect before the caller reads the store
    again; the trace lists the rejection where the call is made. *)
Definition notAwaited (m : Task unit) : Task unit :=
  tryCatch m (fun e => modify (with_effect (UnhandledRejection e))).

(** *** The storage collaborator *)

Module StorageUtils.

Definition with_conversations (f : gmap jsstring Conversation -> gmap jsstring Conversation)
    (s : Storage) : Storage :=
  {| conversations := f (conversations s); messages := messages s;
     config := config s |}.

Definition with_messages (f : list Message -> list Message) (s : Storage)
    : Storage :=
  {| conversations := conversations s; messages := f (messages s);
     config := config s |}.

(** Modelled from the spec: [StorageUtils.getConfig] of [utils/storage.ts],
    whose text is missing, reads the persisted configuration object. *)
Definition getConfig : Task Config := gets (fun st => config (storage st)).

(** Modelled from the spec: [StorageUtils.getOneConversation] of
    [utils/storage.ts]; "getConversation(convId) -> Conversation | absent". *)
Definition getOneConversation (convId : jsstring) : Task (option Conversation) :=
  gets (fun st => conversations (storage st) !! convId).

(** Modelled from the spec: part of [StorageUtils.getMessages]; the nodes
    of one conversation, in the order they were registered. *)
Definition messagesOf (s : Storage) (convId : jsstring) : list Message :=
  filter (fun m => Node.convId m = convId) (messages s).

(** Modelled from the spec: [StorageUtils.getMessages] of
    [utils/storage.ts]; "getMessages(convId) -> ordered sequence of all
    nodes (all branches, unfiltered)". *)
Definition getMessages (convId : jsstring) : Task (list Message) :=
  gets (fun st => messagesOf (storage st) convId).

(** Modelled from the spec: part of [StorageUtils.createConversation];
    the decimal digits of a timestamp. *)
Definition decimal (n : Z) : jsstring := Js.lit (pretty n).

(** Modelled from the spec: [StorageUtils.createConversation] of
    [utils/storage.ts]; "creates a conversation with a synthesized root
    node; currNode = root id", the conversation id having the format
    conv-<timestamp>.  The root takes the creation time as its id and the
    sentinel [-1] as its parent. *)
Definition createConversation (name : jsstring) : Task Conversation :=
  let* now := dateNow in
  let conv := {| conv_id := Js.lit "conv-" ++ decimal now;
                 lastModified := now;
                 currNode := now;
                 name := name |} in
  let rootNode : Message :=
    Node.mk now (conv_id conv) root now system [] None None (-1)%Z [] in
  modify (with_storage (fun s =>
    with_messages (fun ms => ms ++ [rootNode])
      (with_conversations (insert (conv_id conv) conv) s)));;;
  ret conv.

(** Modelled from the spec: part of [StorageUtils.appendMsg]; the parent
    a new node is to be attached to. *)
Definition findNode (s : Storage) (convId : jsstring) (nodeId : Z)
    : option Message :=
  head (filter (fun m => Node.id m = nodeId) (messagesOf s convId)).

(** Modelled from the spec: the NotFoundError of [StorageUtils.appendMsg]. *)
Definition NotFoundError : JsError :=
  Error (Js.lit "Parent message ID not found").

(** Modelled from the spec: part of [StorageUtils.appendMsg]; the store
    after a node has been attached under [parentNodeId] at time [now]. *)
Definition appended (s : Storage) (now : Z) (msg : Message)
    (parentNodeId : Z) : Storage :=
  with_messages (fun ms =>
      map (fun m =>
             if decide (Node.convId m = Node.convId msg /\ Node.id m = parentNodeId)
             then Node.with_children m (Node.children m ++ [Node.id msg])
             else m) ms
      ++ [Node.with_parent msg parentNodeId])
    (with_conversations
       (alter (fun c => {| conv_id := conv_id c; lastModified := now;
                           currNode := Node.id msg; name := name c |})
              (Node.convId msg)) s).

(** Modelled from the spec: [StorageUtils.appendMsg] of [utils/storage.ts];
    "validates parentId exists in the conversation; sets node.parent =
    parentId; appends node.id to parent's children; registers the new node;
    updates the conversation's currNode and lastModified.  Fails with
    NotFoundError if the parent does not exist."  The write is atomic. *)
Definition appendMsg (msg : Message) (parentNodeId : Z) : Task unit :=
  let* parentNode := gets (fun st => findNode (storage st) (Node.convId msg) parentNodeId) in
  match parentNode with
  | None => throw NotFoundError
  | Some _ =>
      let* now := dateNow in
      modify (with_storage (fun s => appended s now msg parentNodeId))
  end.

End StorageUtils.

(** *** State setters and [isGenerating] *)

(** [setPending(convId, pendingMsg)]: [null] removes the key. *)
Definition setPending (convId : jsstring) (pendingMsg : option PendingMessage)
    : Task unit :=
  match pendingMsg with
  | None => modify (with_pendingMessages (delete convId))
  | Some p => modify (with_pendingMessages (insert convId p))
  end.

(** [setAbort(convId, controller)]; a fresh controller is not aborted. *)
Definition setAbort (convId : jsstring) (controller : option bool) : Task unit :=
  match controller with
  | None => modify (with_aborts (delete convId))
  | Some c => modify (with_aborts (insert convId c))
  end.

(** [!!pendingMessages[convId]] read off a state: what
    [isGenerating(convId)] answers in a render made from this state. *)
Definition isGeneratingIn (st : AppState) (convId : jsstring) : bool :=
  bool_decide (is_Some (pendingMessages st !! convId)).

(** [isGenerating(convId)], line 135.  The closure reads the
    [pendingMessages] of the render that made it, and a setter only
    queues its update: the closures of the current render do not see the
    update, those of the next render do.  A controller function is run
    from the state of the render that made it, and each of its calls of
    [isGenerating] comes before the first [setPending] of the run, so the
    state at the call has the entries the render had.  What a property
    says of [isGeneratingIn] in the state after a setter is therefore what
    [isGenerating] answers from the next render on. *)
Definition isGenerating (convId : jsstring) : Task bool :=
  gets (fun st => isGeneratingIn st convId).

(** [stopGenerating(convId)]: [aborts[convId]?.abort()] raises the flag of
    the controller, if there is one. *)
Definition stopGenerating (convId : jsstring) : Task unit :=
  setPending convId None;;;
  modify (with_aborts (alter (fun _ => true) convId)).

(** *** What the network answers *)

(** One parsed event of the completion stream:
    [{choices: [{delta: {content?}}], timings?, error?: {message?}}]. *)
Record Chunk := {
  chunk_error : option (option jsstring);
  chunk_choices : list (option jsstring);
  chunk_timings : option TimingReport;
}.

(** How the stream goes on once the chunks received so far are used up. *)
Inductive StreamEnd :=
| StreamDone
    (** the response body ends *)
| UserStops
    (** the user calls [stopGenerating(convId)] while the loop waits for the
        next chunk; the aborted read rejects with an [AbortError] *)
| StreamFails (e : JsError).
    (** the read rejects for another reason *)

(** What [generateMessage] meets between building the request and the end
    of the stream. *)
Inductive FetchOutcome :=
| RequestFails (e : JsError)
    (** [JSON.parse(config.custom)] throws or [fetch] rejects *)
| StoppedBeforeResponse
    (** [stopGenerating(convId)] is called while [fetch] is pending *)
| Responded (status : Z) (errorBody : Completion (option jsstring))
            (chunks : list Chunk) (fin : StreamEnd).
    (** a response with [status]; [errorBody] is [body?.error?.message] of
        [await fetchResponse.json()], read when the status is not 200 *)

(** What the retrieval endpoint answers to a [fetchRAG...] query. *)
Inductive RagReply :=
| RagUnreachable
    (** [fetch] rejects *)
| RagNotOk
    (** a response with [!ragResponse.ok] *)
| RagMalformed
    (** [ragResponse.json()] rejects or the body has no [results.documents] *)
| RagDocuments (documents : list (list jsstring)).

(** *** The content rewriters *)

Definition directiveCodebase : jsstring :=
  Js.lit "You are a helpful assistant. The context provided below is automatically fetched and may include technical details such as repository names, file names, component names, class names, and function names. Before answering the user's query, carefully review all the provided context and integrate it if it is relevant. If any part of the context is ambiguous or unrelated to the query, ignore it. When referencing code, be as specific as possible by including repository names, file names, components, class names, and functions where applicable. Base your answer primarily on the valid context, and if the context is incomplete, note the ambiguity and only supplement with general knowledge as necessary. Prioritize clarity and precision in your response.".

Definition directiveProducts : jsstring :=
  Js.lit "You are a helpful assistant tasked with selecting items based on the users input. The system has provided a list of 20 items. Your job is to evaluate these items and choose the top 5 that best match the users query. Use the users input to guide your selection, prioritizing relevance and accuracy.".

Definition directiveDocumentation : jsstring :=
  Js.lit "You are a helpful assistant. The system has provided a list documentation snippets. Your job is to evaluate these snippets and use any that are relevant. If a snippet is not relevant to the users query, then ignore it. If a snippet is used then site any particluar metadata about it such as file name, table name, column name.".

Definition directiveMedRecords : jsstring :=
  Js.lit "You are a medical assistant. Evaluate provided medical record snippets and use only relevant ones. Reformat any dates as needed. Cite metadata (file name, topic, caseId, type) for used snippets. Do not cite the actual snippet name, just file name. Ignore irrelevant snippets.".

(** [x || fallback] on an optional string: [undefined] and the empty
    string are falsy. *)
Definition orElse (x : option jsstring) (fallback : jsstring) : jsstring :=
  match x with
  | Some (c :: s) => c :: s
  | _ => fallback
  end.

(** The [try] block shared by the four rewriters, up to
    [ragData.results.documents.flat().join(' ')]. *)
Definition ragDocsString (reply : RagReply) : Task jsstring :=
  match reply with
  | RagUnreachable => throw (TypeError (Js.lit "Failed to fetch"))
  | RagNotOk => throw (Error (Js.lit "Failed to fetch from RAG system"))
  | RagMalformed => throw (TypeError (Js.lit "Cannot read properties of undefined"))
  | RagDocuments documents => ret (Js.join (Js.lit " ") (concat documents))
  end.

(** The [catch] block shared by the four rewriters ([console.error] goes to
    the developer console and leaves no trace here); [None] is [false]. *)
Definition ragCatch (_ : JsError) : Task (option jsstring) :=
  alert (Js.lit "Failed to fetch context from RAG system.");;;
  ret None.

Definition nl2 : jsstring := [10%N; 10%N].

Definition fetchRAGCodebase (content : jsstring) (reply : RagReply)
    : Task (option jsstring) :=
  tryCatch
    (let* allDocsString := ragDocsString reply in
     ret (Some (Js.replace content (Js.lit "/codebase")
                  (directiveCodebase ++ nl2 ++ allDocsString ++ nl2 ++ content))))
    ragCatch.

Definition fetchRAGProducts (content : jsstring) (reply : RagReply)
    : Task (option jsstring) :=
  tryCatch
    (let* allDocsString := ragDocsString reply in
     ret (Some (Js.replace content (Js.lit "/products")
                  (directiveProducts ++ nl2 ++ allDocsString ++ nl2 ++ content))))
    ragCatch.

Definition fetchRAGDocumentation (content : jsstring) (reply : RagReply)
    : Task (option jsstring) :=
  tryCatch
    (let* allDocsString := ragDocsString reply in
     ret (Some (Js.replace content (Js.lit "/documentation")
                  (directiveDocumentation ++ nl2 ++ allDocsString ++ nl2 ++ content))))
    ragCatch.

Definition fetchRAGMedRecords (content : jsstring) (reply : RagReply)
    : Task (option jsstring) :=
  tryCatch
    (let* allDocsString := ragDocsString reply in
     ret (Some (directiveMedRecords ++ nl2 ++ allDocsString ++ nl2 ++ content)))
    ragCatch.

(** *** [generateMessage] *)

(** Run a task and hand back how it completed instead of throwing. *)
Definition attempt {A} (m : Task A) : Task (Completion A) :=
  tryCatch (let* a := m in ret (Return a)) (fun e => ret (Throw e)).

(** The body of [for await (const chunk of chunks)], lines 238-260; the
    result is the new value of the variable [pendingMsg].  Assigning
    [pendingMsg.timings] writes to the object last handed to [setPending];
    the very next statement hands it over again, so no state is observed
    in between. *)
Definition consumeChunk (cfg : Config) (convId : jsstring)
    (pendingMsg : PendingMessage) (chunk : Chunk) : Task PendingMessage :=
  match chunk_error chunk with
  | Some message => throw (Error (orElse message (Js.lit "Unknown error")))
  | None =>
      match chunk_choices chunk with
      | [] => throw (TypeError (Js.lit "Cannot read properties of undefined (reading 'delta')"))
      | addedContent :: _ =>
          let lastContent := orElse (Node.content pendingMsg) [] in
          let pendingMsg :=
            match addedContent with
            | Some (c :: s) =>
                Node.with_content pendingMsg (Some (lastContent ++ c :: s))
            | _ => pendingMsg
            end in
          let pendingMsg :=
            match chunk_timings chunk with
            | Some tm =>
                if showTokensPerSecond cfg
                then Node.with_timings pendingMsg
                       {| prompt_n := prompt_n tm; prompt_ms := prompt_ms tm;
                          predicted_n := predicted_n tm;
                          predicted_ms := predicted_ms tm |}
                else pendingMsg
            | None => pendingMsg
            end in
          setPending convId (Some pendingMsg);;;
          onChunk None;;;
          ret pendingMsg
      end
  end.

(** The loop over the stream.  The variable [pendingMsg] outlives the
    [try] block, so the loop hands back its last value together with the
    way the block was left. *)
Fixpoint consumeStream (cfg : Config) (convId : jsstring)
    (pendingMsg : PendingMessage) (chunks : list Chunk) (fin : StreamEnd)
    : Task (PendingMessage * Completion unit) :=
  match chunks with
  | [] =>
      match fin with
      | StreamDone => ret (pendingMsg, Return tt)
      | UserStops =>
          stopGenerating convId;;;
          ret (pendingMsg, Throw AbortError)
      | StreamFails e => ret (pendingMsg, Throw e)
      end
  | chunk :: rest =>
      let* step := attempt (consumeChunk cfg convId pendingMsg chunk) in
      match step with
      | Return pendingMsg' => consumeStream cfg convId pendingMsg' rest fin
      | Throw e => ret (pendingMsg, Throw e)
      end
  end.

(** The [try] block, lines 178-261.  The request (the branch ending at
    [leafNodeId] as filtered by [StorageUtils.filterByLeafNodeId], the
    system message, the sampling parameters) is what the endpoint answers
    to; the answer is given by [net]. *)
Definition tryBlock (cfg : Config) (convId : jsstring)
    (pendingMsg : PendingMessage) (net : FetchOutcome)
    : Task (PendingMessage * Completion unit) :=
  match net with
  | RequestFails e => ret (pendingMsg, Throw e)
  | StoppedBeforeResponse =>
      stopGenerating convId;;;
      ret (pendingMsg, Throw AbortError)
  | Responded status errorBody chunks fin =>
      if decide (status <> 200%Z) then
        match errorBody with
        | Return message =>
            ret (pendingMsg, Throw (Error (orElse message (Js.lit "Unknown error"))))
        | Throw e => ret (pendingMsg, Throw e)
        end
      else consumeStream cfg convId pendingMsg chunks fin
  end.

(** The [catch] block, lines 262-273. *)
Definition catchBlock (convId : jsstring) (err : JsError) : Task unit :=
  setPending convId None;;;
  if decide (err_name err = Js.lit "AbortError") then
    (* user stopped the generation via stopGeneration() function
       we can safely ignore this error *)
    ret tt
  else
    alert (err_message err);;;
    throw err.

(** Lines 275-279, what follows the [try] statement. *)
Definition persistPending (convId : jsstring) (leafNodeId pendingId : Z)
    (pendingMsg : PendingMessage) : Task unit :=
  match Node.content pendingMsg with
  | Some content =>
      StorageUtils.appendMsg (Node.with_content pendingMsg content) leafNodeId
  | None => ret tt
  end;;;
  setPending convId None;;;
  onChunk (Some pendingId).

(** The pending message [generateMessage] starts from. *)
Definition newPending (convId : jsstring) (leafNodeId pendingId : Z)
    : PendingMessage :=
  Node.mk pendingId convId text pendingId assistant None None None
          leafNodeId [].

Definition generateMessage (convId : jsstring) (leafNodeId : Z)
    (net : FetchOutcome) : Task unit :=
  let* generating := isGenerating convId in
  if generating : bool then ret tt else
  let* cfg := StorageUtils.getConfig in
  let* currConversation := StorageUtils.getOneConversation convId in
  match currConversation with
  | None => throw (Error (Js.lit "Current conversation is not found"))
  | Some _ =>
      let* _ := StorageUtils.getMessages convId in
      setAbort convId (Some false);;;
      (* [currMessages] is an array, which is truthy: line 161 never throws *)
      let* now := dateNow in
      let pendingId := (now + 1)%Z in
      let pendingMsg := newPending convId leafNodeId pendingId in
      setPending convId (Some pendingMsg);;;
      let* (pendingMsg, tried) := tryBlock cfg convId pendingMsg net in
      match tried with
      | Return _ => ret tt
      | Throw err => catchBlock convId err
      end;;;
      persistPending convId leafNodeId pendingId pendingMsg
  end.

(** *** [sendMessage] *)

(** Lines 294-318: the slash commands; [false] from a rewriter leaves
    [content] as it is. *)
Definition rewriteContent (content : jsstring) (rag : RagReply) : Task jsstring :=
  if Js.startsWith content (Js.lit "/codebase") then
    let* newContent := fetchRAGCodebase content rag in
    ret (default content newContent)
  else if Js.startsWith content (Js.lit "/products") then
    let* newContent := fetchRAGProducts content rag in
    ret (default content newContent)
  else if Js.startsWith content (Js.lit "/documentation") then
    let* newContent := fetchRAGDocumentation content rag in
    ret (default content newContent)
  else if Js.startsWith content (Js.lit "/medical_records") then
    let* newContent := fetchRAGMedRecords content rag in
    ret (default content newContent)
  else ret content.

(** Lines 320-328: a new conversation when there is none to continue. *)
Definition resolveTarget (convId : option jsstring) (leafNodeId : option Z)
    (content : jsstring) : Task (jsstring * Z) :=
  let create :=
    let* conv := StorageUtils.createConversation (Js.substring0 256 content) in
    navigate (Js.lit "/chat/" ++ conv_id conv);;;
    ret (conv_id conv, currNode conv) in
  match convId, leafNodeId with
  | Some c, Some l => if decide (length c = 0%nat) then create else ret (c, l)
  | _, _ => create
  end.

(** Lines 320-354: what follows the rewrite. *)
Definition sendRewritten (convId : option jsstring) (leafNodeId : option Z)
    (content : jsstring) (extra : option (list MessageExtra))
    (net : FetchOutcome) : Task bool :=
  let* (convId, leafNodeId) := resolveTarget convId leafNodeId content in
  let* now := dateNow in
  let currMsgId := now in
  notAwaited
    (StorageUtils.appendMsg
       (Node.mk currMsgId convId text now user content None extra leafNodeId [])
       leafNodeId);;;
  onChunk (Some currMsgId);;;
  tryCatch
    (generateMessage convId currMsgId net;;; ret true)
    (fun _ => (* TODO: rollback *) ret false).

Definition sendMessage (convId : option jsstring) (leafNodeId : option Z)
    (content : jsstring) (extra : option (list MessageExtra))
    (rag : RagReply) (net : FetchOutcome) : Task bool :=
  let* generating := isGenerating (default [] convId) in
  if (generating : bool) || bool_decide (length (Js.trim content) = 0%nat)
  then ret false
  else
    let* content := rewriteContent content rag in
    sendRewritten convId leafNodeId content extra net.

(** *** [replaceMessageAndGenerate] *)

Definition replaceMessageAndGenerate (convId : jsstring) (parentNodeId : Z)
    (content : option jsstring) (extra : option (list MessageExtra))
    (net : FetchOutcome) : Task unit :=
  let* generating := isGenerating convId in
  if generating : bool then ret tt else
  let* parentNodeId :=
    match content with
    | Some content =>
        let* now := dateNow in
        let currMsgId := now in
        notAwaited
          (StorageUtils.appendMsg
             (Node.mk currMsgId convId text now user content None extra
                      parentNodeId [])
             parentNodeId);;;
        ret currMsgId
    | None => ret parentNodeId
    end in
  onChunk (Some parentNodeId);;;
  generateMessage convId parentNodeId net.

(** ** Vocabulary of the controller properties *)

(** *** Streams and what they accumulate *)

(** A chunk the loop body gets through: no [error] field and a first
    choice to read the delta of. *)
Definition cleanChunk (chunk : Chunk) : Prop :=
  chunk_error chunk = None /\ chunk_choices chunk <> [].

#[global] Instance cleanChunk_dec chunk : Decision (cleanChunk chunk).
Proof. unfold cleanChunk. apply _. Defined.

(** [chunk.choices[0].delta.content], the empty string standing for a
    missing one. *)
Definition deltaContent (chunk : Chunk) : jsstring :=
  match chunk_choices chunk with
  | Some s :: _ => s
  | _ => []
  end.

(** The left-to-right concatenation of the non-empty [delta.content]
    fields of a stream. *)
Definition streamText (chunks : list Chunk) : jsstring :=
  concat (filter (fun s => s <> []) (map deltaContent chunks)).

(** The value of [pendingMsg.content] after the loop body has seen a
    chunk whose delta is [added]. *)
Definition accumulate (content : option jsstring) (added : jsstring)
    : option jsstring :=
  match added with
  | [] => content
  | _ => Some (orElse content [] ++ added)
  end.

(** How the [try] block is left once the chunks are used up. *)
Definition endOf (fin : StreamEnd) : Completion unit :=
  match fin with
  | StreamDone => Return tt
  | UserStops => Throw AbortError
  | StreamFails e => Throw e
  end.

(** The generation is ended by the user: [stopGenerating] is called while
    [fetch] is pending, or while the loop waits for a chunk after a run of
    clean chunks. *)
Definition cancelled (net : FetchOutcome) : Prop :=
  net = StoppedBeforeResponse \/
  exists errorBody chunks,
    net = Responded 200 errorBody chunks UserStops /\ Forall cleanChunk chunks.

(** *** States a run passes through *)

(** [st'] shows what [st] showed to the user, and possibly more. *)
Definition extends (st st' : AppState) : Prop :=
  exists added, effects st' = effects st ++ added.

(** [st'] has the store, the clock and the number of clock readings of
    [st]. *)
Definition sameStore (st st' : AppState) : Prop :=
  storage st' = storage st /\ clock st' = clock st /\ ticks st' = ticks st.

(** [p'] is [p] up to [content] and [timings]. *)
Definition sameHeader (p p' : PendingMessage) : Prop :=
  Node.id p' = Node.id p /\ Node.convId p' = Node.convId p /\
  Node.type p' = Node.type p /\ Node.role p' = Node.role p /\
  Node.parent p' = Node.parent p /\ Node.children p' = Node.children p.

(** The state [generateMessage] hands to the [try] block: the controller is
    registered, the clock has been read once, the pending entry is set. *)
Definition started (convId : jsstring) (leafNodeId : Z) (st : AppState)
    : AppState :=
  with_pendingMessages
    (insert convId (newPending convId leafNodeId (clock st (ticks st) + 1)))
    (with_tick (with_aborts (insert convId false) st)).

(** What is left of [generateMessage] once the [try] block is over. *)
Definition afterTry (convId : jsstring) (leafNodeId pendingId : Z)
    (pendingMsg : PendingMessage) (tried : Completion unit) : Task unit :=
  match tried with
  | Return _ => ret tt
  | Throw err => catchBlock convId err
  end;;;
  persistPending convId leafNodeId pendingId pendingMsg.

(** The node [persistPending] writes for a pending message with content. *)
Definition persistedNode (p : PendingMessage) (content : jsstring) : Message :=
  Node.with_content p content.

(** [node] is the assistant reply with the given id, parent and content. *)
Definition assistantReply (node : Message) (convId : jsstring)
    (leafNodeId pendingId : Z) (content : jsstring) : Prop :=
  Node.id node = pendingId /\ Node.convId node = convId /\
  Node.type node = text /\ Node.role node = assistant /\
  Node.content node = content /\ Node.parent node = leafNodeId /\
  Node.children node = [].

(** [st'] differs from [st] in the store by one assistant reply attached
    under [leafNodeId]. *)
Definition replyPersisted (st st' : AppState) (convId : jsstring)
    (leafNodeId : Z) : Prop :=
  exists node,
    storage st' =
      StorageUtils.appended (storage st) (clock st (S (ticks st))) node
                            leafNodeId /\
    Node.id node = (clock st (ticks st) + 1)%Z /\
    Node.convId node = convId /\
    Node.role node = assistant /\
    is_Some (StorageUtils.findNode (storage st) convId leafNodeId).

(** The user node [sendMessage] and [replaceMessageAndGenerate] build. *)
Definition userMessage (convId : jsstring) (now : Z) (content : jsstring)
    (extra : option (list MessageExtra)) (leafNodeId : Z) : Message :=
  Node.mk now convId text now user content None extra leafNodeId [].

(** The state in which [sendMessage] calls [generateMessage]: the clock
    has been read for the id of the user node, the node has been handed to
    the store (which reads the clock once more when it accepts the node)
    and [onChunk(currMsgId)] has been called. *)
Definition userAppended (convId : jsstring) (leafNodeId : Z)
    (content : jsstring) (extra : option (list MessageExtra))
    (st : AppState) : AppState :=
  with_effect (OnChunk (Some (clock st (ticks st))))
    match StorageUtils.findNode (storage st) convId leafNodeId with
    | Some _ =>
        with_storage
          (fun s => StorageUtils.appended s (clock st (S (ticks st)))
                      (userMessage convId (clock st (ticks st)) content extra
                                   leafNodeId)
                      leafNodeId)
          (with_tick (with_tick st))
    | None =>
        with_effect (UnhandledRejection StorageUtils.NotFoundError)
                    (with_tick st)
    end.

(** The state after [createConversation] and [navigate]. *)
Definition conversationCreated (content : jsstring) (st : AppState) : AppState :=
  let now := clock st (ticks st) in
  let convId := Js.lit "conv-" ++ StorageUtils.decimal now in
  with_effect (Navigate (Js.lit "/chat/" ++ convId))
    (with_storage
       (fun s =>
          StorageUtils.with_messages
            (fun ms => ms ++ [Node.mk now convId root now system [] None None (-1)%Z []])
            (StorageUtils.with_conversations
               (insert convId
                  {| conv_id := convId; lastModified := now; currNode := now;
                     name := Js.substring0 256 content |}) s))
       (with_tick st)).

(** Whether [sendMessage] continues the conversation it is given. *)
Definition continues (convId : option jsstring) (leafNodeId : option Z)
    : option (jsstring * Z) :=
  match convId, leafNodeId with
  | Some c, Some l => if decide (length c = 0%nat) then None else Some (c, l)
  | _, _ => None
  end.

(** The conversation [sendMessage] is to continue, if any, is in the store
    together with the leaf the new message is to hang under. *)
Definition targetReady (st : AppState) (convId : option jsstring)
    (leafNodeId : option Z) : Prop :=
  match continues convId leafNodeId with
  | Some (c, l) =>
      is_Some (conversations (storage st) !! c) /\
      is_Some (StorageUtils.findNode (storage st) c l)
  | None => True
  end.

(** The store holds a user message with this content. *)
Definition holdsUserMessage (s : Storage) (content : jsstring) : Prop :=
  exists m, m ∈ messages s /\ Node.role m = user /\ Node.content m = content.

(** The name stored for a conversation. *)
Definition conversationName (s : Storage) (convId : jsstring)
    : option jsstring :=
  name <$> conversations s !! convId.

(** *** Commands and their rewrite *)

(** The command prefixes [sendMessage] intercepts. *)
Definition commandPrefixes : list jsstring :=
  [ Js.lit "/codebase"; Js.lit "/products"; Js.lit "/documentation";
    Js.lit "/medical_records" ].

(** [content] begins with one of the command prefixes. *)
Definition isCommand (content : jsstring) : Prop :=
  Exists (fun p => Js.startsWith content p = true) commandPrefixes.

(** The directive each command puts in front of the retrieved documents. *)
Definition directiveOf (content : jsstring) : jsstring :=
  if Js.startsWith content (Js.lit "/codebase") then directiveCodebase
  else if Js.startsWith content (Js.lit "/products") then directiveProducts
  else if Js.startsWith content (Js.lit "/documentation") then directiveDocumentation
  else directiveMedRecords.

(** The retrieval endpoint did not deliver documents. *)
Definition ragFailure (rag : RagReply) : Prop :=
  match rag with
  | RagDocuments _ => False
  | _ => True
  end.

Definition ragAlert : jsstring :=
  Js.lit "Failed to fetch context from RAG system.".

(** A replacement text without a dollar sign. *)
Definition plain (template : jsstring) : bool :=
  forallb (fun c => negb (c =? 36)%N) template.

(** *** Ids and the clock *)

(** The clock never runs backwards. *)
Definition monotoneClock (st : AppState) : Prop :=
  forall n m, (n <= m)%nat -> (clock st n <= clock st m)%Z.

(** The ids of the nodes of a conversation, in registration order. *)
Definition idsOf (s : Storage) (convId : jsstring) : list Z :=
  map Node.id (StorageUtils.messagesOf s convId).

(** The ids stored for a conversation are strictly increasing in
    registration order (and hence pairwise distinct). *)
Definition increasingIds (s : Storage) (convId : jsstring) : Prop :=
  StronglySorted Z.lt (idsOf s convId).

(** Every id stored for the conversation is below [bound]. *)
Definition idsBelow (s : Storage) (convId : jsstring) (bound : Z) : Prop :=
  Forall (fun i => (i < bound)%Z) (idsOf s convId).

(** What a run adds to the ids of the conversation [c]: at most the id of
    a user node, the clock reading at the start of the run, and then at
    most the id of a reply, a reading taken no earlier, plus one. *)
Definition idsHandedOut (st st' : AppState) (c : jsstring) : Prop :=
  exists user reply,
    idsOf (storage st') c = idsOf (storage st) c ++ user ++ reply /\
    (user = [] \/ user = [clock st (ticks st)]) /\
    (reply = [] \/
     exists n, (ticks st <= n)%nat /\ reply = [(clock st n + 1)%Z]).

(** *** Sample states and runs *)

Definition sampleConv : jsstring := Js.lit "conv-1".

(** The sample conversation in the store, nothing pending, and a clock
    that advances by one millisecond per reading. *)
Definition sampleState : AppState :=
  {| pendingMessages := ∅;
     aborts := ∅;
     storage :=
       {| conversations :=
            {[ sampleConv := {| conv_id := sampleConv; lastModified := 4;
                                currNode := 4; name := Js.lit "hello" |} ]};
          messages := sampleMsgs;
          config := {| showTokensPerSecond := false |} |};
     clock := fun n => (1000 + Z.of_nat n)%Z;
     ticks := 0;
     effects := [] |}.

(** A chunk that carries [s] as its delta content and nothing else. *)
Definition contentChunk (s : string) : Chunk :=
  {| chunk_error := None; chunk_choices := [Some (Js.lit s)];
     chunk_timings := None |}.

(** The sample state with a clock that stays within one millisecond. *)
Definition frozenState : AppState :=
  {| pendingMessages := pendingMessages sampleState;
     aborts := aborts sampleState;
     storage := storage sampleState;
     clock := fun _ => 1000%Z;
     ticks := 0;
     effects := [] |}.

(** Two sends in a row, both completed within that millisecond. *)
Definition firstSend : Completion bool * AppState :=
  sendMessage (Some sampleConv) (Some 4%Z) (Js.lit "a") None RagUnreachable
    (Responded 200 (Return None) [contentChunk "x"] StreamDone) frozenState.

Definition secondSend : Completion bool * AppState :=
  sendMessage (Some sampleConv) (Some 1001%Z) (Js.lit "b") None RagUnreachable
    (Responded 200 (Return None) [contentChunk "y"] StreamDone) (snd firstSend).

(** ** Vocabulary of the further properties *)

(** How a generation fails: [failsWith net err] when the request, the
    response status, a chunk of the stream or the read of the stream makes
    the [try] block throw [err] without the user having stopped it. *)
Inductive failsWith : FetchOutcome -> JsError -> Prop :=
| fails_request e :
    failsWith (RequestFails e) e
| fails_status status message chunks fin :
    status <> 200%Z ->
    failsWith (Responded status (Return message) chunks fin)
              (Error (orElse message (Js.lit "Unknown error")))
| fails_status_body status e chunks fin :
    status <> 200%Z ->
    failsWith (Responded status (Throw e) chunks fin) e
| fails_chunk_error errorBody good bad message rest fin :
    Forall cleanChunk good -> chunk_error bad = Some message ->
    failsWith (Responded 200 errorBody (good ++ bad :: rest) fin)
              (Error (orElse message (Js.lit "Unknown error")))
| fails_chunk_choices errorBody good bad rest fin :
    Forall cleanChunk good -> chunk_error bad = None ->
    chunk_choices bad = [] ->
    failsWith (Responded 200 errorBody (good ++ bad :: rest) fin)
              (TypeError (Js.lit "Cannot read properties of undefined (reading 'delta')"))
| fails_read errorBody good e :
    Forall cleanChunk good ->
    failsWith (Responded 200 errorBody good (StreamFails e)) e.

(** A chunk that carries an error with the message [s]. *)
Definition errorChunk (s : string) : Chunk :=
  {| chunk_error := Some (Some (Js.lit s)); chunk_choices := [];
     chunk_timings := None |}.

(** What another conversation sees of [st'] is what it saw of [st]: its
    pending message and its abort controller. *)
Definition elsewhereUntouched (convId : jsstring) (st st' : AppState) : Prop :=
  forall other, other <> convId ->
    pendingMessages st' !! other = pendingMessages st !! other /\
    aborts st' !! other = aborts st !! other.

(** The controllers of [st'] are those of [st], up to the controller of
    [convId] having been aborted. *)
Definition abortsUpTo (convId : jsstring) (st st' : AppState) : Prop :=
  aborts st' = aborts st \/
  aborts st' = alter (fun _ => true) convId (aborts st).

(** The timing snapshot kept after a run of chunks: the last one a chunk
    carried, when the configuration asks for timings at all. *)
Definition latestTimings (cfg : Config) (t : option TimingReport)
    (chunks : list Chunk) : option TimingReport :=
  foldl (fun t chunk =>
           match chunk_timings chunk with
           | Some tm => if showTokensPerSecond cfg then Some tm else t
           | None => t
           end) t chunks.

(** The stream ends with the user's stop. *)
Definition stoppedBy (fin : StreamEnd) : bool :=
  match fin with
  | UserStops => true
  | _ => false
  end.

(** The code units after a dollar sign that make a dollar form. *)
Definition dollarForm (c : N) : bool :=
  ((c =? 36) || (c =? 38) || (c =? 96) || (c =? 39))%N.

(** The three rewriters that splice with [content.replace], each with its
    command and its directive. *)
Definition replacingRewriters
    : list (jsstring * jsstring * (jsstring -> RagReply -> Task (option jsstring))) :=
  [ (Js.lit "/codebase", directiveCodebase, fetchRAGCodebase);
    (Js.lit "/products", directiveProducts, fetchRAGProducts);
    (Js.lit "/documentation", directiveDocumentation, fetchRAGDocumentation) ].

(** [ragData.results.documents.flat().join(' ')]. *)
Definition allDocsString (documents : list (list jsstring)) : jsstring :=
  Js.join (Js.lit " ") (concat documents).

(** [c] is the last child of the node stored under [p]: the link the loop
    of [findLeafNode] follows. *)
Definition lastChildLink (nodeMap : gmap Z Message) (p c : Z) : Prop :=
  exists node, nodeMap !! p = Some node /\ last (Node.children node) = Some c.

(** A node map whose only node lists itself as its child. *)
Definition selfLoop : gmap Z Message :=
  <[5%Z := sampleNode 5 text user 1 [5]%Z]> ∅.

(** ** The chat screen (the component of [components/ChatScreen.tsx]) *)

(** Calls into helpers whose code is elsewhere ([scrollToBottom] works on
    the DOM, [clearExtraContext] belongs to [useVSCodeContext], [focus] to
    the textarea, [preventDefault] to the event), in the order they are
    made. *)
Inductive ScreenCall :=
| ScrollToBottom (requiresNearBottom : bool)
| ScrollToBottomAfter (requiresNearBottom : bool) (delay : Z)
| ClearExtraContext
| Focus
| PreventDefault.

(** What the handlers of the component read and write: the text of the
    textarea ([textarea.value()], [textarea.setValue]), the [useState]
    cells, and the helper calls made so far. *)
Record Screen := {
  textareaValue : jsstring;
  currNodeId : Z;
  showDropdown : bool;
  filteredOptions : list jsstring;
  highlightedIndex : Z;
  screenCalls : list ScreenCall;
}.

Definition setValue (v : jsstring) (ui : Screen) : Screen :=
  {| textareaValue := v; currNodeId := currNodeId ui;
     showDropdown := showDropdown ui; filteredOptions := filteredOptions ui;
     highlightedIndex := highlightedIndex ui; screenCalls := screenCalls ui |}.

Definition setCurrNodeId (nodeId : Z) (ui : Screen) : Screen :=
  {| textareaValue := textareaValue ui; currNodeId := nodeId;
     showDropdown := showDropdown ui; filteredOptions := filteredOptions ui;
     highlightedIndex := highlightedIndex ui; screenCalls := screenCalls ui |}.

Definition setShowDropdown (b : bool) (ui : Screen) : Screen :=
  {| textareaValue := textareaValue ui; currNodeId := currNodeId ui;
     showDropdown := b; filteredOptions := filteredOptions ui;
     highlightedIndex := highlightedIndex ui; screenCalls := screenCalls ui |}.

Definition setFilteredOptions (options : list jsstring) (ui : Screen) : Screen :=
  {| textareaValue := textareaValue ui; currNodeId := currNodeId ui;
     showDropdown := showDropdown ui; filteredOptions := options;
     highlightedIndex := highlightedIndex ui; screenCalls := screenCalls ui |}.

(** [setHighlightedIndex(update)] with an updater function; a plain value
    [v] is the updater [fun _ => v]. *)
Definition setHighlightedIndex (update : Z -> Z) (ui : Screen) : Screen :=
  {| textareaValue := textareaValue ui; currNodeId := currNodeId ui;
     showDropdown := showDropdown ui; filteredOptions := filteredOptions ui;
     highlightedIndex := update (highlightedIndex ui);
     screenCalls := screenCalls ui |}.

Definition screenCall (c : ScreenCall) (ui : Screen) : Screen :=
  {| textareaValue := textareaValue ui; currNodeId := currNodeId ui;
     showDropdown := showDropdown ui; filteredOptions := filteredOptions ui;
     highlightedIndex := highlightedIndex ui;
     screenCalls := screenCalls ui ++ [c] |}.

(** [useState(['codebase', 'products', 'documentation',
    'medical_records case:14338'])] of [utils/app.context.tsx], line 90,
    which the screen copies into [dropdownOptions]. *)
Definition ragCollections : list jsstring :=
  [ Js.lit "codebase"; Js.lit "products"; Js.lit "documentation";
    Js.lit "medical_records case:14338" ].

(** The component when it is mounted, the textarea holding the prefilled
    message. *)
Definition initialScreen (prefilled : jsstring) : Screen :=
  {| textareaValue := prefilled; currNodeId := (-1)%Z;
     showDropdown := false; filteredOptions := [];
     highlightedIndex := 0%Z; screenCalls := [] |}.

(** *** [onChunk] and the calls into the controller *)

(** Lines 129-134; [if (currLeafNodeId)] passes for a number other than
    [0]. *)
Definition screenOnChunk (currLeafNodeId : option Z) (ui : Screen) : Screen :=
  let ui :=
    match currLeafNodeId with
    | Some nodeId =>
        if decide (nodeId <> 0%Z) then setCurrNodeId nodeId ui else ui
    | None => ui
    end in
  screenCall (ScrollToBottom true) ui.

(** The [onChunk] calls of a piece of trace, played on the screen in
    order. *)
Definition replayChunks (trace : list Effect) (ui : Screen) : Screen :=
  foldl (fun ui e =>
           match e with
           | OnChunk currLeafNodeId => screenOnChunk currLeafNodeId ui
           | _ => ui
           end) ui trace.

(** [await m] for a controller function [m] that was handed [onChunk]:
    the controller works on the application state, and the [onChunk] calls
    it made are played on the screen.  No other handler of the screen runs
    in between, and the conversation on screen stays the same (which it
    does under [replaceMessageAndGenerate], which does not navigate; for
    [sendMessage] see [awaitSend]). *)
Definition awaitWithOnChunk {A} (m : Task A) (ui : Screen) (st : AppState)
    : Completion A * Screen * AppState :=
  let '(r, st') := m st in
  (r, replayChunks (drop (length (effects st)) (effects st')) ui, st').

(** Lines 122-127, the effect on [currConvId]: the render in which the
    conversation on screen has changed resets the view to the latest
    message. *)
Definition conversationChanged (ui : Screen) : Screen :=
  screenCall (ScrollToBottomAfter false 1) (setCurrNodeId (-1) ui).

(** Where the screen stands with respect to a [navigate] of the
    controller.  The conversation on screen changes only once the provider
    has loaded the conversation navigated to, which takes several turns of
    the event loop: not before the call of [onChunk] that follows the
    [navigate] in the same turn, and then after any number of further
    entries of the trace. *)
Inductive ResetPhase :=
| Settled
    (** the conversation on screen is the one last navigated to *)
| Navigated
    (** [navigate] was called in this turn of the event loop *)
| Loading (remaining : nat).
    (** the conversation is being loaded; the effect runs when [remaining]
        further entries of the trace have been played *)

(** One entry of the trace played on the screen of the conversation
    [currConvId]; [resetAfter] says how long a conversation takes to
    load. *)
Definition replayStep (currConvId : option jsstring) (resetAfter : nat)
    (acc : ResetPhase * Screen) (e : Effect) : ResetPhase * Screen :=
  let '(phase, ui) :=
    match acc with
    | (Loading O, ui) => (Settled, conversationChanged ui)
    | _ => acc
    end in
  let waited :=
    match phase with
    | Loading (S n) => Loading n
    | _ => phase
    end in
  match e with
  | Navigate path =>
      if bool_decide
           (Some path = (fun c => Js.lit "/chat/" ++ c) <$> currConvId)
      then (waited, ui)
      else (Navigated, ui)
  | OnChunk currLeafNodeId =>
      (match phase with
       | Navigated => Loading resetAfter
       | _ => waited
       end,
       screenOnChunk currLeafNodeId ui)
  | _ => (waited, ui)
  end.

(** A piece of trace played on the screen, up to the render in which the
    conversation on screen has caught up with the last [navigate]. *)
Definition replaySend (currConvId : option jsstring) (resetAfter : nat)
    (trace : list Effect) (ui : Screen) : Screen :=
  match foldl (replayStep currConvId resetAfter) (Settled, ui) trace with
  | (Settled, ui) => ui
  | (_, ui) => conversationChanged ui
  end.

(** [await sendMessage(..., onChunk)]: as [awaitWithOnChunk], with the
    change of the conversation on screen that a [navigate] of
    [sendMessage] brings about. *)
Definition awaitSend {A} (currConvId : option jsstring) (resetAfter : nat)
    (m : Task A) (ui : Screen) (st : AppState)
    : Completion A * Screen * AppState :=
  let '(r, st') := m st in
  (r,
   replaySend currConvId resetAfter
     (drop (length (effects st)) (effects st')) ui,
   st').

(** [messages.at(-1)?.msg.id ?? null] *)
Definition lastMsgNodeId (messages : list MessageDisplay) : option Z :=
  (fun d => Node.id (msg d)) <$> last messages.

(** Lines 136-159.  [currConvId] is [viewingChat?.conv.id ?? null],
    [messages] the display list of the last render and [currExtra] the
    extra context of the last render; [resetAfter] says how long the
    conversation takes to load should the send create one (see
    [ResetPhase]). *)
Definition sendNewMessage (currConvId : option jsstring)
    (messages : list MessageDisplay) (currExtra : option (list MessageExtra))
    (rag : RagReply) (net : FetchOutcome) (resetAfter : nat)
    (ui : Screen) (st : AppState)
    : Completion unit * Screen * AppState :=
  let lastInpMsg := textareaValue ui in
  if bool_decide (length (Js.trim lastInpMsg) = 0%nat)
     || isGeneratingIn st (default [] currConvId)
  then (Return tt, ui, st)
  else
    let ui := setValue [] ui in
    let ui := screenCall (ScrollToBottom false) ui in
    let ui := setCurrNodeId (-1) ui in
    let '(sent, ui, st) :=
      awaitSend currConvId resetAfter
        (sendMessage currConvId (lastMsgNodeId messages) lastInpMsg currExtra
                     rag net) ui st in
    match sent with
    | Throw e => (Throw e, ui, st)
    | Return sent =>
        let ui := if sent : bool then ui else setValue lastInpMsg ui in
        (Return tt, screenCall ClearExtraContext ui, st)
    end.

(** Lines 161-174; [viewingChat] is given by the id of its conversation. *)
Definition handleEditMessage (viewingChat : option jsstring) (m : Message)
    (content : jsstring) (net : FetchOutcome) (ui : Screen) (st : AppState)
    : Completion unit * Screen * AppState :=
  match viewingChat with
  | None => (Return tt, ui, st)
  | Some convId =>
      let ui := setCurrNodeId (Node.id m) ui in
      let ui := screenCall (ScrollToBottom false) ui in
      let '(done, ui, st) :=
        awaitWithOnChunk
          (replaceMessageAndGenerate convId (Node.parent m) (Some content)
                                     (Node.extra m) net) ui st in
      match done with
      | Throw e => (Throw e, ui, st)
      | Return _ =>
          let ui := setCurrNodeId (-1) ui in
          (Return tt, screenCall (ScrollToBottom false) ui, st)
      end
  end.

(** Lines 176-189. *)
Definition handleRegenerateMessage (viewingChat : option jsstring)
    (m : Message) (net : FetchOutcome) (ui : Screen) (st : AppState)
    : Completion unit * Screen * AppState :=
  match viewingChat with
  | None => (Return tt, ui, st)
  | Some convId =>
      let ui := setCurrNodeId (Node.parent m) ui in
      let ui := screenCall (ScrollToBottom false) ui in
      let '(done, ui, st) :=
        awaitWithOnChunk
          (replaceMessageAndGenerate convId (Node.parent m) None
                                     (Node.extra m) net) ui st in
      match done with
      | Throw e => (Throw e, ui, st)
      | Return _ =>
          let ui := setCurrNodeId (-1) ui in
          (Return tt, screenCall (ScrollToBottom false) ui, st)
      end
  end.

(** *** The command dropdown *)

(** [s.split(' ')] for a separator of one code unit: the pieces between
    the separators, at least one. *)
Fixpoint splitOn (sep : N) (s : jsstring) : list jsstring :=
  match s with
  | [] => [[]]
  | c :: rest =>
      if (c =? sep)%N then [] :: splitOn sep rest
      else match splitOn sep rest with
           | w :: ws => (c :: w) :: ws
           | [] => [[c]]
           end
  end.

(** [value.split(' ').pop() ?? ''] *)
Definition lastWord (value : jsstring) : jsstring :=
  default [] (last (splitOn 32 value)).

(** [options[i]] for an integer [i]: [undefined] outside the array. *)
Definition optionAt (options : list jsstring) (i : Z) : option jsstring :=
  if decide (0 <= i)%Z then options !! Z.to_nat i else None.

(** Lines 269-277.  The option is [undefined] when the caller indexed
    outside the array, and the template literal then spells it out.  The
    last word is a piece of the value, so the end index of the slice is
    not negative. *)
Definition handleOptionClick (option : option jsstring) (ui : Screen) : Screen :=
  let value := textareaValue ui in
  let lastWord := lastWord value in
  let newValue :=
    take (length value - length lastWord) value ++
    Js.lit "/" ++ default (Js.lit "undefined") option ++ Js.lit " " in
  let ui := setValue newValue ui in
  let ui := setShowDropdown false ui in
  screenCall Focus ui.

(** Of a keyboard event the handler reads these four fields. *)
Record KeyEvent := {
  isComposing : bool;
  keyCode : Z;
  key : jsstring;
  shiftKey : bool;
}.

Section Dropdown.

(** [String.prototype.toLowerCase], which follows the Unicode case
    mapping; the handler is stated over it. *)
Variable toLowerCase : jsstring -> jsstring.

(** Lines 224-267.  The second component tells whether the handler called
    [sendNewMessage()], which it does not await. *)
Definition handleTextareaKeyDown (e : KeyEvent) (ui : Screen) : Screen * bool :=
  if isComposing e || bool_decide (keyCode e = 229%Z) then (ui, false) else
  let value := textareaValue ui in
  if bool_decide (key e = Js.lit "/") then
    let ui := setShowDropdown true ui in
    let ui := setFilteredOptions ragCollections ui in
    (setHighlightedIndex (fun _ => 0%Z) ui, false)
  else if bool_decide (key e = Js.lit "Enter") && negb (shiftKey e) then
    let shown := showDropdown ui in
    let options := filteredOptions ui in
    let index := highlightedIndex ui in
    let ui := screenCall PreventDefault ui in
    if shown && bool_decide (0 < length options)%nat then
      let ui := handleOptionClick (optionAt options index) ui in
      (setShowDropdown false ui, false)
    else (setShowDropdown false ui, true)
  else if bool_decide (key e = Js.lit "Escape") then
    (setShowDropdown false ui, false)
  else if bool_decide (key e = Js.lit "ArrowDown") && showDropdown ui then
    let options := filteredOptions ui in
    let ui := screenCall PreventDefault ui in
    (setHighlightedIndex
       (fun prevIndex => Z.min (prevIndex + 1) (Z.of_nat (length options) - 1)) ui,
     false)
  else if bool_decide (key e = Js.lit "ArrowUp") && showDropdown ui then
    let ui := screenCall PreventDefault ui in
    (setHighlightedIndex (fun prevIndex => Z.max (prevIndex - 1) 0) ui, false)
  else
    let lastWord := lastWord value in
    if Js.startsWith lastWord (Js.lit "/") then
      let query := toLowerCase (drop 1 lastWord) in
      let newFilteredOptions :=
        filter (fun option => Js.startsWith (toLowerCase option) query = true)
               ragCollections in
      let ui := setFilteredOptions newFilteredOptions ui in
      (setHighlightedIndex (fun _ => 0%Z) ui, false)
    else (setShowDropdown false ui, false).

(** The user brings the textarea to [typed] and a key goes down. *)
Definition typeAndPress (ui : Screen) (step : jsstring * KeyEvent) : Screen :=
  fst (handleTextareaKeyDown (snd step) (setValue (fst step) ui)).

End Dropdown.

(** ** Vocabulary of the chat screen properties *)

(** The highlighted index points at one of the filtered options whenever
    there are any, and the filtered options are collections. *)
Definition dropdownInRange (ui : Screen) : Prop :=
  filteredOptions ui ⊆ ragCollections /\
  (filteredOptions ui <> [] ->
   (0 <= highlightedIndex ui < Z.of_nat (length (filteredOptions ui)))%Z).

(** The event of the Enter key going down, outside a composition and
    without the shift key. *)
Definition pressesEnter (e : KeyEvent) : Prop :=
  isComposing e = false /\ keyCode e <> 229%Z /\
  key e = Js.lit "Enter" /\ shiftKey e = false.

(** The key [k] going down, outside a composition and without the shift
    key. *)
Definition keyDown (k : string) : KeyEvent :=
  {| isComposing := false; keyCode := 0; key := Js.lit k; shiftKey := false |}.

(** An effect that moves neither the view nor the route: anything but
    [onChunk] with a node id and [navigate]. *)
Definition quiet (e : Effect) : Prop :=
  match e with
  | OnChunk (Some _) | Navigate _ => False
  | _ => True
  end.

(** [st'] shows what [st] showed and then effects that do not move the
    view. *)
Definition quietly (st st' : AppState) : Prop :=
  exists added, effects st' = effects st ++ added /\ Forall quiet added.

(** The node id the view is on after a piece of trace, having been on
    [shown] before. *)
Definition lastShown (trace : list Effect) (shown : Z) : Z :=
  foldl (fun shown e =>
           match e with
           | OnChunk (Some nodeId) =>
               if decide (nodeId <> 0%Z) then nodeId else shown
           | _ => shown
           end) shown trace.

(** Every reading of the clock is a positive number of milliseconds. *)
Definition clockPositive (st : AppState) : Prop :=
  forall n, (0 < clock st n)%Z.

(** The generation is stopped before any text has arrived. *)
Definition stoppedEmpty (net : FetchOutcome) : Prop :=
  net = StoppedBeforeResponse \/
  exists errorBody chunks,
    net = Responded 200 errorBody chunks UserStops /\
    Forall cleanChunk chunks /\ streamText chunks = [].

(** A screen whose textarea holds [typed]. *)
Definition screenWith (typed : string) : Screen :=
  setValue (Js.lit typed) (initialScreen []).

(** The display list of the sample conversation seen from its latest
    message [4]. *)
Definition sampleDisplay : list MessageDisplay :=
  [ {| msg := sampleNode 4 text user 1 [];
       siblingLeafNodeIds := [3; 4]%Z; siblingCurrIdx := 1 |} ].

(** The paths a piece of trace navigates to, in order. *)
Definition navigations (trace : list Effect) : list jsstring :=
  omap (fun e => match e with Navigate path => Some path | _ => None end) trace.

(** ** Properties of the branch resolver *)

Lemma last_elem_of {A} (l : list A) (x : A) : last l = Some x -> x ∈ l.
Proof.
  intros H. destruct (last_Some l x) as [[l' ->] _]; [done|].
  set_solver.
Qed.

Lemma length_zero_children (node : Message) :
  length (Node.children node) = 0%nat <-> Node.children node = [].
Proof. split; [apply nil_length_inv | by intros ->]. Qed.

Lemma last_nonempty {A} (l : list A) : l <> [] -> is_Some (last l).
Proof.
  intros H. destruct (last l) eqn:E; [eauto|].
  by apply last_None in E.
Qed.

(** The loop returns what the descent relation says, using no more
    iterations than the descent has steps. *)
Lemma findLeafNode_loop_sound nodeMap fuel i res :
  findLeafNode_loop nodeMap fuel (nodeMap !! i) = Some res ->
  exists n, (n <= fuel)%nat /\ leafDescent nodeMap n i (leafId res).
Proof.
  revert i res. induction fuel as [|fuel IH]; intros i res; simpl.
  - destruct (nodeMap !! i) as [node|] eqn:Hi; simpl.
    + case_decide as Hlen; [|done]. intros [= <-].
      exists 0%nat. split; [lia|]. apply descent_leaf; [done|].
      by apply length_zero_children.
    + intros [= <-]. exists 0%nat. split; [lia|]. by apply descent_missing.
  - destruct (nodeMap !! i) as [node|] eqn:Hi; simpl.
    + case_decide as Hlen.
      * intros [= <-]. exists 0%nat. split; [lia|].
        apply descent_leaf; [done|]. by apply length_zero_children.
      * destruct (last_nonempty (Node.children node)) as [c Hc].
        { intros E. apply Hlen. by rewrite E. }
        rewrite Hc. simpl. intros Hrun.
        destruct (IH _ _ Hrun) as (n & Hn & Hd).
        exists (S n). split; [lia|]. by eapply descent_step.
    + intros [= <-]. exists 0%nat. split; [lia|]. by apply descent_missing.
Qed.

(** Conversely a descent of [n] steps is found with any fuel from [n] on. *)
Lemma findLeafNode_loop_complete nodeMap n i r fuel :
  leafDescent nodeMap n i r -> (n <= fuel)%nat ->
  exists res, findLeafNode_loop nodeMap fuel (nodeMap !! i) = Some res /\
              leafId res = r.
Proof.
  intros Hd. revert fuel. induction Hd as [i Hi|i node Hi Hch|n i node c r Hi Hc Hd IH];
    intros fuel Hfuel.
  - rewrite Hi. exists None. by destruct fuel.
  - rewrite Hi. exists (Some node).
    destruct fuel; simpl; (case_decide as Hlen; [done|]);
      by rewrite Hch in Hlen.
  - rewrite Hi. destruct fuel as [|fuel]; [lia|]. simpl.
    case_decide as Hlen.
    + apply length_zero_children in Hlen. by rewrite Hlen in Hc.
    + rewrite Hc. simpl. apply IH. lia.
Qed.

Lemma leafDescent_det nodeMap n n' i r r' :
  leafDescent nodeMap n i r -> leafDescent nodeMap n' i r' ->
  n = n' /\ r = r'.
Proof.
  intros Hd. revert n' r'.
  induction Hd as [i Hi|i node Hi Hch|n i node c r Hi Hc Hd IH];
    intros n' r' Hd'; inversion Hd'; subst; simplify_eq; try done.
  - by rewrite Hch in *.
  - by match goal with H : Node.children _ = [] |- _ => rewrite H in Hc end.
  - destruct (IH _ _ ltac:(eassumption)) as [-> ->]. done.
Qed.

(** A descent never visits a node twice, so it has at most as many steps
    as the map has nodes. *)
Lemma leafDescent_visits nodeMap n i r :
  leafDescent nodeMap n i r ->
  exists V : gset Z,
    size V = n /\ V ⊆ dom nodeMap /\
    forall v, v ∈ V -> exists j, (j <= n)%nat /\ leafDescent nodeMap j v r.
Proof.
  induction 1 as [i Hi|i node Hi Hch|n i node c r Hi Hc Hd IH].
  - exists ∅. split; [done|]. split; set_solver.
  - exists ∅. split; [done|]. split; set_solver.
  - destruct IH as (V & Hsize & Hdom & Hvis).
    assert (Hfresh : i ∉ V).
    { intros Hin. destruct (Hvis _ Hin) as (j & Hj & Hdj).
      assert (Hfull : leafDescent nodeMap (S n) i r) by (by eapply descent_step).
      destruct (leafDescent_det _ _ _ _ _ _ Hdj Hfull) as [-> _]. lia. }
    exists ({[i]} ∪ V). split; [|split].
    + rewrite size_union by set_solver. rewrite size_singleton. lia.
    + apply union_subseteq. split; [|done].
      apply singleton_subseteq_l, elem_of_dom. eauto.
    + intros v [->%elem_of_singleton|Hv]%elem_of_union.
      * exists (S n). split; [lia|]. by eapply descent_step.
      * destruct (Hvis _ Hv) as (j & Hj & Hdj). exists j. split; [lia|done].
Qed.

Lemma leafDescent_bound nodeMap n i r :
  leafDescent nodeMap n i r -> (n <= size nodeMap)%nat.
Proof.
  intros (V & <- & Hdom & _)%leafDescent_visits.
  rewrite <- size_dom. by apply subseteq_size.
Qed.

(** [findLeafNode] returns exactly when a descent exists: the fuel it
    hands to the loop never cuts a terminating run short. *)
Lemma findLeafNode_loop_enough nodeMap fuel i res :
  findLeafNode_loop nodeMap fuel (nodeMap !! i) = Some res ->
  exists res', findLeafNode_loop nodeMap (size nodeMap) (nodeMap !! i) = Some res' /\
               leafId res' = leafId res.
Proof.
  intros (n & _ & Hd)%findLeafNode_loop_sound.
  eapply findLeafNode_loop_complete; [done|]. by eapply leafDescent_bound.
Qed.

Lemma findLeafNode_spec nodeMap i r :
  findLeafNode nodeMap i = Some r <-> exists n, leafDescent nodeMap n i r.
Proof.
  unfold findLeafNode. split.
  - intros (res & Hrun & ->)%fmap_Some.
    apply findLeafNode_loop_sound in Hrun as (n & _ & Hd). by exists n.
  - intros [n Hd].
    destruct (findLeafNode_loop_complete nodeMap n i r (size nodeMap) Hd)
      as (res & Hrun & <-); [by eapply leafDescent_bound|].
    by rewrite Hrun.
Qed.

(** On acyclic child links every descent ends. *)
Lemma acyclic_descent_aux nodeMap :
  acyclic nodeMap ->
  forall budget (V : gset Z) i,
    V ⊆ dom nodeMap ->
    (forall v, v ∈ V -> tc (childLink nodeMap) v i) ->
    (size nodeMap - size V <= budget)%nat ->
    exists n r, leafDescent nodeMap n i r.
Proof.
  intros Hacyc budget.
  induction budget as [|budget IH]; intros V i Hdom Hreach Hbudget;
    (destruct (nodeMap !! i) as [node|] eqn:Hi;
      [|by exists 0%nat, (-1)%Z; apply descent_missing]);
    (destruct (last (Node.children node)) as [c|] eqn:Hc;
      [|by apply last_None in Hc; exists 0%nat, (Node.id node);
          apply descent_leaf]).
  all: assert (Hfresh : i ∉ V) by (intros Hin; exact (Hacyc i (Hreach i Hin))).
  all: assert (Hsub : {[i]} ∪ V ⊆ dom nodeMap)
    by (apply union_subseteq; split;
        [apply singleton_subseteq_l, elem_of_dom; eauto|done]).
  all: assert (Hsz : (S (size V) <= size nodeMap)%nat)
    by (rewrite <- size_dom; apply subseteq_size in Hsub;
        rewrite size_union in Hsub by set_solver;
        rewrite size_singleton in Hsub; lia).
  - lia.
  - assert (Hlink : childLink nodeMap i c).
    { exists node. split; [done|]. by apply last_elem_of. }
    destruct (IH ({[i]} ∪ V) c Hsub) as (n & r & Hd).
    + intros v [->%elem_of_singleton|Hv]%elem_of_union.
      * by apply tc_once.
      * eapply tc_r; [by apply Hreach|done].
    + rewrite size_union by set_solver. rewrite size_singleton. lia.
    + exists (S n), r. by eapply descent_step.
Qed.

Lemma acyclic_descent nodeMap i :
  acyclic nodeMap -> exists n r, leafDescent nodeMap n i r.
Proof.
  intros Hacyc.
  apply (acyclic_descent_aux nodeMap Hacyc (size nodeMap) ∅ i); [set_solver..|lia].
Qed.

(** A rank that decreases along child links rules cycles out. *)
Lemma acyclic_of_rank nodeMap (rank : Z -> nat) :
  rankDecreases nodeMap rank = true -> acyclic nodeMap.
Proof.
  intros Hrank%bool_decide_eq_true_1.
  assert (Hdec : forall a b, tc (childLink nodeMap) a b -> (rank b < rank a)%nat).
  { induction 1 as [a b (node & Ha & Hin)|a b c (node & Ha & Hin) _ IH].
    - specialize (Hrank _ _ Ha). rewrite Forall_forall in Hrank. by apply Hrank.
    - specialize (Hrank _ _ Ha). rewrite Forall_forall in Hrank.
      specialize (Hrank _ Hin). lia. }
  intros i Hi. specialize (Hdec _ _ Hi). lia.
Qed.

Lemma buildNodeMap_snoc msgs m :
  buildNodeMap (msgs ++ [m]) = <[Node.id m := m]> (buildNodeMap msgs).
Proof. unfold buildNodeMap. by rewrite foldl_app. Qed.

(** Every node of the map sits under its own id. *)
Lemma buildNodeMap_id msgs i node :
  buildNodeMap msgs !! i = Some node -> Node.id node = i.
Proof.
  revert i node. induction msgs as [|m msgs IH] using rev_ind; intros i node.
  - unfold buildNodeMap. simpl. by rewrite lookup_empty.
  - rewrite buildNodeMap_snoc.
    destruct (decide (Node.id m = i)) as [<-|Hne].
    + rewrite lookup_insert_eq. by intros [= <-].
    + rewrite lookup_insert_ne by done. apply IH.
Qed.

Lemma indexOf_range siblings x : (-1 <= indexOf siblings x)%Z.
Proof.
  induction siblings as [|y rest IH]; simpl; [lia|].
  repeat case_decide; lia.
Qed.

Lemma indexOf_position siblings x :
  positionOf siblings x (indexOf siblings x).
Proof.
  induction siblings as [|y rest [IHin IHout]]; simpl.
  - split; [by intros ?%elem_of_nil|done].
  - pose proof (indexOf_range rest x) as Hrange.
    destruct (decide (y = x)) as [->|Hne].
    + split; [|by intros []; left]. intros _. split; [lia|]. split; [done|].
      intros j Hj. simpl in Hj. lia.
    + case_decide as Hidx.
      * split; [|done]. intros [?|Hin]%elem_of_cons; [done|].
        destruct (decide (x ∈ rest)) as [Hin'|Hout]; [|done].
        destruct (IHin Hin') as [Hpos _]. lia.
      * assert (Hin : x ∈ rest).
        { destruct (decide (x ∈ rest)); [done|]. by destruct Hidx; apply IHout. }
        split; [|by intros []; right]. intros _.
        destruct (IHin Hin) as (Hpos & Hat & Hfirst).
        split; [lia|].
        replace (Z.to_nat (indexOf rest x + 1)) with (S (Z.to_nat (indexOf rest x))) by lia.
        split; [done|].
        intros [|j] Hj; simpl; [congruence|]. apply Hfirst. lia.
Qed.

Lemma displayEntry_skip nodeMap m :
  ~ displayed nodeMap m -> displayEntry nodeMap m = Some [].
Proof.
  unfold displayed, displayEntry. intros Hskip.
  destruct (nodeMap !! Node.parent m) as [parentNode|]; [|done].
  case_decide; [|done]. destruct Hskip. eauto.
Qed.

Lemma displayEntry_keep nodeMap m entry :
  displayed nodeMap m -> displayEntry nodeMap m = Some entry ->
  exists d, entry = [d] /\ entryFor nodeMap m d.
Proof.
  unfold displayed, displayEntry. intros [Htype [parentNode Hparent]].
  rewrite Hparent. case_decide; [|done].
  destruct (mapM (findLeafNode nodeMap) (Node.children parentNode))
    as [leaves|] eqn:Hleaves; [|done].
  simpl. intros [= <-]. eexists. split; [done|].
  split; [done|]. exists parentNode. split; [done|]. simpl. split.
  - apply mapM_Some in Hleaves.
    eapply Forall2_impl; [exact Hleaves|].
    intros sibling leaf Hleaf. by apply findLeafNode_spec.
  - apply indexOf_position.
Qed.

Lemma displayEntry_total nodeMap m :
  acyclic nodeMap -> is_Some (displayEntry nodeMap m).
Proof.
  intros Hacyc. unfold displayEntry.
  destruct (nodeMap !! Node.parent m) as [parentNode|]; [|eauto].
  case_decide; [|eauto].
  destruct (mapM_is_Some (findLeafNode nodeMap) (Node.children parentNode))
    as [_ [leaves ->]]; [|simpl; eauto].
  apply Forall_forall. intros sibling _. simpl.
  destruct (acyclic_descent nodeMap sibling Hacyc) as (n & r & Hd).
  exists r. apply findLeafNode_spec. eauto.
Qed.

Lemma displayLoop_entries nodeMap currNodes res :
  displayLoop nodeMap currNodes = Some res ->
  Forall2 (entryFor nodeMap) (filter (displayed nodeMap) currNodes) res.
Proof.
  revert res. induction currNodes as [|m rest IH]; intros res; simpl.
  - intros [= <-]. constructor.
  - destruct (displayEntry nodeMap m) as [entry|] eqn:Hentry; [|done]. simpl.
    destruct (displayLoop nodeMap rest) as [res'|]; [|done]. simpl.
    intros [= <-]. specialize (IH _ eq_refl).
    destruct (decide (displayed nodeMap m)) as [Hkeep|Hskip].
    + rewrite filter_cons_True by done.
      destruct (displayEntry_keep _ _ _ Hkeep Hentry) as (d & -> & Hd).
      by constructor.
    + rewrite filter_cons_False by done.
      rewrite displayEntry_skip in Hentry by done. by injection Hentry as <-.
Qed.

Lemma displayLoop_total nodeMap currNodes :
  acyclic nodeMap -> is_Some (displayLoop nodeMap currNodes).
Proof.
  intros Hacyc. induction currNodes as [|m rest [res Hres]]; [by eexists|].
  destruct (displayEntry_total nodeMap m Hacyc) as [entry Hentry].
  simpl. rewrite Hentry. simpl. rewrite Hres. simpl. eauto.
Qed.

Lemma entryFor_msgs nodeMap kept res :
  Forall2 (entryFor nodeMap) kept res -> map msg res = kept.
Proof.
  induction 1 as [|m d kept res [Hm _] _ IH]; simpl; [done|]. by f_equal.
Qed.

(** C10: on a node set whose child links are acyclic, [findLeafNode]
    returns for every starting id, and what it returns is the id of the
    childless node reached by following last children, or [-1] when the
    starting id or a followed child id is not in the node map. *)
Theorem findLeafNode_total (nodeMap : gmap Z Message) (msgId : Z) :
  acyclic nodeMap ->
  exists r n, findLeafNode nodeMap msgId = Some r /\
              leafDescent nodeMap n msgId r.
Proof.
  intros Hacyc.
  destruct (acyclic_descent nodeMap msgId Hacyc) as (n & r & Hd).
  exists r, n. split; [|done]. apply findLeafNode_spec. eauto.
Qed.

Lemma findLeafNode_total_witness :
  exists r n, findLeafNode (buildNodeMap sampleMsgs) 1 = Some r /\
              leafDescent (buildNodeMap sampleMsgs) n 1 r.
Proof.
  apply findLeafNode_total.
  apply (acyclic_of_rank _ sampleRank).
  vm_compute. reflexivity.
Defined.

(** The map the resolver builds holds, under each id, the node of the set
    with this id. *)
Lemma buildNodeMap_lookup msgs i : buildNodeMap msgs !! i = nodeWithId msgs i.
Proof.
  unfold nodeWithId. induction msgs as [|m msgs IH] using rev_ind.
  - unfold buildNodeMap. simpl. by rewrite lookup_empty.
  - rewrite buildNodeMap_snoc, filter_app.
    destruct (decide (Node.id m = i)) as [Heq|Hne].
    + rewrite filter_cons_True, filter_nil by done.
      rewrite last_snoc. subst i. by rewrite lookup_insert_eq.
    + rewrite filter_cons_False, filter_nil, app_nil_r by done.
      by rewrite lookup_insert_ne.
Qed.

(** In a set with unique ids [nodeWithId] finds the node that has the id. *)
Lemma nodeWithId_unique msgs i node :
  NoDup (map Node.id msgs) ->
  nodeWithId msgs i = Some node <-> node ∈ msgs /\ Node.id node = i.
Proof.
  intros Hnodup. unfold nodeWithId. split.
  - intros Hlast%last_elem_of. by apply list_elem_of_filter in Hlast as [? ?].
  - intros [Hin Hid]. induction msgs as [|m msgs IH]; [by apply elem_of_nil in Hin|].
    simpl in Hnodup. apply NoDup_cons in Hnodup as [Hfresh Hnodup].
    apply elem_of_cons in Hin as [->|Hin].
    + rewrite filter_cons_True by done.
      destruct (filter (fun m => Node.id m = i) msgs) as [|x xs] eqn:Hrest;
        [done|]. exfalso.
      assert (Hx : x ∈ filter (fun m => Node.id m = i) msgs)
        by (rewrite Hrest; apply list_elem_of_here).
      apply list_elem_of_filter in Hx as [Hxi Hx].
      apply Hfresh, list_elem_of_fmap. exists x. split; [congruence|done].
    + rewrite filter_cons_False.
      * by apply IH.
      * intros Hm. apply Hfresh, list_elem_of_fmap. exists node.
        split; [congruence|done].
Qed.

Lemma leafDescent_descentIn msgs n i r :
  leafDescent (buildNodeMap msgs) n i r <-> descentIn msgs n i r.
Proof.
  split.
  - induction 1 as [i Hi|i node Hi Hch|n i node c r Hi Hc _ IH].
    + apply descentIn_missing. by rewrite <- buildNodeMap_lookup.
    + rewrite (buildNodeMap_id _ _ _ Hi).
      eapply descentIn_leaf; [by rewrite <- buildNodeMap_lookup|done].
    + eapply descentIn_step; [by rewrite <- buildNodeMap_lookup|done..].
  - induction 1 as [i Hi|i node Hi Hch|n i node c r Hi Hc _ IH].
    + apply descent_missing. by rewrite buildNodeMap_lookup.
    + rewrite <- buildNodeMap_lookup in Hi.
      rewrite <- (buildNodeMap_id _ _ _ Hi) at 2. by apply descent_leaf.
    + eapply descent_step; [by rewrite buildNodeMap_lookup|done..].
Qed.

Lemma acyclicIn_acyclic msgs : acyclicIn msgs <-> acyclic (buildNodeMap msgs).
Proof.
  assert (Hlink : forall p c,
            childIn msgs p c <-> childLink (buildNodeMap msgs) p c).
  { intros p c. unfold childIn, childLink.
    by setoid_rewrite buildNodeMap_lookup. }
  assert (Htc : forall p c,
            tc (childIn msgs) p c <-> tc (childLink (buildNodeMap msgs)) p c).
  { intros p c. split; induction 1 as [x y Hxy|x y z Hxy _ IH].
    - apply tc_once. by apply Hlink.
    - eapply tc_l; [|exact IH]. by apply Hlink.
    - apply tc_once. by apply Hlink.
    - eapply tc_l; [|exact IH]. by apply Hlink. }
  unfold acyclicIn, acyclic. by setoid_rewrite Htc.
Qed.

Lemma displayedIn_displayed msgs m :
  displayedIn msgs m <-> displayed (buildNodeMap msgs) m.
Proof. unfold displayedIn, displayed. by rewrite buildNodeMap_lookup. Qed.

Lemma entryFor_entryIn msgs m d :
  entryFor (buildNodeMap msgs) m d -> entryIn msgs m d.
Proof.
  intros (Hm & parentNode & Hparent & Hleaves & Hpos). split; [done|].
  exists parentNode. split; [by rewrite <- buildNodeMap_lookup|].
  split; [|done].
  eapply Forall2_impl; [exact Hleaves|].
  intros sibling leaf [n Hd]. exists n. by apply leafDescent_descentIn.
Qed.

(** C4: for every node set and leaf id, every node on the resolved path
    that is not of type root and whose parent is in the set gets one
    display entry; its [siblingLeafNodeIds] lists, for each child of the
    parent in children order, the leaf of the set reached from that child
    by following last children, and its [siblingCurrIdx] is the position
    of the node among the parent's children.  The resolver returns
    whenever the child links of the set have no cycle. *)
Theorem getListMessageDisplay_siblings
    (filterByLeafNodeId : list Message -> Z -> bool -> list Message)
    (msgs : list Message) (leafNodeId : Z) :
  (forall res,
     getListMessageDisplay filterByLeafNodeId msgs leafNodeId = Some res ->
     Forall2 (entryIn msgs)
             (filter (displayedIn msgs) (filterByLeafNodeId msgs leafNodeId true))
             res) /\
  (acyclicIn msgs ->
   is_Some (getListMessageDisplay filterByLeafNodeId msgs leafNodeId)).
Proof.
  split.
  - intros res Hres. apply displayLoop_entries in Hres.
    rewrite (list_filter_iff (displayedIn msgs) (displayed (buildNodeMap msgs)))
      by (intros m; apply displayedIn_displayed).
    eapply Forall2_impl; [exact Hres|]. intros m d. apply entryFor_entryIn.
  - intros Hacyc. by apply displayLoop_total, acyclicIn_acyclic.
Qed.

Lemma getListMessageDisplay_siblings_witness :
  exists res,
    getListMessageDisplay filterByLeafNodeId_spec sampleMsgs 3 = Some res /\
    Forall2 (entryIn sampleMsgs)
            (filter (displayedIn sampleMsgs)
                    (filterByLeafNodeId_spec sampleMsgs 3 true))
            res.
Proof.
  destruct (getListMessageDisplay_siblings filterByLeafNodeId_spec sampleMsgs 3)
    as [Hentries Htotal].
  destruct Htotal as [res Hres].
  { apply acyclicIn_acyclic, (acyclic_of_rank _ sampleRank).
    vm_compute. reflexivity. }
  exists res. split; [exact Hres|]. apply Hentries. exact Hres.
Defined.

(** The edit scenario of the sample conversation: seen from the reply
    [3], the user message [2] has the two branch leaves [3] and [4] as
    siblings and is the first of them. *)
Example sample_display :
  map (fun d => (Node.id (msg d), siblingLeafNodeIds d, siblingCurrIdx d))
    <$> getListMessageDisplay filterByLeafNodeId_spec sampleMsgs 3 =
  Some [ (2, [3; 4], 0); (3, [3], 0) ]%Z.
Proof. vm_compute. reflexivity. Qed.

(** C7: the display sequence holds exactly the nodes of the path that are
    not of type root and whose parent is in the node set, in path order:
    no root-typed node is displayed, and a node whose parent is not found
    is passed over while the remaining nodes are still processed. *)
Theorem getListMessageDisplay_skips
    (filterByLeafNodeId : list Message -> Z -> bool -> list Message)
    (msgs : list Message) (leafNodeId : Z) :
  let nodeMap := buildNodeMap msgs in
  let path := filterByLeafNodeId msgs leafNodeId true in
  (forall res,
     getListMessageDisplay filterByLeafNodeId msgs leafNodeId = Some res ->
     map msg res = filter (displayed nodeMap) path /\
     (forall d, d ∈ res -> Node.type (msg d) <> root) /\
     (forall m, m ∈ path -> nodeMap !! Node.parent m = None ->
                m ∉ map msg res)) /\
  (acyclic nodeMap ->
   is_Some (getListMessageDisplay filterByLeafNodeId msgs leafNodeId)).
Proof.
  intros nodeMap path. split.
  - intros res Hres.
    assert (Hmsgs : map msg res = filter (displayed nodeMap) path).
    { eapply entryFor_msgs. by apply displayLoop_entries. }
    split; [done|]. split.
    + intros d Hd.
      assert (Hin : msg d ∈ filter (displayed nodeMap) path).
      { rewrite <- Hmsgs. by apply list_elem_of_fmap_2. }
      apply list_elem_of_filter in Hin as [[Htype _] _]. done.
    + intros m _ Horphan. rewrite Hmsgs.
      intros [[_ [parentNode Hparent]] _]%list_elem_of_filter. congruence.
  - intros Hacyc. by apply displayLoop_total.
Qed.

Lemma getListMessageDisplay_skips_witness :
  exists res,
    getListMessageDisplay wholeList sampleMsgs 3 = Some res /\
    map (fun d => Node.id (msg d)) res = [2; 3; 4]%Z.
Proof.
  destruct (getListMessageDisplay_skips wholeList sampleMsgs 3)
    as [Hskips Htotal].
  destruct Htotal as [res Hres].
  { apply (acyclic_of_rank _ sampleRank).
    vm_compute. reflexivity. }
  exists res. split; [exact Hres|].
  destruct (Hskips res Hres) as [Hmsgs _].
  rewrite <- (List.map_map msg Node.id res).
  rewrite Hmsgs. vm_compute. reflexivity.
Defined.

(** ** Properties of the generation controller *)

Ltac run :=
  unfold attempt, notAwaited, alert, navigate, onChunk, setPending, setAbort,
         isGenerating;
  unfold tryCatch, bind, ret, throw, gets, modify, dateNow; simpl.

Lemma extends_refl st : extends st st.
Proof. exists []. by rewrite app_nil_r. Qed.

Lemma extends_trans st1 st2 st3 :
  extends st1 st2 -> extends st2 st3 -> extends st1 st3.
Proof.
  intros [a Ha] [b Hb]. exists (a ++ b). by rewrite Hb, Ha, app_assoc.
Qed.

Lemma extends_effect e st : extends st (with_effect e st).
Proof. by exists [e]. Qed.

Lemma sameStore_refl st : sameStore st st.
Proof. done. Qed.

Lemma sameStore_trans st1 st2 st3 :
  sameStore st1 st2 -> sameStore st2 st3 -> sameStore st1 st3.
Proof. unfold sameStore. intros (-> & -> & ->) (-> & -> & ->). done. Qed.

Lemma sameHeader_refl p : sameHeader p p.
Proof. done. Qed.

Lemma sameHeader_trans p1 p2 p3 :
  sameHeader p1 p2 -> sameHeader p2 p3 -> sameHeader p1 p3.
Proof.
  unfold sameHeader. intros (-> & -> & -> & -> & -> & ->) (-> & -> & -> & -> & -> & ->).
  done.
Qed.

#[local] Hint Resolve extends_refl extends_effect sameStore_refl sameHeader_refl : core.

(** Right after [stopGenerating(convId)] nothing is pending for [convId]. *)
Lemma stopGenerating_clears convId st :
  isGeneratingIn (snd (stopGenerating convId st)) convId = false.
Proof.
  unfold isGeneratingIn, stopGenerating. run.
  apply bool_decide_eq_false. rewrite lookup_delete_eq. by intros [? ?].
Qed.

(** The loop body touches neither the store nor the clock, keeps the
    header of the pending message, and on a clean chunk extends its
    content by the delta. *)
Lemma consumeChunk_frame cfg convId p chunk st :
  sameStore st (snd (consumeChunk cfg convId p chunk st)) /\
  extends st (snd (consumeChunk cfg convId p chunk st)).
Proof.
  unfold consumeChunk.
  destruct (chunk_error chunk); [by run|].
  destruct (chunk_choices chunk) as [|addedContent ?]; [by run|].
  run. split; [done|]. by exists [OnChunk None].
Qed.

Lemma consumeChunk_clean cfg convId p chunk st :
  cleanChunk chunk ->
  exists p',
    fst (consumeChunk cfg convId p chunk st) = Return p' /\
    sameHeader p p' /\
    Node.content p' = accumulate (Node.content p) (deltaContent chunk) /\
    pendingMessages (snd (consumeChunk cfg convId p chunk st)) !! convId = Some p'.
Proof.
  intros [Herr Hchoices]. unfold consumeChunk, deltaContent. rewrite Herr.
  destruct (chunk_choices chunk) as [|addedContent ?]; [done|].
  run. eexists. split; [done|].
  split; [|split; [|by rewrite lookup_insert_eq]].
  - destruct addedContent as [[|c s]|];
      destruct (chunk_timings chunk); destruct (showTokensPerSecond cfg); done.
  - destruct addedContent as [[|c s]|];
      destruct (chunk_timings chunk); destruct (showTokensPerSecond cfg); done.
Qed.

Lemma consumeChunk_header cfg convId p chunk st p' :
  fst (consumeChunk cfg convId p chunk st) = Return p' -> sameHeader p p'.
Proof.
  unfold consumeChunk.
  destruct (chunk_error chunk); [by run|].
  destruct (chunk_choices chunk) as [|addedContent ?]; [by run|].
  run. intros [= <-].
  destruct addedContent as [[|c s]|];
    destruct (chunk_timings chunk); destruct (showTokensPerSecond cfg); done.
Qed.

Lemma orElse_nonempty (s : jsstring) : s <> [] -> orElse (Some s) [] = s.
Proof. by destruct s. Qed.

(** Feeding the deltas one by one gives the concatenation of the
    non-empty ones, or leaves [content] alone when there is none. *)
Lemma accumulate_all (content : option jsstring) (deltas : list jsstring) :
  foldl accumulate content deltas =
  match concat (filter (fun s => s <> []) deltas) with
  | [] => content
  | t => Some (orElse content [] ++ t)
  end.
Proof.
  revert content. induction deltas as [|d deltas IH]; intros content; [done|].
  simpl. rewrite IH. destruct (decide (d = [])) as [->|Hd].
  - by rewrite filter_cons_False by (by intros ?).
  - rewrite filter_cons_True by done. simpl.
    assert (Hacc : accumulate content d = Some (orElse content [] ++ d))
      by (by destruct d).
    rewrite Hacc.
    assert (Hne : orElse content [] ++ d <> []) by (by destruct (orElse content []), d).
    rewrite (orElse_nonempty _ Hne).
    destruct (concat (filter (fun s => s <> []) deltas)) as [|c t] eqn:Hrest.
    + rewrite app_nil_r. by destruct d.
    + rewrite <- app_assoc. by destruct d.
Qed.

Lemma consumeStream_cons cfg convId fin chunk rest p st :
  consumeStream cfg convId p (chunk :: rest) fin st =
  match consumeChunk cfg convId p chunk st with
  | (Return p1, st1) => consumeStream cfg convId p1 rest fin st1
  | (Throw e, st1) => (Return (p, Throw e), st1)
  end.
Proof.
  simpl. unfold attempt, tryCatch, bind, ret.
  by destruct (consumeChunk cfg convId p chunk st) as [[p1|e] st1].
Qed.

Lemma consumeStream_frame cfg convId fin chunks p st :
  exists p' tried,
    fst (consumeStream cfg convId p chunks fin st) = Return (p', tried) /\
    sameHeader p p' /\
    sameStore st (snd (consumeStream cfg convId p chunks fin st)) /\
    extends st (snd (consumeStream cfg convId p chunks fin st)).
Proof.
  revert p st. induction chunks as [|chunk rest IH]; intros p st.
  - destruct fin; simpl; do 2 eexists; (split; [reflexivity|]);
      (split; [done|]); (split; [done|]); exists []; simpl;
      by rewrite app_nil_r.
  - rewrite consumeStream_cons.
    destruct (consumeChunk_frame cfg convId p chunk st) as [Hstore Hext].
    destruct (consumeChunk cfg convId p chunk st) as [[p1|e] st1] eqn:Hstep;
      simpl in *.
    + destruct (IH p1 st1) as (p' & tried & Hrun & Hhead & Hstore' & Hext').
      exists p', tried. split; [done|]. split; [|split].
      * eapply sameHeader_trans; [|done].
        eapply (consumeChunk_header cfg convId p chunk st). by rewrite Hstep.
      * by eapply sameStore_trans.
      * by eapply extends_trans.
    + do 2 eexists. split; [reflexivity|]. done.
Qed.

(** A stream of clean chunks is consumed to its end, and the pending
    content is then the accumulated text. *)
Lemma consumeStream_clean cfg convId fin chunks p st :
  Forall cleanChunk chunks ->
  exists p',
    fst (consumeStream cfg convId p chunks fin st) = Return (p', endOf fin) /\
    Node.content p' = foldl accumulate (Node.content p) (map deltaContent chunks).
Proof.
  intros Hclean. revert p st.
  induction Hclean as [|chunk rest Hchunk _ IH]; intros p st.
  - destruct fin; simpl; eauto.
  - rewrite consumeStream_cons.
    destruct (consumeChunk_clean cfg convId p chunk st Hchunk)
      as (p1 & Hret & _ & Hcontent & _).
    destruct (consumeChunk cfg convId p chunk st) as [[p1'|e] st1] eqn:Hstep;
      simpl in *; [|done].
    injection Hret as ->.
    destruct (IH p1 st1) as (p' & Hrun & Hcontent').
    exists p'. split; [done|]. by rewrite Hcontent', Hcontent.
Qed.

Lemma tryBlock_frame cfg convId net p st :
  exists p' tried,
    fst (tryBlock cfg convId p net st) = Return (p', tried) /\
    sameHeader p p' /\
    sameStore st (snd (tryBlock cfg convId p net st)) /\
    extends st (snd (tryBlock cfg convId p net st)).
Proof.
  destruct net as [e| |status errorBody chunks fin]; simpl.
  - do 2 eexists. split; [reflexivity|]. done.
  - do 2 eexists. split; [reflexivity|]. split; [done|]. split; [done|].
    exists []. simpl. by rewrite app_nil_r.
  - case_decide.
    + destruct errorBody; do 2 eexists; (split; [reflexivity|]); done.
    + apply consumeStream_frame.
Qed.

Lemma generateMessage_busy convId leafNodeId net st :
  isGeneratingIn st convId = true ->
  generateMessage convId leafNodeId net st = (Return tt, st).
Proof. intros Hbusy. unfold generateMessage. run. by rewrite Hbusy. Qed.

Lemma generateMessage_no_conversation convId leafNodeId net st :
  isGeneratingIn st convId = false ->
  conversations (storage st) !! convId = None ->
  generateMessage convId leafNodeId net st =
  (Throw (Error (Js.lit "Current conversation is not found")), st).
Proof.
  intros Hidle Hconv. unfold generateMessage, StorageUtils.getConfig,
    StorageUtils.getOneConversation. run. by rewrite Hidle, Hconv.
Qed.

Lemma generateMessage_started convId leafNodeId net st :
  isGeneratingIn st convId = false ->
  is_Some (conversations (storage st) !! convId) ->
  generateMessage convId leafNodeId net st =
  match tryBlock (config (storage st)) convId
          (newPending convId leafNodeId (clock st (ticks st) + 1)) net
          (started convId leafNodeId st) with
  | (Return (p', tried), st2) =>
      afterTry convId leafNodeId (clock st (ticks st) + 1) p' tried st2
  | (Throw e, st2) => (Throw e, st2)
  end.
Proof.
  intros Hidle [conv Hconv]. unfold generateMessage, StorageUtils.getConfig,
    StorageUtils.getOneConversation, StorageUtils.getMessages, afterTry.
  run. rewrite Hidle, Hconv. simpl.
  unfold started.
  destruct (tryBlock _ _ _ _ _) as [[[p' tried]|e] st2]; done.
Qed.

Lemma persistPending_nothing convId leafNodeId pendingId p st :
  Node.content p = None ->
  persistPending convId leafNodeId pendingId p st =
  (Return tt,
   with_effect (OnChunk (Some pendingId))
     (with_pendingMessages (delete convId) st)).
Proof. intros Hnone. unfold persistPending. rewrite Hnone. by run. Qed.

Lemma persistPending_found convId leafNodeId pendingId p content st :
  Node.content p = Some content ->
  is_Some (StorageUtils.findNode (storage st) (Node.convId p) leafNodeId) ->
  persistPending convId leafNodeId pendingId p st =
  (Return tt,
   with_effect (OnChunk (Some pendingId))
     (with_pendingMessages (delete convId)
        (with_storage
           (fun s => StorageUtils.appended s (clock st (ticks st))
                       (persistedNode p content) leafNodeId)
           (with_tick st)))).
Proof.
  intros Hsome [parentNode Hparent].
  unfold persistPending, StorageUtils.appendMsg. rewrite Hsome. run.
  by rewrite Hparent.
Qed.

Lemma persistPending_dangling convId leafNodeId pendingId p content st :
  Node.content p = Some content ->
  StorageUtils.findNode (storage st) (Node.convId p) leafNodeId = None ->
  persistPending convId leafNodeId pendingId p st =
  (Throw StorageUtils.NotFoundError, st).
Proof.
  intros Hsome Hparent.
  unfold persistPending, StorageUtils.appendMsg. rewrite Hsome. run.
  by rewrite Hparent.
Qed.

(** A cancellation is swallowed by the [catch] block: what follows the
    [try] statement runs as after a stream that ended. *)
Lemma afterTry_ended convId leafNodeId pendingId p tried st :
  tried = Return tt \/ tried = Throw AbortError ->
  afterTry convId leafNodeId pendingId p tried st =
  persistPending convId leafNodeId pendingId p
    (match tried with
     | Return _ => st
     | Throw _ => with_pendingMessages (delete convId) st
     end).
Proof. intros [-> | ->]; unfold afterTry, catchBlock; by run. Qed.

Lemma afterTry_failed convId leafNodeId pendingId p err st :
  err_name err <> Js.lit "AbortError" ->
  afterTry convId leafNodeId pendingId p (Throw err) st =
  (Throw err,
   with_effect (Alert (err_message err))
     (with_pendingMessages (delete convId) st)).
Proof.
  intros Hname. unfold afterTry, catchBlock. run.
  by destruct (decide (err_name err = Js.lit "AbortError")).
Qed.

Lemma accumulated_text (chunks : list Chunk) :
  foldl accumulate None (map deltaContent chunks) =
  match streamText chunks with
  | [] => None
  | t => Some t
  end.
Proof. unfold streamText. rewrite accumulate_all. by destruct (concat _). Qed.

Lemma isGeneratingIn_cleared convId st :
  isGeneratingIn (with_pendingMessages (delete convId) st) convId = false.
Proof.
  unfold isGeneratingIn. simpl. apply bool_decide_eq_false.
  rewrite lookup_delete_eq. by intros [? ?].
Qed.

(** A generation whose stream of clean chunks ends, or is stopped by the
    user, goes on to lines 275-279 with the text accumulated so far. *)
Lemma generateMessage_ended convId leafNodeId errorBody chunks fin st :
  isGeneratingIn st convId = false ->
  is_Some (conversations (storage st) !! convId) ->
  Forall cleanChunk chunks ->
  fin = StreamDone \/ fin = UserStops ->
  let r := generateMessage convId leafNodeId
             (Responded 200 errorBody chunks fin) st in
  let pendingId := (clock st (ticks st) + 1)%Z in
  (streamText chunks = [] ->
     fst r = Return tt /\ storage (snd r) = storage st /\
     isGeneratingIn (snd r) convId = false) /\
  (streamText chunks <> [] ->
     is_Some (StorageUtils.findNode (storage st) convId leafNodeId) ->
     fst r = Return tt /\ isGeneratingIn (snd r) convId = false /\
     exists node,
       storage (snd r) =
         StorageUtils.appended (storage st) (clock st (S (ticks st))) node
                               leafNodeId /\
       assistantReply node convId leafNodeId pendingId (streamText chunks)) /\
  (streamText chunks <> [] ->
     StorageUtils.findNode (storage st) convId leafNodeId = None ->
     fst r = Throw StorageUtils.NotFoundError /\
     storage (snd r) = storage st).
Proof.
  intros Hidle Hconv Hclean Hfin r pendingId. subst r.
  rewrite generateMessage_started by done.
  fold pendingId. unfold tryBlock.
  destruct (decide (200%Z <> 200%Z)) as [?|_]; [done|].
  set (p0 := newPending convId leafNodeId pendingId).
  set (st1 := started convId leafNodeId st).
  destruct (consumeStream_clean (config (storage st)) convId fin chunks p0 st1 Hclean)
    as (p' & Hrun & Hcontent).
  destruct (consumeStream_frame (config (storage st)) convId fin chunks p0 st1)
    as (p'' & tried & Hrun' & Hhead & Hstore & _).
  rewrite Hrun in Hrun'. injection Hrun' as <- <-.
  destruct (consumeStream _ _ _ _ _ _) as [c st2]. simpl in Hrun, Hstore.
  subst c. rewrite accumulated_text in Hcontent. simpl in Hcontent.
  destruct Hhead as (Hid & HconvId & Htype & Hrole & Hparent & Hchildren).
  destruct Hstore as (Hstorage & Hclock & Hticks).
  rewrite afterTry_ended by (destruct Hfin as [-> | ->]; eauto).
  set (st3 := match endOf fin with
              | Return _ => st2
              | Throw _ => with_pendingMessages (delete convId) st2
              end).
  assert (Hst3 : storage st3 = storage st /\ clock st3 = clock st /\
                 ticks st3 = S (ticks st)).
  { subst st3. destruct (endOf fin); simpl; by rewrite Hstorage, Hclock, Hticks. }
  destruct Hst3 as (Hstorage3 & Hclock3 & Hticks3).
  split; [|split].
  - intros Htext. rewrite Htext in Hcontent.
    rewrite persistPending_nothing by done. simpl.
    split; [done|]. split; [done|]. apply isGeneratingIn_cleared.
  - intros Htext Hleaf.
    destruct (streamText chunks) as [|c t] eqn:Hst; [done|].
    erewrite persistPending_found;
      [|exact Hcontent|by rewrite Hstorage3, HconvId].
    simpl. split; [done|]. split; [apply isGeneratingIn_cleared|].
    eexists. split; [by rewrite Hstorage3, Hclock3, Hticks3|].
    unfold assistantReply, persistedNode. simpl.
    by rewrite Hid, HconvId, Htype, Hrole, Hparent, Hchildren.
  - intros Htext Hleaf.
    destruct (streamText chunks) as [|c t] eqn:Hst; [done|].
    erewrite persistPending_dangling;
      [|exact Hcontent|by rewrite Hstorage3, HconvId].
    simpl. split; [done|]. subst st3. by destruct (endOf fin).
Qed.

Lemma resolveTarget_run convId leafNodeId content st :
  resolveTarget convId leafNodeId content st =
  match continues convId leafNodeId with
  | Some target => (Return target, st)
  | None =>
      (Return (Js.lit "conv-" ++ StorageUtils.decimal (clock st (ticks st)),
               clock st (ticks st)),
       conversationCreated content st)
  end.
Proof.
  unfold resolveTarget, continues, StorageUtils.createConversation.
  destruct convId as [c|], leafNodeId as [l|]; try case_decide; by run.
Qed.

Lemma sendRewritten_run convId leafNodeId content extra net st :
  sendRewritten convId leafNodeId content extra net st =
  match resolveTarget convId leafNodeId content st with
  | (Return (c, l), st0) =>
      tryCatch (generateMessage c (clock st0 (ticks st0)) net;;; ret true)
               (fun _ => ret false)
               (userAppended c l content extra st0)
  | (Throw e, st0) => (Throw e, st0)
  end.
Proof.
  unfold sendRewritten. unfold bind at 1.
  destruct (resolveTarget convId leafNodeId content st) as [[[c l]|e] st0];
    [|done].
  unfold userAppended, userMessage, StorageUtils.appendMsg. run.
  by destruct (StorageUtils.findNode (storage st0) c l).
Qed.

(** Whatever the network does, [generateMessage] only adds to the trace,
    leaves the clock alone, and changes the store by at most the one reply
    it persists. *)
Lemma generateMessage_effect convId leafNodeId net st :
  let st' := snd (generateMessage convId leafNodeId net st) in
  extends st st' /\ clock st' = clock st /\
  (storage st' = storage st \/ replyPersisted st st' convId leafNodeId).
Proof.
  intros st'. subst st'.
  destruct (isGeneratingIn st convId) eqn:Hidle.
  { rewrite generateMessage_busy by done. simpl. eauto. }
  destruct (conversations (storage st) !! convId) as [conv|] eqn:Hconv.
  2: { rewrite generateMessage_no_conversation by done. simpl. eauto. }
  rewrite generateMessage_started by eauto.
  set (pendingId := (clock st (ticks st) + 1)%Z).
  set (p0 := newPending convId leafNodeId pendingId).
  set (st1 := started convId leafNodeId st).
  destruct (tryBlock_frame (config (storage st)) convId net p0 st1)
    as (p' & tried & Hrun & Hhead & Hstore & Hext).
  destruct (tryBlock _ _ _ _ _) as [c st2]. simpl in Hrun, Hstore, Hext.
  subst c.
  destruct Hhead as (Hid & HconvId & Htype & Hrole & Hparent & Hchildren).
  destruct Hstore as (Hstorage & Hclock & Hticks).
  assert (Hext1 : extends st st2).
  { eapply extends_trans; [|exact Hext]. exists []. simpl. by rewrite app_nil_r. }
  assert (Hpersist : forall st3,
    storage st3 = storage st -> clock st3 = clock st ->
    ticks st3 = S (ticks st) -> extends st st3 ->
    let st' := snd (persistPending convId leafNodeId pendingId p' st3) in
    extends st st' /\ clock st' = clock st /\
    (storage st' = storage st \/ replyPersisted st st' convId leafNodeId)).
  { intros st3 Hs3 Hc3 Ht3 He3.
    destruct (Node.content p') as [content|] eqn:Hcontent.
    - destruct (StorageUtils.findNode (storage st3) (Node.convId p') leafNodeId)
        as [parentNode|] eqn:Hleaf.
      + erewrite persistPending_found by eauto. simpl.
        split; [|split; [done|right]].
        * destruct He3 as [added Hadded]. exists (added ++ [OnChunk (Some pendingId)]).
          simpl. by rewrite Hadded, app_assoc.
        * exists (persistedNode p' content). simpl. rewrite Hs3, Hc3, Ht3.
          split; [done|]. rewrite Hid, HconvId, Hrole.
          split; [done|]. split; [done|]. split; [done|].
          rewrite <- Hs3. rewrite HconvId in Hleaf. simpl in Hleaf. eauto.
      + erewrite persistPending_dangling by eauto. simpl. eauto.
    - rewrite persistPending_nothing by done. simpl.
      split; [|eauto].
      destruct He3 as [added Hadded]. exists (added ++ [OnChunk (Some pendingId)]).
      simpl. by rewrite Hadded, app_assoc. }
  destruct tried as [[]|err].
  - rewrite afterTry_ended by eauto. simpl.
    apply Hpersist; simpl; by rewrite ?Hstorage, ?Hclock, ?Hticks.
  - destruct (decide (err_name err = Js.lit "AbortError")) as [Hname|Hname].
    + unfold afterTry, catchBlock. run.
      destruct (decide (err_name err = Js.lit "AbortError")); [|done].
      apply Hpersist; simpl; by rewrite ?Hstorage, ?Hclock, ?Hticks.
    + rewrite afterTry_failed by done. simpl.
      split; [|by rewrite Hstorage, Hclock; eauto].
      destruct Hext1 as [added Hadded]. exists (added ++ [Alert (err_message err)]).
      simpl. by rewrite Hadded, app_assoc.
Qed.

Lemma ragDocsString_failure rag st :
  ragFailure rag -> exists e, ragDocsString rag st = (Throw e, st).
Proof. destruct rag; simpl; intros []; eauto. Qed.

Lemma rewriteContent_failure content rag st :
  isCommand content -> ragFailure rag ->
  rewriteContent content rag st =
  (Return content, with_effect (Alert ragAlert) st).
Proof.
  intros Hcmd Hfail.
  destruct (ragDocsString_failure rag st Hfail) as [e He].
  unfold rewriteContent, fetchRAGCodebase, fetchRAGProducts,
    fetchRAGDocumentation, fetchRAGMedRecords, ragCatch.
  unfold isCommand, commandPrefixes in Hcmd.
  rewrite !Exists_cons, Exists_nil in Hcmd.
  destruct (Js.startsWith content (Js.lit "/codebase")) eqn:H1;
    [by run; rewrite He|].
  destruct (Js.startsWith content (Js.lit "/products")) eqn:H2;
    [by run; rewrite He|].
  destruct (Js.startsWith content (Js.lit "/documentation")) eqn:H3;
    [by run; rewrite He|].
  destruct (Js.startsWith content (Js.lit "/medical_records")) eqn:H4;
    [by run; rewrite He|].
  destruct Hcmd as [?|[?|[?|[?|[]]]]]; congruence.
Qed.

Lemma rewriteContent_frame content rag st :
  exists content' st',
    rewriteContent content rag st = (Return content', st') /\
    (st' = st \/ st' = with_effect (Alert ragAlert) st).
Proof.
  assert (Hdocs : (exists e, ragDocsString rag st = (Throw e, st)) \/
                  (exists docs, ragDocsString rag st = (Return docs, st))).
  { destruct rag; simpl; eauto. }
  unfold rewriteContent, fetchRAGCodebase, fetchRAGProducts,
    fetchRAGDocumentation, fetchRAGMedRecords, ragCatch.
  repeat (match goal with
          | |- context [if ?b then _ else _] => destruct b
          end);
    try (by run; eauto);
    run; destruct Hdocs as [[e ->]|[docs ->]]; simpl; eauto.
Qed.

Lemma sendMessage_rejected convId leafNodeId content extra rag net st :
  isGeneratingIn st (default [] convId) = true \/ Js.trim content = [] ->
  sendMessage convId leafNodeId content extra rag net st = (Return false, st).
Proof.
  intros Hguard. unfold sendMessage. run.
  destruct Hguard as [-> | ->]; [done|].
  by rewrite orb_true_r.
Qed.

Lemma sendMessage_accepted convId leafNodeId content extra rag net st :
  isGeneratingIn st (default [] convId) = false -> Js.trim content <> [] ->
  sendMessage convId leafNodeId content extra rag net st =
  (let* content' := rewriteContent content rag in
   sendRewritten convId leafNodeId content' extra net) st.
Proof.
  intros Hidle Hcontent. unfold sendMessage.
  unfold isGenerating, gets. unfold bind at 1. rewrite Hidle. simpl.
  rewrite bool_decide_eq_false_2; [done|].
  by intros ?%nil_length_inv.
Qed.

Lemma send_generate c l net st :
  tryCatch (generateMessage c l net;;; ret true) (fun _ => ret false) st =
  (Return match fst (generateMessage c l net st) with
          | Return _ => true
          | Throw _ => false
          end,
   snd (generateMessage c l net st)).
Proof. run. by destruct (generateMessage c l net st) as [[[]|e] st']. Qed.

Lemma findNode_is_Some (s : Storage) convId nodeId (m : Message) :
  m ∈ messages s -> Node.convId m = convId -> Node.id m = nodeId ->
  is_Some (StorageUtils.findNode s convId nodeId).
Proof.
  intros Hin HconvId Hid. unfold StorageUtils.findNode, StorageUtils.messagesOf.
  apply head_is_Some. intros Hnil.
  assert (Hm : m ∈ filter (fun m => Node.id m = nodeId)
                     (filter (fun m => Node.convId m = convId) (messages s))).
  { apply list_elem_of_filter. split; [done|].
    apply list_elem_of_filter. by split. }
  rewrite Hnil in Hm. by apply elem_of_nil in Hm.
Qed.

Lemma appended_new_node s now (m : Message) parentNodeId :
  Node.with_parent m parentNodeId ∈
    messages (StorageUtils.appended s now m parentNodeId).
Proof. simpl. apply elem_of_app. right. by apply list_elem_of_singleton. Qed.

Lemma appended_findNode s now (m : Message) parentNodeId :
  is_Some (StorageUtils.findNode (StorageUtils.appended s now m parentNodeId)
             (Node.convId m) (Node.id m)).
Proof. eapply findNode_is_Some; [apply appended_new_node|done..]. Qed.

Lemma appended_conversation s now (m : Message) parentNodeId convId :
  is_Some (conversations s !! convId) ->
  is_Some (conversations (StorageUtils.appended s now m parentNodeId) !! convId).
Proof.
  intros [conv Hconv]. simpl. rewrite lookup_alter. case_decide; subst;
    rewrite Hconv; simpl; eauto.
Qed.

Lemma appended_holds s now (m : Message) parentNodeId content :
  holdsUserMessage s content ->
  holdsUserMessage (StorageUtils.appended s now m parentNodeId) content.
Proof.
  intros (u & Hin & Hrole & Hcontent).
  eexists. split.
  - simpl. apply elem_of_app. left. apply list_elem_of_fmap.
    exists u. split; [reflexivity|done].
  - by case_decide.
Qed.

Lemma conversationCreated_target content st :
  let convId := Js.lit "conv-" ++ StorageUtils.decimal (clock st (ticks st)) in
  is_Some (conversations (storage (conversationCreated content st)) !! convId) /\
  is_Some (StorageUtils.findNode (storage (conversationCreated content st))
             convId (clock st (ticks st))).
Proof.
  intros convId. split.
  - simpl. rewrite lookup_insert_eq. eauto.
  - apply (findNode_is_Some _ _ _
             (Node.mk (clock st (ticks st)) convId root (clock st (ticks st))
                      system [] None None (-1)%Z [])); [|done..].
    simpl. apply elem_of_app. right. by apply list_elem_of_singleton.
Qed.

(** Once the target is there, the state in which [generateMessage] is
    called has the conversation, the user node, and the user's text. *)
Lemma userAppended_ready c l content extra st :
  is_Some (conversations (storage st) !! c) ->
  is_Some (StorageUtils.findNode (storage st) c l) ->
  let st1 := userAppended c l content extra st in
  is_Some (conversations (storage st1) !! c) /\
  is_Some (StorageUtils.findNode (storage st1) c (clock st (ticks st))) /\
  holdsUserMessage (storage st1) content.
Proof.
  intros Hconv [parentNode Hleaf] st1. subst st1. unfold userAppended.
  rewrite Hleaf. simpl storage.
  split; [by apply appended_conversation|]. split.
  - apply (appended_findNode _ _ (userMessage c (clock st (ticks st)) content extra l)).
  - eexists. split; [apply appended_new_node|done].
Qed.

Lemma generateMessage_holds convId leafNodeId net st content :
  holdsUserMessage (storage st) content ->
  holdsUserMessage (storage (snd (generateMessage convId leafNodeId net st)))
                   content.
Proof.
  intros Hholds.
  destruct (generateMessage_effect convId leafNodeId net st)
    as (_ & _ & [-> | (node & -> & _)]); [done|].
  by apply appended_holds.
Qed.

Lemma userAppended_effects c l content extra st :
  exists before,
    effects (userAppended c l content extra st) =
    effects st ++ before ++ [OnChunk (Some (clock st (ticks st)))].
Proof.
  unfold userAppended.
  destruct (StorageUtils.findNode (storage st) c l); simpl.
  - by exists [].
  - exists [UnhandledRejection StorageUtils.NotFoundError].
    by rewrite <- app_assoc.
Qed.

(** Whatever happens afterwards, [sendMessage] past its guard and the
    rewrite gets to [onChunk(currMsgId)] in line 346. *)
Lemma sendRewritten_trace convId leafNodeId content extra net st :
  exists before currMsgId after,
    effects (snd (sendRewritten convId leafNodeId content extra net st)) =
    effects st ++ before ++ OnChunk (Some currMsgId) :: after.
Proof.
  rewrite sendRewritten_run, resolveTarget_run.
  destruct (continues convId leafNodeId) as [[c l]|];
    rewrite send_generate; cbn [snd fst];
    match goal with
    | |- context [generateMessage ?c ?l net ?s] =>
        destruct (generateMessage_effect c l net s) as ([after ->] & _)
    end;
    match goal with
    | |- context [userAppended ?c ?l content extra ?s] =>
        destruct (userAppended_effects c l content extra s) as [before ->]
    end.
  - exists before, (clock st (ticks st)), after. by rewrite <- !app_assoc.
  - eexists (Navigate _ :: before), _, after. simpl.
    rewrite <- !app_assoc. reflexivity.
Qed.

Lemma trimStart_nil s : Js.trimStart s = [] -> Forall (fun c => Js.isWhiteSpace c = true) s.
Proof.
  induction s as [|c s IH]; simpl; [constructor|].
  destruct (Js.isWhiteSpace c) eqn:Hc; [|done].
  intros Hs. constructor; [done|]. by apply IH.
Qed.

(** A string that trims to nothing consists of white space only. *)
Lemma trim_nil s : Js.trim s = [] -> Forall (fun c => Js.isWhiteSpace c = true) s.
Proof.
  unfold Js.trim, Js.trimEnd. intros Hnil.
  assert (Hrev : Js.trimStart (reverse (Js.trimStart s)) = []).
  { apply (f_equal reverse) in Hnil. by rewrite reverse_involutive in Hnil. }
  apply trimStart_nil in Hrev.
  assert (Hstart : Js.trimStart s = []).
  { destruct (Js.trimStart s) as [|c t] eqn:Hts; [done|].
    assert (Hc : Js.isWhiteSpace c = true).
    { rewrite Forall_forall in Hrev. apply Hrev.
      apply elem_of_reverse. by left. }
    clear Hrev Hnil. exfalso. revert Hts.
    induction s as [|d s IH]; simpl; [done|].
    destruct (Js.isWhiteSpace d) eqn:Hd; [done|].
    intros [= -> ->]. congruence. }
  by apply trimStart_nil.
Qed.

Lemma startsWith_head s p x :
  Js.startsWith s p = true -> head p = Some x -> head s = Some x.
Proof.
  destruct p as [|c p], s as [|d s]; simpl; try done.
  by intros [->%N.eqb_eq _]%andb_true_iff.
Qed.

(** A command is never blank: it begins with a slash. *)
Lemma isCommand_not_blank content : isCommand content -> Js.trim content <> [].
Proof.
  intros Hcmd Hblank. apply trim_nil in Hblank.
  assert (Hslash : head content = Some 47%N).
  { unfold isCommand, commandPrefixes in Hcmd.
    rewrite !Exists_cons, Exists_nil in Hcmd.
    destruct Hcmd as [H|[H|[H|[H|[]]]]];
      by eapply startsWith_head; [exact H|]. }
  destruct content as [|c rest]; [done|]. injection Hslash as ->.
  by apply Forall_cons in Hblank as [? _].
Qed.

Lemma tryBlock_stopped_early cfg convId p st :
  tryBlock cfg convId p StoppedBeforeResponse st =
  (Return (p, Throw AbortError), snd (stopGenerating convId st)).
Proof. done. Qed.

Lemma generateMessage_stopped_early convId leafNodeId st :
  isGeneratingIn st convId = false ->
  is_Some (conversations (storage st) !! convId) ->
  let r := generateMessage convId leafNodeId StoppedBeforeResponse st in
  fst r = Return tt /\ storage (snd r) = storage st /\
  isGeneratingIn (snd r) convId = false.
Proof.
  intros Hidle Hconv r. subst r.
  rewrite generateMessage_started by done.
  rewrite tryBlock_stopped_early.
  rewrite afterTry_ended by eauto.
  rewrite persistPending_nothing by done. simpl.
  split; [done|]. split; [done|]. apply isGeneratingIn_cleared.
Qed.

(** A generation the user stops returns normally, provided the node it
    hangs its partial reply under is in the store. *)
Lemma generateMessage_cancelled convId leafNodeId net st :
  cancelled net ->
  is_Some (conversations (storage st) !! convId) ->
  is_Some (StorageUtils.findNode (storage st) convId leafNodeId) ->
  fst (generateMessage convId leafNodeId net st) = Return tt.
Proof.
  intros Hnet Hconv Hleaf.
  destruct (isGeneratingIn st convId) eqn:Hidle;
    [by rewrite generateMessage_busy|].
  destruct Hnet as [-> | (errorBody & chunks & -> & Hclean)].
  - by apply generateMessage_stopped_early.
  - destruct (generateMessage_ended convId leafNodeId errorBody chunks UserStops st)
      as (Hnone & Hsome & _); eauto.
    destruct (decide (streamText chunks = [])) as [Htext|Htext].
    + by apply Hnone.
    + by apply Hsome.
Qed.

Lemma sendRewritten_ready convId leafNodeId content extra st :
  targetReady st convId leafNodeId ->
  exists c l st0,
    resolveTarget convId leafNodeId content st = (Return (c, l), st0) /\
    is_Some (conversations (storage (userAppended c l content extra st0)) !! c) /\
    is_Some (StorageUtils.findNode (storage (userAppended c l content extra st0))
               c (clock st0 (ticks st0))) /\
    holdsUserMessage (storage (userAppended c l content extra st0)) content.
Proof.
  unfold targetReady. rewrite resolveTarget_run.
  destruct (continues convId leafNodeId) as [[c l]|].
  - intros [Hconv Hleaf]. exists c, l, st. split; [done|].
    by apply userAppended_ready.
  - intros _. do 3 eexists. split; [done|].
    destruct (conversationCreated_target content st) as [Hconv Hleaf].
    by apply userAppended_ready.
Qed.

Lemma sendRewritten_holds convId leafNodeId content extra net st :
  targetReady st convId leafNodeId ->
  holdsUserMessage
    (storage (snd (sendRewritten convId leafNodeId content extra net st)))
    content.
Proof.
  intros Hready.
  destruct (sendRewritten_ready convId leafNodeId content extra st Hready)
    as (c & l & st0 & Hresolve & _ & _ & Hholds).
  rewrite sendRewritten_run, Hresolve, send_generate. cbn [snd].
  by apply generateMessage_holds.
Qed.

Lemma sendRewritten_cancelled convId leafNodeId content extra net st :
  targetReady st convId leafNodeId -> cancelled net ->
  fst (sendRewritten convId leafNodeId content extra net st) = Return true.
Proof.
  intros Hready Hnet.
  destruct (sendRewritten_ready convId leafNodeId content extra st Hready)
    as (c & l & st0 & Hresolve & Hconv & Hleaf & _).
  rewrite sendRewritten_run, Hresolve, send_generate. cbn [fst].
  by rewrite generateMessage_cancelled.
Qed.

(** C5: [sendMessage] returns [false] and leaves the state as it is (no
    conversation created, no node appended) when a generation is pending
    for the target conversation or the content is empty after trimming;
    otherwise it goes on with the rewrite and the send, at least as far as
    announcing the new user node through [onChunk]. *)
Theorem sendMessage_guard convId leafNodeId content extra rag net st :
  (isGeneratingIn st (default [] convId) = true \/ Js.trim content = [] ->
     sendMessage convId leafNodeId content extra rag net st = (Return false, st)) /\
  (isGeneratingIn st (default [] convId) = false -> Js.trim content <> [] ->
     sendMessage convId leafNodeId content extra rag net st =
       (let* content' := rewriteContent content rag in
        sendRewritten convId leafNodeId content' extra net) st /\
     exists before currMsgId after,
       effects (snd (sendMessage convId leafNodeId content extra rag net st)) =
       effects st ++ before ++ OnChunk (Some currMsgId) :: after).
Proof.
  split; [apply sendMessage_rejected|].
  intros Hidle Hcontent. split; [by apply sendMessage_accepted|].
  rewrite sendMessage_accepted by done. unfold bind.
  destruct (rewriteContent_frame content rag st) as (content' & st' & -> & Hst').
  destruct (sendRewritten_trace convId leafNodeId content' extra net st')
    as (before & currMsgId & after & ->).
  destruct Hst' as [-> | ->].
  - by exists before, currMsgId, after.
  - exists (Alert ragAlert :: before), currMsgId, after. simpl.
    by rewrite <- !app_assoc.
Qed.

Lemma sendMessage_guard_witness :
  sendMessage (Some sampleConv) (Some 4%Z) (Js.lit "  ") None RagUnreachable
              StoppedBeforeResponse sampleState = (Return false, sampleState).
Proof.
  apply (proj1 (sendMessage_guard (Some sampleConv) (Some 4%Z) (Js.lit "  ")
                  None RagUnreachable StoppedBeforeResponse sampleState)).
  right. vm_compute. reflexivity.
Defined.

(** C6: when the content begins with a command prefix and the rewriter
    fails, [sendMessage] alerts the user and carries on with the original
    content: conversation creation, append and generation run as for an
    unrewritten message, and the user node holds the text as typed. *)
Theorem sendMessage_rewrite_failure convId leafNodeId content extra rag net st :
  isGeneratingIn st (default [] convId) = false ->
  isCommand content -> ragFailure rag ->
  let r := sendMessage convId leafNodeId content extra rag net st in
  r = sendRewritten convId leafNodeId content extra net
        (with_effect (Alert ragAlert) st) /\
  (exists before currMsgId after,
     effects (snd r) =
     effects st ++ Alert ragAlert :: before ++ OnChunk (Some currMsgId) :: after) /\
  (targetReady st convId leafNodeId ->
   holdsUserMessage (storage (snd r)) content).
Proof.
  intros Hidle Hcmd Hfail r. subst r.
  assert (Hrun : sendMessage convId leafNodeId content extra rag net st =
                 sendRewritten convId leafNodeId content extra net
                   (with_effect (Alert ragAlert) st)).
  { rewrite sendMessage_accepted by (by try apply isCommand_not_blank).
    unfold bind. by rewrite rewriteContent_failure. }
  rewrite Hrun. split; [done|]. split.
  - destruct (sendRewritten_trace convId leafNodeId content extra net
                (with_effect (Alert ragAlert) st))
      as (before & currMsgId & after & ->).
    exists before, currMsgId, after. simpl. by rewrite <- !app_assoc.
  - intros Hready. by apply sendRewritten_holds.
Qed.

Lemma sendMessage_rewrite_failure_witness :
  exists before currMsgId after,
    effects (snd (sendMessage None None (Js.lit "/products shoes") None RagNotOk
                    (Responded 200 (Return None) [contentChunk "ok"] StreamDone)
                    sampleState)) =
    Alert ragAlert :: before ++ OnChunk (Some currMsgId) :: after.
Proof.
  refine (proj1 (proj2 (sendMessage_rewrite_failure None None
    (Js.lit "/products shoes") None RagNotOk
    (Responded 200 (Return None) [contentChunk "ok"] StreamDone)
    sampleState _ _ _))).
  - vm_compute. reflexivity.
  - unfold isCommand, commandPrefixes. right. left. vm_compute. reflexivity.
  - exact I.
Defined.

(** C8, as the code has it: when the generation started by a
    [sendMessage] that passes its guard is ended by the user's stop, and
    the conversation and the leaf the send is given are in the store (or
    the send creates its conversation), [generateMessage] swallows the
    [AbortError] and returns, and [sendMessage] returns [true]. *)
Theorem sendMessage_cancelled convId leafNodeId content extra rag net st :
  isGeneratingIn st (default [] convId) = false -> Js.trim content <> [] ->
  targetReady st convId leafNodeId ->
  cancelled net ->
  fst (sendMessage convId leafNodeId content extra rag net st) = Return true.
Proof.
  intros Hidle Hcontent Hready Hnet.
  rewrite sendMessage_accepted by done. unfold bind.
  destruct (rewriteContent_frame content rag st) as (content' & st' & -> & Hst').
  apply sendRewritten_cancelled; [|done].
  by destruct Hst' as [-> | ->].
Qed.

Lemma sendMessage_cancelled_witness :
  fst (sendMessage (Some sampleConv) (Some 4%Z) (Js.lit "hello") None RagUnreachable
         (Responded 200 (Return None) [contentChunk "Hel"] UserStops)
         sampleState) = Return true.
Proof.
  apply sendMessage_cancelled.
  - vm_compute. reflexivity.
  - vm_compute. discriminate.
  - split; vm_compute; eauto.
  - right. exists (Return None), [contentChunk "Hel"]. split; [reflexivity|].
    repeat constructor; vm_compute; discriminate.
Defined.

(** C8 as stated fails: when the leaf given to [sendMessage] is not in the
    store, the user message is not appended; a stop after the chunk "Hel"
    is swallowed, but the append of the partial reply, which stands
    outside the [try] statement of [generateMessage], rejects, and
    [sendMessage] returns [false]. *)
Lemma cancelled_send_under_missing_leaf :
  let net := Responded 200 (Return None) [contentChunk "Hel"] UserStops in
  let r := sendMessage (Some sampleConv) (Some 77%Z) (Js.lit "hello") None
             RagUnreachable net sampleState in
  cancelled net /\
  isGeneratingIn sampleState sampleConv = false /\
  StorageUtils.findNode (storage sampleState) sampleConv 77 = None /\
  fst r = Return false /\
  storage (snd r) = storage sampleState.
Proof.
  split.
  { right. exists (Return None), [contentChunk "Hel"]. split; [reflexivity|].
    repeat constructor; vm_compute; discriminate. }
  vm_compute. repeat split.
Qed.

(** C3: a stream of chunks that completes without error or cancellation
    persists one assistant node whose content is the left-to-right
    concatenation of the non-empty [delta.content] fields, as a child of
    the node the generation started from; a stream without any content
    persists nothing. *)
Theorem generateMessage_persists_text convId leafNodeId errorBody chunks st :
  isGeneratingIn st convId = false ->
  is_Some (conversations (storage st) !! convId) ->
  Forall cleanChunk chunks ->
  let r := generateMessage convId leafNodeId
             (Responded 200 errorBody chunks StreamDone) st in
  (streamText chunks = [] ->
     fst r = Return tt /\ storage (snd r) = storage st) /\
  (streamText chunks <> [] ->
     is_Some (StorageUtils.findNode (storage st) convId leafNodeId) ->
     fst r = Return tt /\
     exists node,
       storage (snd r) =
         StorageUtils.appended (storage st) (clock st (S (ticks st))) node
                               leafNodeId /\
       assistantReply node convId leafNodeId (clock st (ticks st) + 1)
                      (streamText chunks)).
Proof.
  intros Hidle Hconv Hclean r.
  destruct (generateMessage_ended convId leafNodeId errorBody chunks StreamDone st)
    as (Hnone & Hsome & _); eauto.
  split.
  - intros Htext. destruct (Hnone Htext) as (? & ? & _). done.
  - intros Htext Hleaf. destruct (Hsome Htext Hleaf) as (? & _ & ?). done.
Qed.

Lemma generateMessage_persists_text_witness :
  exists node,
    storage (snd (generateMessage sampleConv 4
                    (Responded 200 (Return None)
                       [contentChunk "Hel"; contentChunk "lo"] StreamDone)
                    sampleState)) =
      StorageUtils.appended (storage sampleState) 1001 node 4 /\
    Node.content node = Js.lit "Hello" /\ Node.role node = assistant.
Proof.
  destruct (generateMessage_persists_text sampleConv 4 (Return None)
              [contentChunk "Hel"; contentChunk "lo"] sampleState)
    as [_ Hsome].
  - vm_compute. reflexivity.
  - vm_compute. eauto.
  - repeat constructor; vm_compute; discriminate.
  - destruct Hsome as (_ & node & Hstore & Hreply).
    + vm_compute. discriminate.
    + vm_compute. eauto.
    + exists node. split; [exact Hstore|].
      destruct Hreply as (_ & _ & _ & Hrole & Hcontent & _).
      split; [exact Hcontent|exact Hrole].
Defined.

(** The scenario of the design document: "Hel" then "lo", then the end
    of the stream. *)
Example hello_is_persisted :
  let r := generateMessage sampleConv 4
             (Responded 200 (Return None)
                [contentChunk "Hel"; contentChunk "lo"] StreamDone)
             sampleState in
  fst r = Return tt /\
  last (messages (storage (snd r))) =
    Some (Node.mk 1001 sampleConv text 1001 assistant (Js.lit "Hello")
                  None None 4 []) /\
  effects (snd r) = [OnChunk None; OnChunk None; OnChunk (Some 1001%Z)].
Proof. vm_compute. repeat split. Qed.

(** A stop after text has arrived, for a generation whose triggering
    node is not in the store: the [AbortError] is swallowed, the append
    that follows the [try] statement rejects, and nothing is written. *)
Lemma generateMessage_stopped_dangling convId leafNodeId errorBody chunks st :
  isGeneratingIn st convId = false ->
  is_Some (conversations (storage st) !! convId) ->
  Forall cleanChunk chunks ->
  streamText chunks <> [] ->
  StorageUtils.findNode (storage st) convId leafNodeId = None ->
  let r := generateMessage convId leafNodeId
             (Responded 200 errorBody chunks UserStops) st in
  fst r = Throw StorageUtils.NotFoundError /\
  storage (snd r) = storage st /\
  isGeneratingIn (snd r) convId = false.
Proof.
  intros Hidle Hconv Hclean Htext Hleaf r. subst r.
  rewrite generateMessage_started by done.
  set (pendingId := (clock st (ticks st) + 1)%Z). unfold tryBlock.
  destruct (decide (200%Z <> 200%Z)) as [?|_]; [done|].
  set (p0 := newPending convId leafNodeId pendingId).
  set (st1 := started convId leafNodeId st).
  destruct (consumeStream_clean (config (storage st)) convId UserStops chunks
              p0 st1 Hclean) as (p' & Hrun & Hcontent).
  destruct (consumeStream_frame (config (storage st)) convId UserStops chunks
              p0 st1) as (p'' & tried & Hrun' & Hhead & Hstore & _).
  rewrite Hrun in Hrun'. injection Hrun' as <- <-.
  destruct (consumeStream _ _ _ _ _ _) as [c st2]. simpl in Hrun, Hstore.
  subst c. rewrite accumulated_text in Hcontent. simpl in Hcontent.
  destruct Hhead as (_ & HconvId & _).
  destruct Hstore as (Hstorage & _).
  rewrite afterTry_ended by eauto.
  destruct (streamText chunks) as [|c t] eqn:Hst; [done|].
  erewrite persistPending_dangling;
    [|exact Hcontent|by simpl; rewrite Hstorage, HconvId].
  simpl. split; [done|]. split; [done|]. apply isGeneratingIn_cleared.
Qed.

(** C1, as the code has it: a stop takes the entry of the conversation out
    of [pendingMessages], so that [isGenerating] answers [false] from the
    next render on, and the entry is still out when the run is over.  The
    run treats the stop as the end of the stream.  It persists no node if
    no non-empty content had arrived.  Otherwise it persists the partial
    reply with the content received so far under the triggering node,
    provided that node is in the store; when it is not, the append rejects
    with the error of the store and nothing is persisted. *)
Theorem generateMessage_stopped convId leafNodeId errorBody chunks st :
  isGeneratingIn st convId = false ->
  is_Some (conversations (storage st) !! convId) ->
  Forall cleanChunk chunks ->
  let early := generateMessage convId leafNodeId StoppedBeforeResponse st in
  let r := generateMessage convId leafNodeId
             (Responded 200 errorBody chunks UserStops) st in
  (forall st', pendingMessages (snd (stopGenerating convId st')) !! convId = None /\
               isGeneratingIn (snd (stopGenerating convId st')) convId = false) /\
  (fst early = Return tt /\ storage (snd early) = storage st /\
   isGeneratingIn (snd early) convId = false) /\
  (streamText chunks = [] ->
     fst r = Return tt /\ storage (snd r) = storage st /\
     isGeneratingIn (snd r) convId = false) /\
  (streamText chunks <> [] ->
     is_Some (StorageUtils.findNode (storage st) convId leafNodeId) ->
     fst r = Return tt /\ isGeneratingIn (snd r) convId = false /\
     exists node,
       storage (snd r) =
         StorageUtils.appended (storage st) (clock st (S (ticks st))) node
                               leafNodeId /\
       assistantReply node convId leafNodeId (clock st (ticks st) + 1)
                      (streamText chunks)) /\
  (streamText chunks <> [] ->
     StorageUtils.findNode (storage st) convId leafNodeId = None ->
     fst r = Throw StorageUtils.NotFoundError /\
     storage (snd r) = storage st /\
     isGeneratingIn (snd r) convId = false).
Proof.
  intros Hidle Hconv Hclean early r.
  destruct (generateMessage_ended convId leafNodeId errorBody chunks UserStops st)
    as (Hnone & Hsome & _); eauto.
  split.
  { intros st'. split; [|apply stopGenerating_clears].
    unfold stopGenerating. run. apply lookup_delete_eq. }
  split; [by apply generateMessage_stopped_early|].
  split; [exact Hnone|]. split; [exact Hsome|].
  intros Htext Hleaf. by apply generateMessage_stopped_dangling.
Qed.

Lemma generateMessage_stopped_witness :
  exists node,
    storage (snd (generateMessage sampleConv 4
                    (Responded 200 (Return None) [contentChunk "Hel"] UserStops)
                    sampleState)) =
      StorageUtils.appended (storage sampleState) 1001 node 4 /\
    Node.content node = Js.lit "Hel".
Proof.
  destruct (generateMessage_stopped sampleConv 4 (Return None)
              [contentChunk "Hel"] sampleState)
    as (_ & _ & _ & Hsome & _).
  - vm_compute. reflexivity.
  - vm_compute. eauto.
  - repeat constructor; vm_compute; discriminate.
  - destruct Hsome as (_ & _ & node & Hstore & Hreply).
    + vm_compute. discriminate.
    + vm_compute. eauto.
    + exists node. split; [exact Hstore|].
      by destruct Hreply as (_ & _ & _ & _ & Hcontent & _).
Defined.

(** C1 as stated fails: stopping the sample generation after the chunk
    "Hel" leaves an assistant node with that content in the store. *)
Lemma stopped_generation_persists_partial :
  let r := generateMessage sampleConv 4
             (Responded 200 (Return None) [contentChunk "Hel"] UserStops)
             sampleState in
  fst r = Return tt /\
  isGeneratingIn (snd r) sampleConv = false /\
  messages (storage (snd r)) <> messages (storage sampleState) /\
  last (messages (storage (snd r))) =
    Some (Node.mk 1001 sampleConv text 1001 assistant (Js.lit "Hel")
                  None None 4 []).
Proof. vm_compute. repeat split; discriminate. Qed.

Lemma idsOf_appended s now (m : Message) parentNodeId c :
  idsOf (StorageUtils.appended s now m parentNodeId) c =
  idsOf s c ++ (if decide (Node.convId m = c) then [Node.id m] else []).
Proof.
  unfold idsOf, StorageUtils.messagesOf. simpl.
  rewrite filter_app, map_app. f_equal.
  - induction (messages s) as [|x xs IH]; [done|].
    rewrite fmap_cons.
    assert (Hsame : forall y : Message,
      y = (if decide (Node.convId x = Node.convId m /\ Node.id x = parentNodeId)
           then Node.with_children x (Node.children x ++ [Node.id m]) else x) ->
      Node.convId y = Node.convId x /\ Node.id y = Node.id x)
      by (intros y ->; by case_decide).
    destruct (Hsame _ eq_refl) as [HconvId Hid].
    destruct (decide (Node.convId x = c)) as [Hc|Hc].
    + rewrite !filter_cons_True by congruence. simpl.
      rewrite Hid. f_equal. apply IH.
    + rewrite !filter_cons_False by congruence. apply IH.
  - case_decide.
    + by rewrite filter_cons_True by done.
    + by rewrite filter_cons_False by done.
Qed.

Lemma increasingIds_snoc ids (x : Z) :
  StronglySorted Z.lt ids -> Forall (fun i => (i < x)%Z) ids ->
  StronglySorted Z.lt (ids ++ [x]).
Proof.
  intros Hsorted Hbelow. apply StronglySorted_app_2; [|done|repeat constructor].
  intros x1 x2 Hx1 ->%list_elem_of_singleton.
  rewrite Forall_forall in Hbelow. by apply Hbelow.
Qed.

(** A generation keeps the ids increasing when the id it is about to hand
    out, the clock reading plus one, is above those stored. *)
Lemma generateMessage_increasing c leafNodeId net st :
  increasingIds (storage st) c ->
  idsBelow (storage st) c (clock st (ticks st) + 1) ->
  increasingIds (storage (snd (generateMessage c leafNodeId net st))) c.
Proof.
  intros Hsorted Hbelow.
  destruct (generateMessage_effect c leafNodeId net st)
    as (_ & _ & [-> | (node & -> & Hid & HconvId & _)]); [done|].
  unfold increasingIds. rewrite idsOf_appended.
  rewrite decide_True by done. rewrite Hid.
  by apply increasingIds_snoc.
Qed.

Lemma userAppended_clock c l content extra st :
  clock (userAppended c l content extra st) = clock st /\
  (ticks st <= ticks (userAppended c l content extra st))%nat.
Proof.
  unfold userAppended.
  destruct (StorageUtils.findNode (storage st) c l); simpl;
    (split; [done|lia]).
Qed.

(** Appending the user node and generating the reply keeps the ids
    increasing when the clock reading taken for the user node is above the
    ids stored and the clock does not run backwards. *)
Lemma userAppended_then_generate c l content extra net st :
  monotoneClock st ->
  increasingIds (storage st) c ->
  idsBelow (storage st) c (clock st (ticks st)) ->
  increasingIds
    (storage (snd (generateMessage c (clock st (ticks st)) net
                     (userAppended c l content extra st)))) c.
Proof.
  intros Hmono Hsorted Hbelow.
  destruct (userAppended_clock c l content extra st) as [Hclock Hticks].
  assert (Hlater : (clock st (ticks st) <=
                    clock (userAppended c l content extra st)
                          (ticks (userAppended c l content extra st)))%Z).
  { rewrite Hclock. by apply Hmono. }
  apply generateMessage_increasing.
  - unfold userAppended, increasingIds.
    destruct (StorageUtils.findNode (storage st) c l); simpl storage; [|done].
    rewrite idsOf_appended. simpl. rewrite decide_True by done.
    by apply increasingIds_snoc.
  - revert Hlater. unfold userAppended, idsBelow.
    destruct (StorageUtils.findNode (storage st) c l); simpl storage;
      intros Hlater; simpl in Hlater; simpl clock; simpl ticks.
    + rewrite idsOf_appended. simpl. rewrite decide_True by done.
      apply Forall_app. split.
      * eapply Forall_impl; [exact Hbelow|]. simpl. intros i Hi. lia.
      * repeat constructor. lia.
    + eapply Forall_impl; [exact Hbelow|]. simpl. intros i Hi. lia.
Qed.

Lemma replaceMessageAndGenerate_run convId parentNodeId content extra net st :
  replaceMessageAndGenerate convId parentNodeId content extra net st =
  if isGeneratingIn st convId then (Return tt, st)
  else match content with
       | Some content =>
           generateMessage convId (clock st (ticks st)) net
             (userAppended convId parentNodeId content extra st)
       | None =>
           generateMessage convId parentNodeId net
             (with_effect (OnChunk (Some parentNodeId)) st)
       end.
Proof.
  unfold replaceMessageAndGenerate. unfold isGenerating, gets. unfold bind at 1.
  destruct (isGeneratingIn st convId); [done|].
  destruct content as [content|]; [|done].
  unfold userAppended, userMessage, StorageUtils.appendMsg. run.
  by destruct (StorageUtils.findNode (storage st) convId parentNodeId).
Qed.

Lemma increasingIds_NoDup s c : increasingIds s c -> NoDup (idsOf s c).
Proof.
  unfold increasingIds. induction 1 as [|x ids _ IH Hx]; constructor; [|done].
  intros Hin. rewrite Forall_forall in Hx. specialize (Hx _ Hin). lia.
Qed.

Lemma userAppended_ids c l content extra st :
  idsOf (storage (userAppended c l content extra st)) c =
  idsOf (storage st) c ++
  match StorageUtils.findNode (storage st) c l with
  | Some _ => [clock st (ticks st)]
  | None => []
  end.
Proof.
  unfold userAppended.
  destruct (StorageUtils.findNode (storage st) c l); simpl storage.
  - rewrite idsOf_appended. simpl. by rewrite decide_True.
  - by rewrite app_nil_r.
Qed.

Lemma generateMessage_ids c leafNodeId net st :
  exists reply,
    idsOf (storage (snd (generateMessage c leafNodeId net st))) c =
      idsOf (storage st) c ++ reply /\
    (reply = [] \/ reply = [(clock st (ticks st) + 1)%Z]).
Proof.
  destruct (generateMessage_effect c leafNodeId net st)
    as (_ & _ & [-> | (node & -> & Hid & HconvId & _)]).
  - exists []. split; [by rewrite app_nil_r|by left].
  - exists [(clock st (ticks st) + 1)%Z]. split; [|by right].
    rewrite idsOf_appended, decide_True by done. by rewrite Hid.
Qed.

Lemma userAppended_then_generate_ids c l content extra net st :
  idsHandedOut st
    (snd (generateMessage c (clock st (ticks st)) net
            (userAppended c l content extra st))) c.
Proof.
  destruct (generateMessage_ids c (clock st (ticks st)) net
              (userAppended c l content extra st)) as (reply & Hids & Hreply).
  destruct (userAppended_clock c l content extra st) as [Hclock Hticks].
  eexists _, reply. split; [|split].
  - by rewrite Hids, userAppended_ids, <- app_assoc.
  - destruct (StorageUtils.findNode (storage st) c l); eauto.
  - destruct Hreply as [-> | ->]; [by left|right].
    eexists. split; [exact Hticks|]. by rewrite Hclock.
Qed.

(** C2, as the code has it, for a send into a conversation the send is
    given, an edit and a regeneration: the run adds to the ids of the
    conversation at most the id of a user node, which is the clock reading
    taken at the start of the run, and then at most the id of a reply,
    which is a reading taken no earlier, plus one.  The ids stay strictly
    increasing in creation order, and hence unique, as long as the clock
    does not run backwards and the reading at the start of the run lies
    above every id the conversation already holds. *)
Theorem ids_stay_increasing c l content edit extra rag net st :
  c <> [] ->
  monotoneClock st ->
  increasingIds (storage st) c ->
  idsBelow (storage st) c (clock st (ticks st)) ->
  let sent := snd (sendMessage (Some c) (Some l) content extra rag net st) in
  let replaced := snd (replaceMessageAndGenerate c l edit extra net st) in
  (idsHandedOut st sent c /\
   increasingIds (storage sent) c /\ NoDup (idsOf (storage sent) c)) /\
  (idsHandedOut st replaced c /\
   increasingIds (storage replaced) c /\ NoDup (idsOf (storage replaced) c)).
Proof.
  intros Hc Hmono Hsorted Hbelow sent replaced.
  assert (Hnothing : idsHandedOut st st c).
  { exists [], []. rewrite !app_nil_r. eauto. }
  assert (Hsent : idsHandedOut st sent c /\ increasingIds (storage sent) c).
  { subst sent.
    destruct (isGeneratingIn st c) eqn:Hidle;
      [by rewrite sendMessage_rejected by (by left)|].
    destruct (decide (Js.trim content = [])) as [Hblank|Hblank];
      [by rewrite sendMessage_rejected by (by right)|].
    rewrite sendMessage_accepted by done. unfold bind.
    destruct (rewriteContent_frame content rag st) as (content' & st' & -> & Hst').
    rewrite sendRewritten_run, resolveTarget_run. unfold continues.
    rewrite decide_False by (by intros ?%nil_length_inv).
    rewrite send_generate. cbn [snd].
    destruct Hst' as [-> | ->].
    - split; [apply userAppended_then_generate_ids|].
      by apply userAppended_then_generate.
    - split; [|by apply userAppended_then_generate].
      apply (userAppended_then_generate_ids c l content' extra net
               (with_effect (Alert ragAlert) st)). }
  assert (Hreplaced : idsHandedOut st replaced c /\
                      increasingIds (storage replaced) c).
  { subst replaced. rewrite replaceMessageAndGenerate_run.
    destruct (isGeneratingIn st c); [done|].
    destruct edit as [newContent|].
    - split; [apply userAppended_then_generate_ids|].
      by apply userAppended_then_generate.
    - split.
      + destruct (generateMessage_ids c l net
                    (with_effect (OnChunk (Some l)) st))
          as (reply & Hids & Hreply).
        exists [], reply. split; [exact Hids|]. split; [by left|].
        destruct Hreply as [-> | ->]; [by left|right].
        exists (ticks st). split; [lia|done].
      + apply generateMessage_increasing; [done|]. simpl.
        eapply Forall_impl; [exact Hbelow|]. simpl. intros i Hi. lia. }
  destruct Hsent as [Hout Hinc]. destruct Hreplaced as [Hout' Hinc'].
  split; (split; [done|split; [done|by apply increasingIds_NoDup]]).
Qed.

Lemma ids_stay_increasing_witness :
  idsHandedOut sampleState
    (snd (sendMessage (Some sampleConv) (Some 4%Z) (Js.lit "hello") None
            RagUnreachable
            (Responded 200 (Return None) [contentChunk "Hi"] StreamDone)
            sampleState)) sampleConv /\
  NoDup (idsOf (storage (snd (sendMessage (Some sampleConv) (Some 4%Z)
                                (Js.lit "hello") None RagUnreachable
                                (Responded 200 (Return None)
                                   [contentChunk "Hi"] StreamDone)
                                sampleState))) sampleConv).
Proof.
  destruct (ids_stay_increasing sampleConv 4 (Js.lit "hello") None
    None RagUnreachable
    (Responded 200 (Return None) [contentChunk "Hi"] StreamDone)
    sampleState) as [(Hout & _ & Hnodup) _].
  - vm_compute. discriminate.
  - intros n m Hnm. simpl. lia.
  - vm_compute. repeat constructor.
  - vm_compute. repeat constructor.
  - split; [exact Hout|exact Hnodup].
Defined.

(** The ids of the sample send: the user node gets the reading [1000], the
    reply the reading [1002] plus one. *)
Example sample_send_ids :
  idsOf (storage (snd (sendMessage (Some sampleConv) (Some 4%Z)
                         (Js.lit "hello") None RagUnreachable
                         (Responded 200 (Return None) [contentChunk "Hi"]
                                    StreamDone) sampleState))) sampleConv =
  [1; 2; 3; 4; 9; 1000; 1003]%Z.
Proof. vm_compute. reflexivity. Qed.

(** A send that creates its conversation is not covered: the root and the
    user node take two successive readings of the clock as they are,
    which coincide within one millisecond. *)
Example new_conversation_root_and_user_collide :
  let r := sendMessage None None (Js.lit "a") None RagUnreachable
             (Responded 200 (Return None) [contentChunk "x"] StreamDone)
             frozenState in
  fst r = Return true /\
  idsOf (storage (snd r)) (Js.lit "conv-1000") = [1000; 1000; 1001]%Z.
Proof. vm_compute. split; reflexivity. Qed.

(** C2 as stated fails: two sends within the same millisecond give their
    user nodes the same id, and their replies the same id, as the ids
    announced through [onChunk] and the ids in the store show. *)
Lemma same_millisecond_sends_collide :
  fst firstSend = Return true /\ fst secondSend = Return true /\
  effects (snd secondSend) =
    [ OnChunk (Some 1000%Z); OnChunk None; OnChunk (Some 1001%Z);
      OnChunk (Some 1000%Z); OnChunk None; OnChunk (Some 1001%Z) ] /\
  idsOf (storage (snd secondSend)) sampleConv =
    [1; 2; 3; 4; 9; 1000; 1001; 1000; 1001]%Z /\
  ~ NoDup (idsOf (storage (snd secondSend)) sampleConv).
Proof.
  assert (Hids : idsOf (storage (snd secondSend)) sampleConv =
                 [1; 2; 3; 4; 9; 1000; 1001; 1000; 1001]%Z)
    by (vm_compute; reflexivity).
  split; [vm_compute; reflexivity|]. split; [vm_compute; reflexivity|].
  split; [vm_compute; reflexivity|].
  split; [exact Hids|]. rewrite Hids. intros Hnodup.
  apply (bool_decide_pack _) in Hnodup. vm_compute in Hnodup. exact Hnodup.
Qed.

Lemma getSubstitution_plain matched before after template rest :
  plain template = true ->
  Js.getSubstitution matched before after (template ++ rest) =
  template ++ Js.getSubstitution matched before after rest.
Proof.
  induction template as [|c template IH]; [done|].
  simpl. intros [Hc Htemplate]%andb_true_iff.
  apply negb_true_iff in Hc. rewrite Hc. by rewrite IH.
Qed.

Lemma indexOf_startsWith s p :
  Js.startsWith s p = true -> Js.indexOf s p = Some 0%nat.
Proof. intros H. destruct s; cbn [Js.indexOf]; by rewrite H. Qed.

(** Replacing a command at the start of the content by a text that opens
    with a plain directive of 256 code units or more gives a text whose
    first 256 code units are those of the directive. *)
Lemma replace_command_prefix content command directive rest :
  Js.startsWith content command = true ->
  plain directive = true -> (256 <= length directive)%nat ->
  Js.substring0 256 (Js.replace content command (directive ++ rest)) =
  Js.substring0 256 directive.
Proof.
  intros Hstarts Hplain Hlen. unfold Js.replace, Js.substring0.
  rewrite indexOf_startsWith by done. simpl take at 1. simpl app at 1.
  rewrite getSubstitution_plain by done.
  rewrite <- app_assoc. by apply take_app_le.
Qed.

Lemma rewriteContent_success content docs st :
  isCommand content ->
  exists rewritten,
    rewriteContent content (RagDocuments docs) st = (Return rewritten, st) /\
    Js.substring0 256 rewritten = Js.substring0 256 (directiveOf content).
Proof.
  intros Hcmd. unfold isCommand, commandPrefixes in Hcmd.
  rewrite !Exists_cons, Exists_nil in Hcmd.
  unfold rewriteContent, directiveOf, fetchRAGCodebase, fetchRAGProducts,
    fetchRAGDocumentation, fetchRAGMedRecords, ragDocsString,
    tryCatch, bind, ret.
  destruct (Js.startsWith content (Js.lit "/codebase")) eqn:H1.
  { eexists. split; [reflexivity|]. cbn [default from_option].
    apply replace_command_prefix; [done|by vm_compute|by vm_compute; lia]. }
  destruct (Js.startsWith content (Js.lit "/products")) eqn:H2.
  { eexists. split; [reflexivity|]. cbn [default from_option].
    apply replace_command_prefix; [done|by vm_compute|by vm_compute; lia]. }
  destruct (Js.startsWith content (Js.lit "/documentation")) eqn:H3.
  { eexists. split; [reflexivity|]. cbn [default from_option].
    apply replace_command_prefix; [done|by vm_compute|by vm_compute; lia]. }
  destruct (Js.startsWith content (Js.lit "/medical_records")) eqn:H4.
  { eexists. split; [reflexivity|]. cbn [default from_option].
    unfold Js.substring0. apply take_app_le. vm_compute. lia. }
  destruct Hcmd as [?|[?|[?|[?|[]]]]]; congruence.
Qed.

(** No directive begins like a command. *)
Lemma directive_not_command content :
  isCommand content ->
  Js.substring0 256 (directiveOf content) <> Js.substring0 256 content.
Proof.
  intros Hcmd Heq.
  assert (Hslash : head content = Some 47%N).
  { unfold isCommand, commandPrefixes in Hcmd.
    rewrite !Exists_cons, Exists_nil in Hcmd.
    destruct Hcmd as [H|[H|[H|[H|[]]]]];
      by eapply startsWith_head; [exact H|]. }
  destruct content as [|c rest]; [done|]. injection Hslash as ->.
  apply (f_equal head) in Heq. revert Heq. unfold directiveOf.
  repeat match goal with
         | |- context [if ?b then _ else _] => destruct b
         end; by vm_compute.
Qed.

Lemma conversationName_appended s now (m : Message) parentNodeId convId :
  conversationName (StorageUtils.appended s now m parentNodeId) convId =
  conversationName s convId.
Proof.
  unfold conversationName. simpl.
  destruct (decide (Node.convId m = convId)) as [<-|Hne].
  - rewrite lookup_alter_eq. by destruct (conversations s !! Node.convId m).
  - by rewrite lookup_alter_ne.
Qed.

Lemma generateMessage_name c leafNodeId net st convId :
  conversationName (storage (snd (generateMessage c leafNodeId net st))) convId =
  conversationName (storage st) convId.
Proof.
  destruct (generateMessage_effect c leafNodeId net st)
    as (_ & _ & [-> | (node & -> & _)]); [done|].
  apply conversationName_appended.
Qed.

Lemma userAppended_name c l content extra st convId :
  conversationName (storage (userAppended c l content extra st)) convId =
  conversationName (storage st) convId.
Proof.
  unfold userAppended.
  destruct (StorageUtils.findNode (storage st) c l); simpl storage; [|done].
  apply conversationName_appended.
Qed.

(** C9: a command sent without a conversation id, whose rewrite succeeds,
    creates a conversation named after the first 256 code units of the
    rewritten content (which are those of the directive), not of the text
    the user typed. *)
Theorem new_conversation_named_after_rewrite leafNodeId content extra docs net st :
  isGeneratingIn st [] = false ->
  isCommand content ->
  let r := sendMessage None leafNodeId content extra (RagDocuments docs) net st in
  let newId := Js.lit "conv-" ++ StorageUtils.decimal (clock st (ticks st)) in
  exists rewritten,
    rewriteContent content (RagDocuments docs) st = (Return rewritten, st) /\
    conversationName (storage (snd r)) newId =
      Some (Js.substring0 256 rewritten) /\
    Js.substring0 256 rewritten = Js.substring0 256 (directiveOf content) /\
    Js.substring0 256 rewritten <> Js.substring0 256 content.
Proof.
  intros Hidle Hcmd r newId. subst r.
  destruct (rewriteContent_success content docs st Hcmd)
    as (rewritten & Hrewrite & Hprefix).
  exists rewritten. split; [done|]. split; [|split; [done|]].
  - rewrite sendMessage_accepted by (by try apply isCommand_not_blank).
    unfold bind. rewrite Hrewrite.
    rewrite sendRewritten_run, resolveTarget_run. simpl continues. cbv iota.
    rewrite send_generate. cbn [snd].
    rewrite generateMessage_name, userAppended_name.
    unfold conversationName, conversationCreated. simpl.
    by rewrite lookup_insert_eq.
  - rewrite Hprefix. by apply directive_not_command.
Qed.

Lemma new_conversation_named_after_rewrite_witness :
  conversationName
    (storage (snd (sendMessage None None (Js.lit "/products shoes") None
                     (RagDocuments [[Js.lit "boots"; Js.lit "sandals"]])
                     (Responded 200 (Return None) [contentChunk "ok"] StreamDone)
                     sampleState)))
    (Js.lit "conv-1000") =
  Some (Js.substring0 256 directiveProducts).
Proof.
  destruct (new_conversation_named_after_rewrite None (Js.lit "/products shoes")
              None [[Js.lit "boots"; Js.lit "sandals"]]
              (Responded 200 (Return None) [contentChunk "ok"] StreamDone)
              sampleState)
    as (rewritten & _ & Hname & Hprefix & _).
  - vm_compute. reflexivity.
  - unfold isCommand, commandPrefixes. right. left. vm_compute. reflexivity.
  - rewrite Hprefix in Hname. exact Hname.
Defined.

(** * Further properties of the generation controller *)

(** Clean chunks at the head of a stream are consumed one after the
    other; the loop then stands before the rest of the stream. *)
Lemma consumeStream_clean_prefix cfg convId fin good rest p st :
  Forall cleanChunk good ->
  exists p1 st1,
    consumeStream cfg convId p (good ++ rest) fin st =
    consumeStream cfg convId p1 rest fin st1.
Proof.
  intros Hclean. revert p st.
  induction Hclean as [|chunk good Hchunk _ IH]; intros p st; [by eauto|].
  simpl app. rewrite consumeStream_cons.
  destruct (consumeChunk_clean cfg convId p chunk st Hchunk) as (p1 & Hret & _).
  destruct (consumeChunk cfg convId p chunk st) as [[p1'|e] st1]; [|done].
  apply IH.
Qed.

Lemma tryBlock_fails cfg convId net err p st :
  failsWith net err ->
  exists p', fst (tryBlock cfg convId p net st) = Return (p', Throw err).
Proof.
  intros Hfails. destruct Hfails; simpl.
  - eauto.
  - rewrite decide_True by done. eauto.
  - rewrite decide_True by done. eauto.
  - destruct (consumeStream_clean_prefix cfg convId fin good (bad :: rest) p st)
      as (p1 & st1 & ->); [done|].
    rewrite consumeStream_cons. unfold consumeChunk.
    match goal with H : chunk_error bad = _ |- _ => rewrite H end. eauto.
  - destruct (consumeStream_clean_prefix cfg convId fin good (bad :: rest) p st)
      as (p1 & st1 & ->); [done|].
    rewrite consumeStream_cons. unfold consumeChunk.
    repeat match goal with H : _ bad = _ |- _ => rewrite H end. eauto.
  - destruct (consumeStream_clean cfg convId (StreamFails e) good p st)
      as (p' & Hrun & _); [done|]. eauto.
Qed.

(** The run of [generateMessage] over a failing exchange: the [try]
    block is left with the error in a state that has the store of the
    start, and the [catch] block clears the pending entry, alerts and
    rethrows. *)
Lemma generateMessage_fails_run convId leafNodeId net err st :
  isGeneratingIn st convId = false ->
  is_Some (conversations (storage st) !! convId) ->
  failsWith net err ->
  err_name err <> Js.lit "AbortError" ->
  exists st2,
    generateMessage convId leafNodeId net st =
      (Throw err,
       with_effect (Alert (err_message err))
         (with_pendingMessages (delete convId) st2)) /\
    storage st2 = storage st /\ extends st st2.
Proof.
  intros Hidle Hconv Hfails Hname.
  rewrite generateMessage_started by done.
  set (pendingId := (clock st (ticks st) + 1)%Z).
  set (p0 := newPending convId leafNodeId pendingId).
  set (st1 := started convId leafNodeId st).
  destruct (tryBlock_fails (config (storage st)) convId net err p0 st1 Hfails)
    as (p' & Hrun).
  destruct (tryBlock_frame (config (storage st)) convId net p0 st1)
    as (p'' & tried & Hrun' & _ & (Hstorage & _) & [added Hadded]).
  rewrite Hrun in Hrun'. injection Hrun' as <- <-.
  destruct (tryBlock _ _ _ _ _) as [c st2]. simpl in Hrun, Hstorage, Hadded.
  subst c. rewrite afterTry_failed by done.
  exists st2. split; [done|]. split; [done|]. by exists added.
Qed.

Lemma generateMessage_fails convId leafNodeId net err st :
  isGeneratingIn st convId = false ->
  is_Some (conversations (storage st) !! convId) ->
  failsWith net err ->
  err_name err <> Js.lit "AbortError" ->
  let r := generateMessage convId leafNodeId net st in
  fst r = Throw err /\
  storage (snd r) = storage st /\
  isGeneratingIn (snd r) convId = false.
Proof.
  intros Hidle Hconv Hfails Hname r. subst r.
  destruct (generateMessage_fails_run convId leafNodeId net err st)
    as (st2 & -> & Hstorage & _); [done..|].
  split; [done|]. split; [done|]. apply isGeneratingIn_cleared.
Qed.

(** X1: a generation that fails for another reason than the user's stop
    rethrows the error after telling the user: the pending entry is
    cleared, the message of the error is alerted, and nothing is written
    to the store, whatever content had been accumulated. *)
Theorem generateMessage_failure convId leafNodeId net err st :
  isGeneratingIn st convId = false ->
  is_Some (conversations (storage st) !! convId) ->
  failsWith net err ->
  err_name err <> Js.lit "AbortError" ->
  let r := generateMessage convId leafNodeId net st in
  fst r = Throw err /\
  storage (snd r) = storage st /\
  isGeneratingIn (snd r) convId = false /\
  exists before,
    effects (snd r) = effects st ++ before ++ [Alert (err_message err)].
Proof.
  intros Hidle Hconv Hfails Hname r. subst r.
  destruct (generateMessage_fails_run convId leafNodeId net err st)
    as (st2 & -> & Hstorage & [added Hadded]); [done..|].
  split; [done|]. split; [done|].
  split; [apply isGeneratingIn_cleared|].
  exists added. simpl. by rewrite Hadded, <- app_assoc.
Qed.

Lemma generateMessage_failure_witness :
  fst (generateMessage sampleConv 4
         (Responded 200 (Return None)
            [contentChunk "Hel"; errorChunk "boom"] StreamDone)
         sampleState) = Throw (Error (Js.lit "boom")).
Proof.
  refine (proj1 (generateMessage_failure sampleConv 4 _ _ sampleState _ _
                   (fails_chunk_error (Return None) [contentChunk "Hel"]
                      (errorChunk "boom") (Some (Js.lit "boom")) []
                      StreamDone _ eq_refl) _)).
  - vm_compute. reflexivity.
  - vm_compute. eauto.
  - repeat constructor; vm_compute; discriminate.
  - vm_compute. discriminate.
Defined.

(** X2: [sendMessage] never rejects: whatever the retrieval endpoint and
    the completion endpoint do, it returns a boolean. *)
Theorem sendMessage_never_throws convId leafNodeId content extra rag net st :
  exists b,
    fst (sendMessage convId leafNodeId content extra rag net st) = Return b.
Proof.
  destruct (isGeneratingIn st (default [] convId)) eqn:Hidle;
    [by exists false; rewrite sendMessage_rejected by (by left)|].
  destruct (decide (Js.trim content = [])) as [Hblank|Hblank];
    [by exists false; rewrite sendMessage_rejected by (by right)|].
  rewrite sendMessage_accepted by done. unfold bind.
  destruct (rewriteContent_frame content rag st) as (content' & st' & -> & _).
  rewrite sendRewritten_run, resolveTarget_run.
  destruct (continues convId leafNodeId) as [[c l]|];
    rewrite send_generate; cbn [fst]; eauto.
Qed.

Lemma rewriteContent_plain content rag st :
  ~ isCommand content -> rewriteContent content rag st = (Return content, st).
Proof.
  intros Hcmd. unfold rewriteContent.
  unfold isCommand, commandPrefixes in Hcmd.
  rewrite !Exists_cons, Exists_nil in Hcmd.
  repeat match goal with
         | |- context [if ?b then _ else _] =>
             destruct b eqn:?; [exfalso; apply Hcmd; tauto|]
         end.
  done.
Qed.

Lemma userAppended_pending c l content extra st :
  pendingMessages (userAppended c l content extra st) = pendingMessages st /\
  aborts (userAppended c l content extra st) = aborts st.
Proof.
  unfold userAppended.
  by destruct (StorageUtils.findNode (storage st) c l).
Qed.

Lemma userAppended_idle c l content extra st convId :
  isGeneratingIn (userAppended c l content extra st) convId =
  isGeneratingIn st convId.
Proof.
  unfold isGeneratingIn.
  by destruct (userAppended_pending c l content extra st) as [-> _].
Qed.

(** X3: when the generation started by [sendMessage] for an existing
    conversation fails, [sendMessage] returns [false] and the user message
    it appended stays in the store: nothing is rolled back. *)
Theorem sendMessage_failure_keeps_user_message
    c l content extra rag net err st :
  c <> [] ->
  isGeneratingIn st c = false -> Js.trim content <> [] ->
  ~ isCommand content ->
  is_Some (conversations (storage st) !! c) ->
  is_Some (StorageUtils.findNode (storage st) c l) ->
  failsWith net err -> err_name err <> Js.lit "AbortError" ->
  let r := sendMessage (Some c) (Some l) content extra rag net st in
  fst r = Return false /\
  holdsUserMessage (storage (snd r)) content /\
  storage (snd r) =
    StorageUtils.appended (storage st) (clock st (S (ticks st)))
      (userMessage c (clock st (ticks st)) content extra l) l.
Proof.
  intros Hc Hidle Hcontent Hcmd Hconv Hleaf Hfails Hname r. subst r.
  rewrite sendMessage_accepted by done. unfold bind.
  rewrite rewriteContent_plain by done.
  rewrite sendRewritten_run, resolveTarget_run. unfold continues.
  rewrite decide_False by (by intros ?%nil_length_inv).
  rewrite send_generate.
  destruct (userAppended_ready c l content extra st Hconv Hleaf)
    as (Hconv' & _ & Hholds).
  destruct (generateMessage_fails c (clock st (ticks st)) net err
              (userAppended c l content extra st))
    as (Hthrow & Hstorage & _); [by rewrite userAppended_idle|done..|].
  cbn [fst snd]. rewrite Hthrow, Hstorage.
  split; [done|]. split; [done|].
  unfold userAppended. destruct Hleaf as [parentNode ->]. done.
Qed.

Lemma sendMessage_failure_keeps_user_message_witness :
  fst (sendMessage (Some sampleConv) (Some 4%Z) (Js.lit "hello") None
         RagUnreachable (Responded 500 (Return None) [] StreamDone)
         sampleState) = Return false.
Proof.
  refine (proj1 (sendMessage_failure_keeps_user_message sampleConv 4
    (Js.lit "hello") None RagUnreachable
    (Responded 500 (Return None) [] StreamDone) _ sampleState _ _ _ _ _ _
    (fails_status 500 None [] StreamDone _) _)).
  - vm_compute. discriminate.
  - vm_compute. reflexivity.
  - vm_compute. discriminate.
  - unfold isCommand, commandPrefixes.
    rewrite !Exists_cons, Exists_nil. vm_compute. intuition discriminate.
  - vm_compute. eauto.
  - vm_compute. eauto.
  - lia.
  - vm_compute. discriminate.
Defined.

(** X4: [replaceMessageAndGenerate] does nothing while a generation is
    pending for the conversation; otherwise a failure of the generation
    is not caught but propagates to the caller. *)
Theorem replaceMessageAndGenerate_propagates
    convId parentNodeId edit extra net err st :
  (isGeneratingIn st convId = true ->
     replaceMessageAndGenerate convId parentNodeId edit extra net st =
     (Return tt, st)) /\
  (isGeneratingIn st convId = false ->
   is_Some (conversations (storage st) !! convId) ->
   failsWith net err -> err_name err <> Js.lit "AbortError" ->
     fst (replaceMessageAndGenerate convId parentNodeId edit extra net st) =
     Throw err).
Proof.
  rewrite replaceMessageAndGenerate_run. split.
  - by intros ->.
  - intros Hidle Hconv Hfails Hname. rewrite Hidle.
    destruct edit as [content|].
    + apply generateMessage_fails;
        [by rewrite userAppended_idle| |done..].
      unfold userAppended.
      destruct (StorageUtils.findNode (storage st) convId parentNodeId);
        simpl storage; [by apply appended_conversation|done].
    + by apply generateMessage_fails.
Qed.

Lemma replaceMessageAndGenerate_propagates_witness :
  fst (replaceMessageAndGenerate sampleConv 1 (Some (Js.lit "v2")) None
         (RequestFails (TypeError (Js.lit "Failed to fetch"))) sampleState) =
  Throw (TypeError (Js.lit "Failed to fetch")).
Proof.
  refine (proj2 (replaceMessageAndGenerate_propagates sampleConv 1
    (Some (Js.lit "v2")) None _ _ sampleState) _ _ (fails_request _) _).
  - vm_compute. reflexivity.
  - vm_compute. eauto.
  - vm_compute. discriminate.
Defined.

Lemma elsewhereUntouched_refl convId st : elsewhereUntouched convId st st.
Proof. by intros other _. Qed.

Lemma elsewhereUntouched_trans convId st1 st2 st3 :
  elsewhereUntouched convId st1 st2 -> elsewhereUntouched convId st2 st3 ->
  elsewhereUntouched convId st1 st3.
Proof.
  intros H12 H23 other Hother.
  destruct (H12 other Hother) as [<- <-]. by apply H23.
Qed.

Lemma abortsUpTo_trans convId st1 st2 st3 :
  abortsUpTo convId st1 st2 -> abortsUpTo convId st2 st3 ->
  abortsUpTo convId st1 st3.
Proof.
  unfold abortsUpTo. intros [H12|H12] [H23|H23]; rewrite H23, H12; eauto.
  right. apply map_eq. intros k.
  destruct (decide (convId = k)) as [<-|Hk].
  - rewrite !lookup_alter_eq. by destruct (aborts st1 !! convId).
  - by rewrite !lookup_alter_ne.
Qed.

(** The loop body on a clean chunk, exactly: the new pending message is
    stored under the conversation and [onChunk()] is called. *)
Lemma consumeChunk_clean_exact cfg convId p chunk st :
  cleanChunk chunk ->
  exists p1,
    consumeChunk cfg convId p chunk st =
      (Return p1,
       with_effect (OnChunk None)
         (with_pendingMessages (insert convId p1) st)) /\
    sameHeader p p1 /\
    Node.content p1 = accumulate (Node.content p) (deltaContent chunk) /\
    Node.timings p1 = latestTimings cfg (Node.timings p) [chunk].
Proof.
  intros [Herr Hchoices]. unfold consumeChunk, deltaContent, latestTimings.
  rewrite Herr. destruct (chunk_choices chunk) as [|addedContent ?]; [done|].
  run. eexists. split; [reflexivity|].
  destruct addedContent as [[|c s]|];
    destruct (chunk_timings chunk) as [[]|];
    destruct (showTokensPerSecond cfg); done.
Qed.

(** The loop body changes the state only when it gets through. *)
Lemma consumeChunk_throws cfg convId p chunk st e st1 :
  consumeChunk cfg convId p chunk st = (Throw e, st1) -> st1 = st.
Proof.
  unfold consumeChunk.
  destruct (chunk_error chunk); [by intros [= _ <-]|].
  destruct (chunk_choices chunk); [by intros [= _ <-]|]. by run.
Qed.

Lemma consumeChunk_returns cfg convId p chunk st p1 st1 :
  consumeChunk cfg convId p chunk st = (Return p1, st1) ->
  st1 = with_effect (OnChunk None)
          (with_pendingMessages (insert convId p1) st).
Proof.
  unfold consumeChunk.
  destruct (chunk_error chunk); [done|].
  destruct (chunk_choices chunk); [done|]. run. by intros [= <- <-].
Qed.

Lemma stopGenerating_elsewhere convId st :
  elsewhereUntouched convId st (snd (stopGenerating convId st)).
Proof.
  intros other Hother. unfold stopGenerating. run.
  by rewrite lookup_delete_ne, lookup_alter_ne.
Qed.

(** The stream loop, whatever the chunks: it touches the pending entry of
    its own conversation only and at most aborts its own controller. *)
Lemma consumeStream_others cfg convId fin chunks p st :
  elsewhereUntouched convId st
    (snd (consumeStream cfg convId p chunks fin st)) /\
  abortsUpTo convId st (snd (consumeStream cfg convId p chunks fin st)).
Proof.
  revert p st. induction chunks as [|chunk rest IH]; intros p st.
  - destruct fin; simpl.
    + split; [apply elsewhereUntouched_refl|by left].
    + split; [apply stopGenerating_elsewhere|by right].
    + split; [apply elsewhereUntouched_refl|by left].
  - rewrite consumeStream_cons.
    destruct (consumeChunk cfg convId p chunk st) as [[p1|e] st1] eqn:Hstep.
    + apply consumeChunk_returns in Hstep. subst st1.
      destruct (IH p1 (with_effect (OnChunk None)
                         (with_pendingMessages (insert convId p1) st)))
        as [Helse Haborts].
      split.
      * eapply elsewhereUntouched_trans; [|exact Helse].
        intros other Hother. simpl. by rewrite lookup_insert_ne.
      * exact Haborts.
    + apply consumeChunk_throws in Hstep. subst st1. simpl.
      split; [apply elsewhereUntouched_refl|by left].
Qed.

Lemma tryBlock_others cfg convId net p st :
  elsewhereUntouched convId st (snd (tryBlock cfg convId p net st)) /\
  abortsUpTo convId st (snd (tryBlock cfg convId p net st)).
Proof.
  destruct net as [e| |status errorBody chunks fin]; simpl.
  - split; [apply elsewhereUntouched_refl|by left].
  - split; [apply stopGenerating_elsewhere|by right].
  - case_decide.
    + destruct errorBody; simpl;
        (split; [apply elsewhereUntouched_refl|by left]).
    + apply consumeStream_others.
Qed.

Lemma persistPending_others convId leafNodeId pendingId p st :
  elsewhereUntouched convId st
    (snd (persistPending convId leafNodeId pendingId p st)) /\
  aborts (snd (persistPending convId leafNodeId pendingId p st)) = aborts st.
Proof.
  destruct (Node.content p) as [content|] eqn:Hcontent.
  - destruct (StorageUtils.findNode (storage st) (Node.convId p) leafNodeId)
      as [parentNode|] eqn:Hleaf.
    + erewrite persistPending_found by eauto. simpl. split; [|done].
      intros other Hother. simpl. by rewrite lookup_delete_ne.
    + erewrite persistPending_dangling by eauto. simpl.
      split; [apply elsewhereUntouched_refl|done].
  - rewrite persistPending_nothing by done. simpl. split; [|done].
    intros other Hother. simpl. by rewrite lookup_delete_ne.
Qed.

Lemma afterTry_others convId leafNodeId pendingId p tried st :
  elsewhereUntouched convId st
    (snd (afterTry convId leafNodeId pendingId p tried st)) /\
  aborts (snd (afterTry convId leafNodeId pendingId p tried st)) = aborts st.
Proof.
  destruct tried as [[]|err].
  - rewrite afterTry_ended by eauto. apply persistPending_others.
  - destruct (decide (err_name err = Js.lit "AbortError")) as [Hname|Hname].
    + unfold afterTry, catchBlock. run.
      destruct (decide (err_name err = Js.lit "AbortError")); [|done].
      destruct (persistPending_others convId leafNodeId pendingId p
                  (with_pendingMessages (delete convId) st)) as [Helse Haborts].
      split; [|exact Haborts].
      eapply elsewhereUntouched_trans; [|exact Helse].
      intros other Hother. simpl. by rewrite lookup_delete_ne.
    + rewrite afterTry_failed by done. simpl. split; [|done].
      intros other Hother. simpl. by rewrite lookup_delete_ne.
Qed.

Lemma latestTimings_app cfg t chunks1 chunks2 :
  latestTimings cfg t (chunks1 ++ chunks2) =
  latestTimings cfg (latestTimings cfg t chunks1) chunks2.
Proof. unfold latestTimings. by rewrite foldl_app. Qed.

(** A run of clean chunks at the head of the stream, exactly: the loop
    then stands before the rest of the stream with the text and the timing
    snapshot accumulated, [onChunk()] called once per chunk, and the
    pending entry of the conversation showing the accumulated message. *)
Lemma consumeStream_clean_exact cfg convId fin good rest p st :
  Forall cleanChunk good ->
  exists p1 st1,
    consumeStream cfg convId p (good ++ rest) fin st =
      consumeStream cfg convId p1 rest fin st1 /\
    sameHeader p p1 /\
    Node.content p1 = foldl accumulate (Node.content p) (map deltaContent good) /\
    Node.timings p1 = latestTimings cfg (Node.timings p) good /\
    sameStore st st1 /\ aborts st1 = aborts st /\
    effects st1 = effects st ++ replicate (length good) (OnChunk None) /\
    match good with
    | [] => p1 = p /\ st1 = st
    | _ => pendingMessages st1 = <[convId := p1]> (pendingMessages st)
    end.
Proof.
  intros Hclean. revert p st.
  induction Hclean as [|chunk good Hchunk _ IH]; intros p st.
  - exists p, st. simpl. rewrite app_nil_r. done.
  - simpl app. rewrite consumeStream_cons.
    destruct (consumeChunk_clean_exact cfg convId p chunk st Hchunk)
      as (p1 & -> & Hhead & Hcontent & Htimings).
    destruct (IH p1 (with_effect (OnChunk None)
                       (with_pendingMessages (insert convId p1) st)))
      as (p2 & st2 & -> & Hhead2 & Hcontent2 & Htimings2 & Hstore2 & Haborts2
          & Heffects2 & Hpending2).
    exists p2, st2. split; [done|].
    split; [by eapply sameHeader_trans|].
    split; [by rewrite Hcontent2, Hcontent|].
    split; [by rewrite Htimings2, Htimings;
            rewrite <- (latestTimings_app cfg _ [chunk] good)|].
    split; [done|]. split; [done|]. split.
    + rewrite Heffects2. simpl. by rewrite <- app_assoc.
    + destruct good.
      * by destruct Hpending2 as [-> ->].
      * rewrite Hpending2. simpl. by rewrite insert_insert_eq.
Qed.

Lemma started_others convId leafNodeId st :
  elsewhereUntouched convId st (started convId leafNodeId st).
Proof. intros other Hother. simpl. by rewrite !lookup_insert_ne. Qed.

(** X5: a generation, and a stop, touch the pending message and the abort
    controller of their own conversation only: what is pending or
    registered for any other conversation stays as it is, whatever the
    network does. *)
Theorem generations_are_independent convId leafNodeId net st :
  elsewhereUntouched convId st (snd (generateMessage convId leafNodeId net st)) /\
  elsewhereUntouched convId st (snd (stopGenerating convId st)).
Proof.
  split; [|apply stopGenerating_elsewhere].
  destruct (isGeneratingIn st convId) eqn:Hidle.
  { rewrite generateMessage_busy by done. apply elsewhereUntouched_refl. }
  destruct (conversations (storage st) !! convId) as [conv|] eqn:Hconv.
  2: { rewrite generateMessage_no_conversation by done.
       apply elsewhereUntouched_refl. }
  rewrite generateMessage_started by eauto.
  set (pendingId := (clock st (ticks st) + 1)%Z).
  set (p0 := newPending convId leafNodeId pendingId).
  set (st1 := started convId leafNodeId st).
  destruct (tryBlock_frame (config (storage st)) convId net p0 st1)
    as (p' & tried & Hrun & _).
  destruct (tryBlock_others (config (storage st)) convId net p0 st1)
    as [Helse _].
  destruct (tryBlock _ _ _ _ _) as [c st2]. simpl in Hrun, Helse. subst c.
  eapply elsewhereUntouched_trans; [apply started_others|].
  eapply elsewhereUntouched_trans; [exact Helse|].
  apply afterTry_others.
Qed.

Lemma afterTry_clears convId leafNodeId pendingId p tried st :
  Node.content p = None \/
  is_Some (StorageUtils.findNode (storage st) (Node.convId p) leafNodeId) ->
  isGeneratingIn (snd (afterTry convId leafNodeId pendingId p tried st)) convId
  = false.
Proof.
  intros Hpersist.
  assert (Hclear : forall st3, storage st3 = storage st ->
    isGeneratingIn (snd (persistPending convId leafNodeId pendingId p st3)) convId
    = false).
  { intros st3 Hs3. destruct (Node.content p) as [content|] eqn:Hcontent.
    - destruct Hpersist as [?|Hleaf]; [done|].
      erewrite persistPending_found; [|done|by rewrite Hs3].
      apply isGeneratingIn_cleared.
    - rewrite persistPending_nothing by done. apply isGeneratingIn_cleared. }
  destruct tried as [[]|err].
  - rewrite afterTry_ended by eauto. by apply Hclear.
  - destruct (decide (err_name err = Js.lit "AbortError")) as [Hname|Hname].
    + unfold afterTry, catchBlock. run.
      destruct (decide (err_name err = Js.lit "AbortError")); [|done].
      by apply Hclear.
    + rewrite afterTry_failed by done. apply isGeneratingIn_cleared.
Qed.

(** X6: a generation that starts from nothing pending ends with nothing
    pending for its conversation, whatever the network does (a stream that
    ends, a stop, a failure), as long as the node it is to reply to is in
    the store. *)
Theorem generateMessage_ends_idle convId leafNodeId net st :
  isGeneratingIn st convId = false ->
  is_Some (StorageUtils.findNode (storage st) convId leafNodeId) ->
  isGeneratingIn (snd (generateMessage convId leafNodeId net st)) convId = false.
Proof.
  intros Hidle Hleaf.
  destruct (conversations (storage st) !! convId) as [conv|] eqn:Hconv.
  2: { by rewrite generateMessage_no_conversation by done. }
  rewrite generateMessage_started by eauto.
  set (pendingId := (clock st (ticks st) + 1)%Z).
  set (p0 := newPending convId leafNodeId pendingId).
  set (st1 := started convId leafNodeId st).
  destruct (tryBlock_frame (config (storage st)) convId net p0 st1)
    as (p' & tried & Hrun & (_ & HconvId & _) & (Hstorage & _) & _).
  destruct (tryBlock _ _ _ _ _) as [c st2]. simpl in Hrun, Hstorage. subst c.
  apply afterTry_clears. right. by rewrite Hstorage, HconvId.
Qed.

Lemma generateMessage_ends_idle_witness :
  isGeneratingIn
    (snd (generateMessage sampleConv 4
            (Responded 200 (Return None)
               [contentChunk "Hel"; errorChunk "boom"] StreamDone)
            sampleState)) sampleConv = false.
Proof.
  apply generateMessage_ends_idle.
  - vm_compute. reflexivity.
  - vm_compute. eauto.
Defined.

(** A generation over clean chunks that ends or is stopped, exactly: it
    arrives at lines 275-279 with the accumulated pending message in a
    state described field by field. *)
Lemma generateMessage_ended_exact convId leafNodeId errorBody chunks fin st :
  isGeneratingIn st convId = false ->
  is_Some (conversations (storage st) !! convId) ->
  Forall cleanChunk chunks ->
  fin = StreamDone \/ fin = UserStops ->
  let pendingId := (clock st (ticks st) + 1)%Z in
  exists p1 st3,
    generateMessage convId leafNodeId (Responded 200 errorBody chunks fin) st =
      persistPending convId leafNodeId pendingId p1 st3 /\
    sameHeader (newPending convId leafNodeId pendingId) p1 /\
    Node.content p1 = foldl accumulate None (map deltaContent chunks) /\
    Node.timings p1 = latestTimings (config (storage st)) None chunks /\
    storage st3 = storage st /\ clock st3 = clock st /\
    ticks st3 = S (ticks st) /\
    effects st3 = effects st ++ replicate (length chunks) (OnChunk None) /\
    aborts st3 !! convId = Some (stoppedBy fin) /\
    pendingMessages st3 !! convId =
      (if stoppedBy fin then None else Some p1).
Proof.
  intros Hidle Hconv Hclean Hfin pendingId.
  rewrite generateMessage_started by done. fold pendingId.
  unfold tryBlock. destruct (decide (200%Z <> 200%Z)) as [?|_]; [done|].
  set (p0 := newPending convId leafNodeId pendingId).
  set (st1 := started convId leafNodeId st).
  destruct (consumeStream_clean_exact (config (storage st)) convId fin chunks []
              p0 st1 Hclean)
    as (p1 & st2 & Hrun & Hhead & Hcontent & Htimings & Hstore & Haborts
        & Heffects & Hpending).
  rewrite app_nil_r in Hrun. rewrite Hrun. clear Hrun.
  destruct Hstore as (Hstorage & Hclock & Hticks).
  assert (Hshown : pendingMessages st2 !! convId = Some p1).
  { destruct chunks.
    - destruct Hpending as [-> ->]. subst st1. simpl. by rewrite lookup_insert_eq.
    - rewrite Hpending. by rewrite lookup_insert_eq. }
  destruct Hfin as [-> | ->].
  - change (consumeStream (config (storage st)) convId p1 [] StreamDone st2)
      with (Return (p1, Return tt), st2).
    cbv beta iota.
    exists p1, st2. rewrite afterTry_ended by eauto.
    split; [done|]. split; [done|]. split; [done|]. split; [done|].
    split; [by rewrite Hstorage|]. split; [by rewrite Hclock|].
    split; [by rewrite Hticks|]. split; [by rewrite Heffects|].
    split; [|done].
    rewrite Haborts. subst st1. simpl. by rewrite lookup_insert_eq.
  - change (consumeStream (config (storage st)) convId p1 [] UserStops st2)
      with (Return (p1, @Throw unit AbortError),
            snd (stopGenerating convId st2)).
    cbv beta iota. rewrite afterTry_ended by eauto.
    eexists p1, _. split; [reflexivity|].
    split; [done|]. split; [done|]. split; [done|]. simpl.
    split; [by rewrite Hstorage|]. split; [by rewrite Hclock|].
    split; [by rewrite Hticks|]. split; [by rewrite Heffects|].
    split; [|by rewrite lookup_delete_eq].
    rewrite Haborts. subst st1. simpl.
    by rewrite lookup_alter_eq, lookup_insert_eq.
Qed.

(** X7: the pending entry is cleared only after the reply has been
    appended.  When that append fails (the node to reply to is not in the
    store) after a stream that ended with content, [generateMessage]
    rejects with the store's error and the entry stays: the conversation
    keeps counting as generating, and every later [sendMessage] to it is
    turned away. *)
Theorem failed_append_leaves_pending convId leafNodeId errorBody chunks st :
  isGeneratingIn st convId = false ->
  is_Some (conversations (storage st) !! convId) ->
  Forall cleanChunk chunks ->
  streamText chunks <> [] ->
  StorageUtils.findNode (storage st) convId leafNodeId = None ->
  let r := generateMessage convId leafNodeId
             (Responded 200 errorBody chunks StreamDone) st in
  fst r = Throw StorageUtils.NotFoundError /\
  isGeneratingIn (snd r) convId = true /\
  forall l content extra rag net,
    sendMessage (Some convId) l content extra rag net (snd r) =
    (Return false, snd r).
Proof.
  intros Hidle Hconv Hclean Htext Hleaf r. subst r.
  destruct (generateMessage_ended_exact convId leafNodeId errorBody chunks
              StreamDone st)
    as (p1 & st3 & -> & (_ & HconvId & _) & Hcontent & _ & Hstorage & _ & _
        & _ & _ & Hpending); eauto.
  rewrite accumulated_text in Hcontent.
  destruct (streamText chunks) as [|c t] eqn:Hst; [done|].
  erewrite persistPending_dangling;
    [|exact Hcontent|by rewrite Hstorage, HconvId].
  simpl in Hpending. cbn [fst snd].
  assert (Hbusy : isGeneratingIn st3 convId = true).
  { unfold isGeneratingIn. rewrite Hpending. apply bool_decide_eq_true. eauto. }
  split; [done|]. split; [done|].
  intros. apply sendMessage_rejected. by left.
Qed.

Lemma failed_append_leaves_pending_witness :
  isGeneratingIn
    (snd (generateMessage sampleConv 77
            (Responded 200 (Return None) [contentChunk "Hi"] StreamDone)
            sampleState)) sampleConv = true.
Proof.
  refine (proj1 (proj2 (failed_append_leaves_pending sampleConv 77 (Return None)
    [contentChunk "Hi"] sampleState _ _ _ _ _))).
  - vm_compute. reflexivity.
  - vm_compute. eauto.
  - repeat constructor; vm_compute; discriminate.
  - vm_compute. discriminate.
  - vm_compute. reflexivity.
Defined.

(** X8: the abort controller [generateMessage] registers is never taken
    out of [aborts] again: once a generation has started, the conversation
    has a controller, aborted if and only if the user stopped it. *)
Theorem controller_stays_registered convId leafNodeId net st :
  isGeneratingIn st convId = false ->
  is_Some (conversations (storage st) !! convId) ->
  let st' := snd (generateMessage convId leafNodeId net st) in
  is_Some (aborts st' !! convId) /\
  (cancelled net -> aborts st' !! convId = Some true) /\
  (forall errorBody chunks,
     net = Responded 200 errorBody chunks StreamDone ->
     Forall cleanChunk chunks -> aborts st' !! convId = Some false).
Proof.
  intros Hidle Hconv st'. subst st'.
  assert (Hended : forall errorBody chunks fin,
    Forall cleanChunk chunks -> fin = StreamDone \/ fin = UserStops ->
    aborts (snd (generateMessage convId leafNodeId
                   (Responded 200 errorBody chunks fin) st)) !! convId =
    Some (stoppedBy fin)).
  { intros errorBody chunks fin Hclean Hfin.
    destruct (generateMessage_ended_exact convId leafNodeId errorBody chunks
                fin st)
      as (p1 & st3 & -> & _ & _ & _ & _ & _ & _ & _ & Haborts & _); eauto.
    destruct (persistPending_others convId leafNodeId
                (clock st (ticks st) + 1) p1 st3) as [_ ->]. done. }
  split; [|split].
  - rewrite generateMessage_started by done.
    set (pendingId := (clock st (ticks st) + 1)%Z).
    set (p0 := newPending convId leafNodeId pendingId).
    set (st1 := started convId leafNodeId st).
    destruct (tryBlock_frame (config (storage st)) convId net p0 st1)
      as (p' & tried & Hrun & _).
    destruct (tryBlock_others (config (storage st)) convId net p0 st1)
      as [_ Haborts].
    destruct (tryBlock _ _ _ _ _) as [c st2]. simpl in Hrun, Haborts. subst c.
    destruct (afterTry_others convId leafNodeId pendingId p' tried st2)
      as [_ ->].
    destruct Haborts as [-> | ->]; subst st1; simpl.
    + rewrite lookup_insert_eq. eauto.
    + rewrite lookup_alter_eq, lookup_insert_eq. simpl. eauto.
  - intros [-> | (errorBody & chunks & -> & Hclean)].
    + rewrite generateMessage_started by done.
      rewrite tryBlock_stopped_early.
      match goal with
      | |- context [afterTry ?c ?l ?i ?p ?t ?s] =>
          destruct (afterTry_others c l i p t s) as [_ ->]
      end.
      unfold stopGenerating. run.
      by rewrite lookup_alter_eq, lookup_insert_eq.
    + by rewrite Hended by eauto.
  - intros errorBody chunks -> Hclean. by rewrite Hended by eauto.
Qed.

Lemma controller_stays_registered_witness :
  aborts (snd (generateMessage sampleConv 4
                 (Responded 200 (Return None) [contentChunk "Hel"] UserStops)
                 sampleState)) !! sampleConv = Some true.
Proof.
  refine (proj1 (proj2 (controller_stays_registered sampleConv 4
    (Responded 200 (Return None) [contentChunk "Hel"] UserStops)
    sampleState _ _)) _).
  - vm_compute. reflexivity.
  - vm_compute. eauto.
  - right. exists (Return None), [contentChunk "Hel"]. split; [reflexivity|].
    repeat constructor; vm_compute; discriminate.
Defined.

(** X9: over a stream of clean chunks that ends or is stopped,
    [generateMessage] calls [onChunk()] without argument once per chunk,
    in order, and shows the user nothing else.  It then calls
    [onChunk(pendingId)] once, provided no text was streamed or the node
    it replies to is in the store; when text was streamed and that node
    is not in the store, the append rejects and the last call is not
    made. *)
Theorem progress_calls convId leafNodeId errorBody chunks fin st :
  isGeneratingIn st convId = false ->
  is_Some (conversations (storage st) !! convId) ->
  Forall cleanChunk chunks ->
  fin = StreamDone \/ fin = UserStops ->
  let shown :=
    effects (snd (generateMessage convId leafNodeId
                    (Responded 200 errorBody chunks fin) st)) in
  (streamText chunks = [] \/
     is_Some (StorageUtils.findNode (storage st) convId leafNodeId) ->
   shown = effects st ++ replicate (length chunks) (OnChunk None)
                      ++ [OnChunk (Some (clock st (ticks st) + 1)%Z)]) /\
  (streamText chunks <> [] ->
   StorageUtils.findNode (storage st) convId leafNodeId = None ->
   shown = effects st ++ replicate (length chunks) (OnChunk None)).
Proof.
  intros Hidle Hconv Hclean Hfin shown. subst shown.
  destruct (generateMessage_ended_exact convId leafNodeId errorBody chunks
              fin st)
    as (p1 & st3 & -> & (_ & HconvId & _) & Hcontent & _ & Hstorage & _ & _
        & Heffects & _); eauto.
  rewrite accumulated_text in Hcontent.
  destruct (streamText chunks) as [|c t] eqn:Hst.
  - split; [|done]. intros _.
    rewrite persistPending_nothing by done. simpl.
    by rewrite Heffects, <- app_assoc.
  - split.
    + intros [?|Hleaf]; [done|].
      erewrite persistPending_found;
        [|exact Hcontent|by rewrite Hstorage, HconvId].
      simpl. by rewrite Heffects, <- app_assoc.
    + intros _ Hleaf.
      erewrite persistPending_dangling;
        [|exact Hcontent|by rewrite Hstorage, HconvId].
      done.
Qed.

Lemma progress_calls_witness :
  effects (snd (generateMessage sampleConv 4
                  (Responded 200 (Return None)
                     [contentChunk "Hel"; contentChunk "lo"] StreamDone)
                  sampleState)) =
  [OnChunk None; OnChunk None; OnChunk (Some 1001%Z)].
Proof.
  refine (proj1 (progress_calls sampleConv 4 (Return None)
           [contentChunk "Hel"; contentChunk "lo"] StreamDone sampleState
           _ _ _ _) _).
  - vm_compute. reflexivity.
  - vm_compute. eauto.
  - repeat constructor; vm_compute; discriminate.
  - by left.
  - right. vm_compute. eauto.
Defined.

(** The same stream for a node that is not in the store: the two calls
    per chunk and no more. *)
Example progress_calls_dangling :
  effects (snd (generateMessage sampleConv 77
                  (Responded 200 (Return None)
                     [contentChunk "Hel"; contentChunk "lo"] StreamDone)
                  sampleState)) =
  [OnChunk None; OnChunk None].
Proof. vm_compute. reflexivity. Qed.

Lemma latestTimings_last cfg t chunks :
  latestTimings cfg t chunks =
  if showTokensPerSecond cfg
  then match last (omap chunk_timings chunks) with
       | Some tm => Some tm
       | None => t
       end
  else t.
Proof.
  induction chunks as [|chunk chunks IH] using rev_ind.
  - simpl. by destruct (showTokensPerSecond cfg).
  - rewrite latestTimings_app, IH, omap_app. simpl.
    destruct (chunk_timings chunk) as [tm|]; simpl.
    + rewrite last_snoc. by destruct (showTokensPerSecond cfg).
    + by rewrite app_nil_r.
Qed.

(** X10: the reply that is persisted carries the timing report of the
    last chunk that had one when the configuration shows tokens per
    second, and no timing report at all when it does not. *)
Theorem persisted_timings convId leafNodeId errorBody chunks fin st :
  isGeneratingIn st convId = false ->
  is_Some (conversations (storage st) !! convId) ->
  Forall cleanChunk chunks ->
  fin = StreamDone \/ fin = UserStops ->
  streamText chunks <> [] ->
  is_Some (StorageUtils.findNode (storage st) convId leafNodeId) ->
  exists node,
    storage (snd (generateMessage convId leafNodeId
                    (Responded 200 errorBody chunks fin) st)) =
      StorageUtils.appended (storage st) (clock st (S (ticks st))) node
                            leafNodeId /\
    Node.content node = streamText chunks /\
    Node.timings node =
      if showTokensPerSecond (config (storage st))
      then last (omap chunk_timings chunks)
      else None.
Proof.
  intros Hidle Hconv Hclean Hfin Htext Hleaf.
  destruct (generateMessage_ended_exact convId leafNodeId errorBody chunks
              fin st)
    as (p1 & st3 & -> & (_ & HconvId & _) & Hcontent & Htimings & Hstorage
        & Hclock & Hticks & _); eauto.
  rewrite accumulated_text in Hcontent.
  destruct (streamText chunks) as [|c t] eqn:Hst; [done|].
  erewrite persistPending_found;
    [|exact Hcontent|by rewrite Hstorage, HconvId].
  exists (persistedNode p1 (c :: t)). simpl.
  rewrite Hstorage, Hclock, Hticks. split; [done|]. split; [done|].
  rewrite Htimings, latestTimings_last.
  destruct (showTokensPerSecond (config (storage st))); [|done].
  by destruct (last (omap chunk_timings chunks)).
Qed.

Lemma persisted_timings_witness :
  exists node,
    storage (snd (generateMessage sampleConv 4
                    (Responded 200 (Return None)
                       [ {| chunk_error := None;
                            chunk_choices := [Some (Js.lit "Hi")];
                            chunk_timings :=
                              Some {| prompt_n := 3; prompt_ms := 12;
                                      predicted_n := 1; predicted_ms := 40 |} |} ]
                       StreamDone)
                    sampleState)) =
      StorageUtils.appended (storage sampleState) 1001 node 4 /\
    Node.timings node = None.
Proof.
  destruct (persisted_timings sampleConv 4 (Return None)
    [ {| chunk_error := None; chunk_choices := [Some (Js.lit "Hi")];
         chunk_timings :=
           Some {| prompt_n := 3; prompt_ms := 12;
                   predicted_n := 1; predicted_ms := 40 |} |} ]
    StreamDone sampleState) as (node & Hstore & _ & Htimings).
  - vm_compute. reflexivity.
  - vm_compute. eauto.
  - repeat constructor; vm_compute; discriminate.
  - by left.
  - vm_compute. discriminate.
  - vm_compute. eauto.
  - exists node. split; [exact Hstore|exact Htimings].
Defined.

(** X11: while the stream is being read, the conversation counts as
    generating and its pending message shows the text received so far:
    after any non-empty run of clean chunks the loop stands before the
    rest of the stream with that message stored under the conversation. *)
Theorem pending_shows_text_so_far cfg convId fin good rest p st :
  Forall cleanChunk good -> good <> [] -> Node.content p = None ->
  exists p1 st1,
    consumeStream cfg convId p (good ++ rest) fin st =
      consumeStream cfg convId p1 rest fin st1 /\
    pendingMessages st1 !! convId = Some p1 /\
    isGeneratingIn st1 convId = true /\
    Node.content p1 =
      match streamText good with
      | [] => None
      | t => Some t
      end.
Proof.
  intros Hclean Hgood Hnone.
  destruct (consumeStream_clean_exact cfg convId fin good rest p st Hclean)
    as (p1 & st1 & Hrun & _ & Hcontent & _ & _ & _ & _ & Hpending).
  exists p1, st1. split; [done|].
  assert (Hshown : pendingMessages st1 !! convId = Some p1).
  { destruct good; [done|]. rewrite Hpending. by rewrite lookup_insert_eq. }
  split; [done|]. split.
  - unfold isGeneratingIn. rewrite Hshown. apply bool_decide_eq_true. eauto.
  - by rewrite Hcontent, Hnone, accumulated_text.
Qed.

Lemma pending_shows_text_so_far_witness :
  exists p1 st1,
    consumeStream (config (storage sampleState)) sampleConv
        (newPending sampleConv 4 1001)
        ([contentChunk "Hel"; contentChunk "lo"] ++ [contentChunk "!"])
        StreamDone sampleState =
      consumeStream (config (storage sampleState)) sampleConv p1
        [contentChunk "!"] StreamDone st1 /\
    pendingMessages st1 !! sampleConv = Some p1 /\
    Node.content p1 = Some (Js.lit "Hello").
Proof.
  destruct (pending_shows_text_so_far (config (storage sampleState)) sampleConv
    StreamDone [contentChunk "Hel"; contentChunk "lo"] [contentChunk "!"]
    (newPending sampleConv 4 1001) sampleState)
    as (p1 & st1 & Hrun & Hshown & _ & Hcontent).
  - repeat constructor; vm_compute; discriminate.
  - discriminate.
  - reflexivity.
  - exists p1, st1. split; [exact Hrun|]. split; [exact Hshown|exact Hcontent].
Defined.

(** X12: stopping a conversation for which nothing is pending and no
    controller is registered changes nothing at all; and stopping twice is
    the same as stopping once. *)
Theorem stopGenerating_idempotent convId st :
  (pendingMessages st !! convId = None -> aborts st !! convId = None ->
     stopGenerating convId st = (Return tt, st)) /\
  snd (stopGenerating convId (snd (stopGenerating convId st))) =
  snd (stopGenerating convId st).
Proof.
  assert (Hrun : forall s, stopGenerating convId s =
    (Return tt, with_aborts (alter (fun _ => true) convId)
                  (with_pendingMessages (delete convId) s))) by done.
  rewrite !Hrun. cbn [snd]. split.
  - intros Hpending Haborts. f_equal.
    destruct st. unfold with_aborts, with_pendingMessages. simpl in *.
    f_equal; [by apply delete_id|by apply alter_id'].
  - unfold with_aborts, with_pendingMessages. simpl.
    rewrite delete_delete_eq. f_equal.
    apply map_eq. intros k. destruct (decide (convId = k)) as [<-|Hk].
    + rewrite !lookup_alter_eq. by destruct (aborts st !! convId).
    + by rewrite !lookup_alter_ne.
Qed.

Lemma stopGenerating_idempotent_witness :
  stopGenerating (Js.lit "conv-2") sampleState = (Return tt, sampleState).
Proof.
  apply (proj1 (stopGenerating_idempotent (Js.lit "conv-2") sampleState)).
  - vm_compute. reflexivity.
  - vm_compute. reflexivity.
Defined.

(** * Further properties of the content rewriters *)

(** X13: a message that does not begin with a command is sent as it is
    and the retrieval endpoint plays no part in it, whatever it would have
    answered; a command that is not at the very start of the text does not
    count. *)
Theorem plain_message_ignores_rag convId leafNodeId content extra net st :
  ~ isCommand content ->
  forall rag1 rag2,
    sendMessage convId leafNodeId content extra rag1 net st =
    sendMessage convId leafNodeId content extra rag2 net st.
Proof.
  intros Hcmd rag1 rag2.
  destruct (isGeneratingIn st (default [] convId)) eqn:Hidle;
    [by rewrite !sendMessage_rejected by (by left)|].
  destruct (decide (Js.trim content = [])) as [Hblank|Hblank];
    [by rewrite !sendMessage_rejected by (by right)|].
  rewrite !sendMessage_accepted by done. unfold bind.
  by rewrite !rewriteContent_plain by done.
Qed.

Lemma plain_message_ignores_rag_witness :
  sendMessage (Some sampleConv) (Some 4%Z) (Js.lit "see /codebase please") None
    RagUnreachable (Responded 200 (Return None) [contentChunk "ok"] StreamDone)
    sampleState =
  sendMessage (Some sampleConv) (Some 4%Z) (Js.lit "see /codebase please") None
    (RagDocuments [[Js.lit "doc"]])
    (Responded 200 (Return None) [contentChunk "ok"] StreamDone) sampleState.
Proof.
  apply plain_message_ignores_rag.
  unfold isCommand, commandPrefixes. rewrite !Exists_cons, Exists_nil.
  vm_compute. intuition discriminate.
Defined.

Lemma getSubstitution_cons2 matched before after c d rest :
  Js.getSubstitution matched before after (c :: d :: rest) =
  if (c =? 36)%N then
    if (d =? 36)%N then 36%N :: Js.getSubstitution matched before after rest
    else if (d =? 38)%N then
      matched ++ Js.getSubstitution matched before after rest
    else if (d =? 96)%N then
      before ++ Js.getSubstitution matched before after rest
    else if (d =? 39)%N then
      after ++ Js.getSubstitution matched before after rest
    else c :: Js.getSubstitution matched before after (d :: rest)
  else c :: Js.getSubstitution matched before after (d :: rest).
Proof. done. Qed.

Lemma getSubstitution_single matched before after c :
  Js.getSubstitution matched before after [c] = [c].
Proof. cbn [Js.getSubstitution]. by destruct (c =? 36)%N. Qed.

(** [GetSubstitution] works through a template piece by piece wherever
    the next piece does not begin with a code unit that could complete a
    dollar form. *)
Lemma getSubstitution_app matched before after x c y :
  dollarForm c = false ->
  Js.getSubstitution matched before after (x ++ c :: y) =
  Js.getSubstitution matched before after x ++
  Js.getSubstitution matched before after (c :: y).
Proof.
  intros Hc.
  assert (Hnot : (c =? 36)%N = false /\ (c =? 38)%N = false /\
                 (c =? 96)%N = false /\ (c =? 39)%N = false).
  { unfold dollarForm in Hc. by repeat apply orb_false_iff in Hc as [Hc ?]. }
  destruct Hnot as (H36 & H38 & H96 & H39).
  remember (length x) as n eqn:Hn. revert x Hn.
  induction n as [n IH] using lt_wf_ind. intros x Hn.
  destruct x as [|d [|e x']].
  - done.
  - change ([d] ++ c :: y) with (d :: c :: y).
    rewrite getSubstitution_cons2, getSubstitution_single, H36, H38, H96, H39.
    by destruct (d =? 36)%N.
  - change ((d :: e :: x') ++ c :: y) with (d :: e :: (x' ++ c :: y)).
    assert (IHx' : Js.getSubstitution matched before after (x' ++ c :: y) =
                   Js.getSubstitution matched before after x' ++
                   Js.getSubstitution matched before after (c :: y)).
    { apply (IH (length x')); [simpl in Hn; lia|done]. }
    assert (IHe : Js.getSubstitution matched before after (e :: x' ++ c :: y) =
                  Js.getSubstitution matched before after (e :: x') ++
                  Js.getSubstitution matched before after (c :: y)).
    { apply (IH (length (e :: x')) ltac:(simpl in *; lia) (e :: x') eq_refl). }
    rewrite !getSubstitution_cons2.
    destruct (d =? 36)%N; [|by rewrite IHe].
    destruct (e =? 36)%N; [by rewrite IHx'|].
    destruct (e =? 38)%N; [by rewrite IHx', app_assoc|].
    destruct (e =? 96)%N; [by rewrite IHx', app_assoc|].
    destruct (e =? 39)%N; [by rewrite IHx', app_assoc|].
    by rewrite IHe.
Qed.

Lemma getSubstitution_cons_plain matched before after c rest :
  (c =? 36)%N = false ->
  Js.getSubstitution matched before after (c :: rest) =
  c :: Js.getSubstitution matched before after rest.
Proof.
  intros Hc. destruct rest; [apply getSubstitution_single|].
  by rewrite getSubstitution_cons2, Hc.
Qed.

Lemma getSubstitution_id matched before after template :
  plain template = true ->
  Js.getSubstitution matched before after template = template.
Proof.
  intros Hplain.
  rewrite <- (app_nil_r template) at 1.
  rewrite getSubstitution_plain by done. by rewrite app_nil_r.
Qed.

Lemma startsWith_prefix s p : Js.startsWith s p = true <-> p `prefix_of` s.
Proof.
  revert s. induction p as [|c p IH]; intros s.
  - split; [intros _; apply prefix_nil|by destruct s].
  - destruct s as [|d s]; simpl.
    + split; [done|]. by intros ?%prefix_nil_inv.
    + rewrite andb_true_iff, N.eqb_eq, IH. split.
      * intros [-> Hp]. by apply prefix_cons.
      * intros Hp. split; [by apply prefix_cons_inv_1 in Hp|
                           by apply prefix_cons_inv_2 in Hp].
Qed.

(** No command is the beginning of another: a text begins with at most
    one of them. *)
Lemma commands_exclusive content p1 p2 :
  p1 ∈ commandPrefixes -> p2 ∈ commandPrefixes -> p1 <> p2 ->
  Js.startsWith content p1 = true -> Js.startsWith content p2 = false.
Proof.
  intros Hp1 Hp2 Hne H1.
  destruct (Js.startsWith content p2) eqn:H2; [|done]. exfalso.
  apply startsWith_prefix in H1, H2.
  assert (Hall : Forall (fun a => Forall (fun b =>
            a = b \/ ~ a `prefix_of` b) commandPrefixes) commandPrefixes).
  { unfold commandPrefixes.
    repeat first [apply Forall_nil | apply Forall_cons; split
                 | progress cbv beta];
      first [ exact I | left; reflexivity
            | right; intros [k Hk]; vm_compute in Hk; discriminate ]. }
  rewrite Forall_forall in Hall.
  pose proof (Hall p1 Hp1) as H12. pose proof (Hall p2 Hp2) as H21.
  rewrite Forall_forall in H12, H21.
  destruct (H12 p2 Hp2) as [?|Hn12]; [done|].
  destruct (H21 p1 Hp1) as [?|Hn21]; [done|].
  destruct (prefix_weak_total p1 p2 content H1 H2); done.
Qed.

Lemma getSubstitution_nl2 matched before after x y :
  Js.getSubstitution matched before after (x ++ nl2 ++ y) =
  Js.getSubstitution matched before after x ++ nl2 ++
  Js.getSubstitution matched before after y.
Proof.
  change (x ++ nl2 ++ y) with (x ++ 10%N :: 10%N :: y).
  rewrite getSubstitution_app by done.
  by rewrite !getSubstitution_cons_plain by done.
Qed.

(** What [content.replace(command, directive + '\n\n' + docs + '\n\n' +
    content)] gives when the content begins with the command: the
    directive, then the documents and the content as [GetSubstitution]
    renders them, then what followed the command. *)
Lemma replace_command_splice content command directive docsString :
  Js.startsWith content command = true ->
  plain directive = true ->
  let rest := drop (length command) content in
  let render := Js.getSubstitution command [] rest in
  Js.replace content command
    (directive ++ nl2 ++ docsString ++ nl2 ++ content) =
  directive ++ nl2 ++ render docsString ++ nl2 ++ render content ++ rest.
Proof.
  intros Hstarts Hplain rest render. unfold Js.replace.
  rewrite indexOf_startsWith by done.
  change (take 0 content) with (@nil N).
  change (0 + length command)%nat with (length command).
  cbv zeta. fold rest. fold render.
  unfold render. rewrite !getSubstitution_nl2, getSubstitution_id by done.
  by rewrite <- !app_assoc.
Qed.

Lemma replacingRewriters_run command directive f content documents st :
  (command, directive, f) ∈ replacingRewriters ->
  plain directive = true /\
  f content (RagDocuments documents) st =
    (Return (Some (Js.replace content command
                     (directive ++ nl2 ++ allDocsString documents ++ nl2 ++
                      content))), st).
Proof.
  unfold replacingRewriters. rewrite !elem_of_cons, elem_of_nil.
  intros [Heq|[Heq|[Heq|[]]]]; injection Heq as -> -> ->;
    (split; [by vm_compute|done]).
Qed.

Lemma replacingRewriters_splice command directive f content documents st :
  (command, directive, f) ∈ replacingRewriters ->
  Js.startsWith content command = true ->
  let rest := drop (length command) content in
  let render := Js.getSubstitution command [] rest in
  f content (RagDocuments documents) st =
    (Return (Some (directive ++ nl2 ++ render (allDocsString documents) ++
                   nl2 ++ render content ++ rest)), st).
Proof.
  intros Hin Hstarts rest render.
  destruct (replacingRewriters_run _ _ _ content documents st Hin)
    as [Hplain ->].
  by rewrite replace_command_splice.
Qed.

(** X14: [fetchRAGCodebase], [fetchRAGProducts] and
    [fetchRAGDocumentation], given a content that begins with their
    command, when neither the content nor the retrieved documents hold a
    dollar sign, return the directive, the documents and the whole
    content, each followed by a blank line, and then once more what
    followed the command in the content: the query text stands twice in
    the result.  Nothing else changes.  (A dollar form in the content or
    in the documents is expanded by [replace], see X15.) *)
Theorem replacing_rewriter_repeats_query
    command directive f content documents st :
  (command, directive, f) ∈ replacingRewriters ->
  Js.startsWith content command = true ->
  plain content = true ->
  plain (allDocsString documents) = true ->
  f content (RagDocuments documents) st =
    (Return (Some (directive ++ nl2 ++ allDocsString documents ++ nl2 ++
                   content ++ drop (length command) content)), st).
Proof.
  intros Hin Hstarts Hcontent Hdocs.
  rewrite (replacingRewriters_splice _ _ _ _ _ _ Hin Hstarts).
  by rewrite !getSubstitution_id.
Qed.

Lemma replacing_rewriter_repeats_query_witness :
  fetchRAGProducts (Js.lit "/products red shoes")
    (RagDocuments [[Js.lit "boots"; Js.lit "sandals"]; [Js.lit "laces"]])
    sampleState =
  (Return (Some (directiveProducts ++ nl2 ++ Js.lit "boots sandals laces" ++
                 nl2 ++ Js.lit "/products red shoes" ++ Js.lit " red shoes")),
   sampleState).
Proof.
  apply (replacing_rewriter_repeats_query (Js.lit "/products")
           directiveProducts fetchRAGProducts (Js.lit "/products red shoes")
           [[Js.lit "boots"; Js.lit "sandals"]; [Js.lit "laces"]] sampleState).
  - unfold replacingRewriters. apply list_elem_of_further, list_elem_of_here.
  - reflexivity.
  - reflexivity.
  - reflexivity.
Defined.

(** X15: the retrieved documents are not inserted as they are.  Where they
    hold the two code units [$&], [content.replace] puts the command in
    their place: with documents [x$&y] ([x], [y] and the content without
    dollar signs) the rewriters that splice with [replace] return
    [x], the command and [y] where the documents should stand. *)
Theorem replacing_rewriter_expands_dollar_forms
    command directive f content documents x y st :
  (command, directive, f) ∈ replacingRewriters ->
  Js.startsWith content command = true ->
  plain content = true ->
  allDocsString documents = x ++ Js.lit "$&" ++ y ->
  plain x = true -> plain y = true ->
  f content (RagDocuments documents) st =
    (Return (Some (directive ++ nl2 ++ (x ++ command ++ y) ++ nl2 ++
                   content ++ drop (length command) content)), st).
Proof.
  intros Hin Hstarts Hcontent Hdocs Hx Hy.
  rewrite (replacingRewriters_splice _ _ _ _ _ _ Hin Hstarts), Hdocs.
  rewrite getSubstitution_plain by done.
  change (Js.lit "$&" ++ y) with (36%N :: 38%N :: y).
  rewrite getSubstitution_cons2. cbn [N.eqb Pos.eqb].
  by rewrite !getSubstitution_id.
Qed.

Lemma replacing_rewriter_expands_dollar_forms_witness :
  fetchRAGCodebase (Js.lit "/codebase parser")
    (RagDocuments [[Js.lit "cost: 5$&up"]]) sampleState =
  (Return (Some (directiveCodebase ++ nl2 ++
                 (Js.lit "cost: 5" ++ Js.lit "/codebase" ++ Js.lit "up") ++
                 nl2 ++ Js.lit "/codebase parser" ++ Js.lit " parser")),
   sampleState).
Proof.
  apply (replacing_rewriter_expands_dollar_forms (Js.lit "/codebase")
           directiveCodebase fetchRAGCodebase (Js.lit "/codebase parser")
           [[Js.lit "cost: 5$&up"]] (Js.lit "cost: 5") (Js.lit "up")
           sampleState).
  - unfold replacingRewriters. apply list_elem_of_here.
  - reflexivity.
  - reflexivity.
  - reflexivity.
  - reflexivity.
  - reflexivity.
Defined.

(** X16: for a content that begins with [/medical_records] the dispatch of
    [sendMessage] reaches [fetchRAGMedRecords] and no other rewriter, and
    the rewritten content is the directive, the retrieved documents and
    the whole content joined by blank lines, whatever code units they
    hold: this rewriter does not go through [replace], so nothing is
    expanded and nothing is repeated. *)
Theorem medical_records_inserted_verbatim content documents st :
  Js.startsWith content (Js.lit "/medical_records") = true ->
  rewriteContent content (RagDocuments documents) st =
    (Return (directiveMedRecords ++ nl2 ++ allDocsString documents ++ nl2 ++
             content), st).
Proof.
  intros Hstarts.
  assert (Hother : forall p, p ∈ commandPrefixes ->
            p <> Js.lit "/medical_records" -> Js.startsWith content p = false).
  { intros p Hp Hne. apply (commands_exclusive content _ p) in Hstarts; try done.
    unfold commandPrefixes. by repeat constructor. }
  unfold rewriteContent.
  rewrite (Hother (Js.lit "/codebase")), (Hother (Js.lit "/products")),
    (Hother (Js.lit "/documentation")), Hstarts;
    try (by vm_compute); try (unfold commandPrefixes; by repeat constructor).
Qed.

Lemma medical_records_inserted_verbatim_witness :
  rewriteContent (Js.lit "/medical_records $& fever")
    (RagDocuments [[Js.lit "visit $& 12"]]) sampleState =
  (Return (directiveMedRecords ++ nl2 ++ Js.lit "visit $& 12" ++ nl2 ++
           Js.lit "/medical_records $& fever"), sampleState).
Proof.
  apply (medical_records_inserted_verbatim (Js.lit "/medical_records $& fever")
           [[Js.lit "visit $& 12"]] sampleState).
  reflexivity.
Defined.

(** * Further properties of the branch resolver *)

Lemma buildNodeMap_elem msgs i node :
  buildNodeMap msgs !! i = Some node -> node ∈ msgs.
Proof.
  revert i node. induction msgs as [|m msgs IH] using rev_ind; intros i node.
  - unfold buildNodeMap. simpl. by rewrite lookup_empty.
  - rewrite buildNodeMap_snoc, elem_of_app, list_elem_of_singleton.
    destruct (decide (Node.id m = i)) as [<-|Hne].
    + rewrite lookup_insert_eq. intros [= <-]. by right.
    + rewrite lookup_insert_ne by done. intros H. left. by eapply IH.
Qed.

(** X17: the node map built by the [for (const msg of msgs)] loop holds,
    under each id, the last message of the list that carries this id, and
    nothing under an id that no message carries: of two messages with the
    same id the earlier one is invisible to the resolver. *)
Theorem buildNodeMap_keeps_last (msgs : list Message) (i : Z) :
  buildNodeMap msgs !! i = last (filter (fun m => Node.id m = i) msgs).
Proof.
  induction msgs as [|m msgs IH] using rev_ind.
  - unfold buildNodeMap. simpl. by rewrite lookup_empty.
  - rewrite buildNodeMap_snoc, filter_app.
    destruct (decide (Node.id m = i)) as [Heq|Hne].
    + rewrite filter_cons_True, filter_nil by done.
      rewrite last_snoc. subst i. by rewrite lookup_insert_eq.
    + rewrite filter_cons_False, filter_nil, app_nil_r by done.
      by rewrite lookup_insert_ne.
Qed.

Lemma leafDescent_step_inv nodeMap n i c r :
  leafDescent nodeMap n i r -> lastChildLink nodeMap i c ->
  exists n', n = S n' /\ leafDescent nodeMap n' c r.
Proof.
  intros Hd (node & Hi & Hc). inversion Hd; subst; simplify_eq.
  - match goal with H : Node.children _ = [] |- _ => by rewrite H in Hc end.
  - eauto.
Qed.

Lemma leafDescent_rtc nodeMap n i j r :
  rtc (lastChildLink nodeMap) i j -> leafDescent nodeMap n i r ->
  exists n', (n' <= n)%nat /\ leafDescent nodeMap n' j r.
Proof.
  intros Hpath. revert n.
  induction Hpath as [i|i c j Hlink _ IH]; intros n Hd.
  - exists n. split; [lia|done].
  - destruct (leafDescent_step_inv _ _ _ _ _ Hd Hlink) as (n' & -> & Hd').
    destruct (IH _ Hd') as (n'' & Hle & Hd''). exists n''. split; [lia|done].
Qed.

Lemma leafDescent_tc nodeMap n i j r :
  tc (lastChildLink nodeMap) i j -> leafDescent nodeMap n i r ->
  exists n', (n' < n)%nat /\ leafDescent nodeMap n' j r.
Proof.
  intros Hpath. revert n.
  induction Hpath as [i j Hlink|i c j Hlink _ IH]; intros n Hd.
  - destruct (leafDescent_step_inv _ _ _ _ _ Hd Hlink) as (n' & -> & Hd').
    exists n'. split; [lia|done].
  - destruct (leafDescent_step_inv _ _ _ _ _ Hd Hlink) as (n' & -> & Hd').
    destruct (IH _ Hd') as (n'' & Hlt & Hd''). exists n''. split; [lia|done].
Qed.

(** X18: [findLeafNode] does not return when the last-child links lead
    from the starting id into a cycle: the [while] loop then runs for
    ever.  (In the model the loop is given as many iterations as the map
    has nodes, which every run that ends stays within, so [None] stands
    for a run that does not end.) *)
Theorem findLeafNode_cycle_diverges (nodeMap : gmap Z Message) (msgId j : Z) :
  rtc (lastChildLink nodeMap) msgId j ->
  tc (lastChildLink nodeMap) j j ->
  findLeafNode nodeMap msgId = None /\
  forall fuel, findLeafNode_loop nodeMap fuel (nodeMap !! msgId) = None.
Proof.
  intros Hreach Hcycle.
  assert (Hnone : forall n r, ~ leafDescent nodeMap n msgId r).
  { intros n r Hd.
    destruct (leafDescent_rtc _ _ _ _ _ Hreach Hd) as (n1 & _ & Hd1).
    destruct (leafDescent_tc _ _ _ _ _ Hcycle Hd1) as (n2 & Hlt & Hd2).
    destruct (leafDescent_det _ _ _ _ _ _ Hd1 Hd2) as [-> _]. lia. }
  split.
  - destruct (findLeafNode nodeMap msgId) as [r|] eqn:Hrun; [|done].
    apply findLeafNode_spec in Hrun as [n Hd]. by destruct (Hnone n r).
  - intros fuel.
    destruct (findLeafNode_loop nodeMap fuel (nodeMap !! msgId)) as [res|] eqn:Hrun;
      [|done].
    apply findLeafNode_loop_sound in Hrun as (n & _ & Hd).
    by destruct (Hnone n (leafId res)).
Qed.

Lemma findLeafNode_cycle_diverges_witness :
  findLeafNode selfLoop 5 = None /\
  forall fuel, findLeafNode_loop selfLoop fuel (selfLoop !! 5%Z) = None.
Proof.
  apply (findLeafNode_cycle_diverges selfLoop 5 5).
  - apply rtc_refl.
  - apply tc_once. eexists. split; reflexivity.
Defined.

(** X19: on the node map built from a message list, what [findLeafNode]
    returns is [-1] or the id of a message of the list that has no
    children, and asking again from that id gives the same answer. *)
Theorem findLeafNode_returns_leaf (msgs : list Message) (msgId r : Z) :
  findLeafNode (buildNodeMap msgs) msgId = Some r ->
  r = (-1)%Z \/
  exists node, node ∈ msgs /\ Node.id node = r /\ Node.children node = [] /\
               findLeafNode (buildNodeMap msgs) r = Some r.
Proof.
  intros [n Hd]%findLeafNode_spec.
  induction Hd as [i Hi|i node Hi Hch|n i node c r Hi Hc Hd IH].
  - by left.
  - right. exists node. pose proof (buildNodeMap_id _ _ _ Hi) as Hid.
    split; [by eapply buildNodeMap_elem|]. split; [done|]. split; [done|].
    apply findLeafNode_spec. exists 0%nat. rewrite Hid.
    rewrite <- Hid at 2. by apply descent_leaf.
  - done.
Qed.

Lemma findLeafNode_returns_leaf_witness :
  3%Z = (-1)%Z \/
  exists node, node ∈ sampleMsgs /\ Node.id node = 3%Z /\
               Node.children node = [] /\
               findLeafNode (buildNodeMap sampleMsgs) 3 = Some 3%Z.
Proof.
  apply (findLeafNode_returns_leaf sampleMsgs 2 3).
  vm_compute. reflexivity.
Defined.

Lemma positionOf_bound siblings x i :
  positionOf siblings x i -> (-1 <= i < Z.of_nat (length siblings))%Z.
Proof.
  intros [Hin Hout]. destruct (decide (x ∈ siblings)) as [Hx|Hx].
  - destruct (Hin Hx) as (Hpos & Hat & _).
    apply lookup_lt_Some in Hat. lia.
  - rewrite (Hout Hx). lia.
Qed.

(** X20: in every entry that [getListMessageDisplay] returns there is one
    sibling leaf per child of the parent, and [siblingCurrIdx] is [-1] or
    an index into [siblingLeafNodeIds]: it never points past the list. *)
Theorem getListMessageDisplay_index_in_range
    (filterByLeafNodeId : list Message -> Z -> bool -> list Message)
    (msgs : list Message) (leafNodeId : Z) (res : list MessageDisplay)
    (d : MessageDisplay) :
  getListMessageDisplay filterByLeafNodeId msgs leafNodeId = Some res ->
  d ∈ res ->
  (exists parentNode,
     buildNodeMap msgs !! Node.parent (msg d) = Some parentNode /\
     length (siblingLeafNodeIds d) = length (Node.children parentNode)) /\
  (-1 <= siblingCurrIdx d < Z.of_nat (length (siblingLeafNodeIds d)))%Z.
Proof.
  intros Hres Hd. apply displayLoop_entries in Hres.
  assert (Hentry : exists m, entryFor (buildNodeMap msgs) m d).
  { revert Hd. induction Hres as [|m d' kept res Hm _ IH]; [by intros ?%elem_of_nil|].
    intros [->|Hin]%elem_of_cons; eauto. }
  destruct Hentry as (m & Hm & parentNode & Hparent & Hleaves & Hpos).
  apply Forall2_length in Hleaves. apply positionOf_bound in Hpos.
  split; [|lia]. exists parentNode. by rewrite Hm.
Qed.

Lemma getListMessageDisplay_index_in_range_witness :
  (exists parentNode,
     buildNodeMap sampleMsgs !! 1%Z = Some parentNode /\
     length [3; 4]%Z = length (Node.children parentNode)) /\
  (-1 <= 0 < Z.of_nat (length [3; 4]%Z))%Z.
Proof.
  apply (getListMessageDisplay_index_in_range filterByLeafNodeId_spec
           sampleMsgs 3
           [ {| msg := sampleNode 2 text user 1 [3]%Z;
                siblingLeafNodeIds := [3; 4]%Z; siblingCurrIdx := 0 |};
             {| msg := sampleNode 3 text assistant 2 [];
                siblingLeafNodeIds := [3]%Z; siblingCurrIdx := 0 |} ]
           {| msg := sampleNode 2 text user 1 [3]%Z;
              siblingLeafNodeIds := [3; 4]%Z; siblingCurrIdx := 0 |}).
  - vm_compute. reflexivity.
  - apply list_elem_of_here.
Defined.

(** * Properties of the chat screen *)

Lemma dropdownInRange_setValue v ui :
  dropdownInRange ui -> dropdownInRange (setValue v ui).
Proof. done. Qed.

Lemma handleTextareaKeyDown_inRange toLowerCase e ui :
  dropdownInRange ui ->
  dropdownInRange (fst (handleTextareaKeyDown toLowerCase e ui)).
Proof.
  intros [Hsub Hidx]. unfold handleTextareaKeyDown. cbv zeta.
  repeat match goal with
         | |- context [if ?b then _ else _] => destruct b eqn:?
         end; cbn [fst]; try (by split).
  all: split; cbn [filteredOptions highlightedIndex setShowDropdown
                   setFilteredOptions setHighlightedIndex screenCall
                   handleOptionClick setValue]; try done.
  all: try (intros _; vm_compute; split; congruence).
  all: try (intros Hne; specialize (Hidx Hne); lia).
  all: try (intros Hne; destruct (filter _ _); [done|simpl; lia]).
  by intros x [_ ?]%list_elem_of_filter.
Qed.

Lemma typeAndPress_inRange toLowerCase prefilled steps :
  dropdownInRange (foldl (typeAndPress toLowerCase) (initialScreen prefilled) steps).
Proof.
  induction steps as [|step steps IH] using rev_ind.
  - split; [by intros x ?%elem_of_nil|done].
  - rewrite foldl_app. cbn [foldl]. unfold typeAndPress at 1.
    by apply handleTextareaKeyDown_inRange, dropdownInRange_setValue.
Qed.

Lemma optionAt_inRange ui :
  dropdownInRange ui -> filteredOptions ui <> [] ->
  exists o, optionAt (filteredOptions ui) (highlightedIndex ui) = Some o /\
            o ∈ ragCollections.
Proof.
  intros [Hsub Hidx] Hne. specialize (Hidx Hne). unfold optionAt.
  rewrite decide_True by lia.
  destruct (lookup_lt_is_Some_2 (filteredOptions ui)
              (Z.to_nat (highlightedIndex ui))) as [o Ho]; [lia|].
  exists o. split; [done|]. apply Hsub. by eapply list_elem_of_lookup_2.
Qed.

(** X21: whatever the user types and whichever keys go down after the
    component is mounted, Enter on an open dropdown that lists something
    puts one of the collections into the textarea: the highlighted index
    never leaves the filtered options, so [handleOptionClick] is never
    called with [undefined]. *)
Theorem dropdown_enter_selects_collection toLowerCase prefilled steps e :
  let ui := foldl (typeAndPress toLowerCase) (initialScreen prefilled) steps in
  pressesEnter e ->
  showDropdown ui = true -> filteredOptions ui <> [] ->
  exists o, o ∈ ragCollections /\
    handleTextareaKeyDown toLowerCase e ui =
      (setShowDropdown false
         (handleOptionClick (Some o) (screenCall PreventDefault ui)), false).
Proof.
  intros ui (Hcomp & Hcode & Hkey & Hshift) Hshown Hne.
  destruct (optionAt_inRange ui (typeAndPress_inRange _ _ _) Hne)
    as (o & Ho & Hin).
  exists o. split; [done|]. unfold handleTextareaKeyDown. cbv zeta.
  rewrite Hcomp, Hkey, Hshift, Hshown, Ho.
  rewrite (bool_decide_eq_false_2 _ Hcode).
  rewrite (bool_decide_eq_false_2 (Js.lit "Enter" = Js.lit "/"))
    by (by vm_compute).
  rewrite (bool_decide_eq_true_2 (Js.lit "Enter" = Js.lit "Enter")) by done.
  rewrite bool_decide_eq_true_2; [done|].
  destruct (filteredOptions ui); [done|simpl; lia].
Qed.

Lemma dropdown_enter_selects_collection_witness :
  exists o, o ∈ ragCollections /\
    handleTextareaKeyDown id (keyDown "Enter")
      (foldl (typeAndPress id) (initialScreen [])
         [ ([], keyDown "/"); (Js.lit "/", keyDown "ArrowDown");
           (Js.lit "/", keyDown "ArrowDown") ]) =
    (setShowDropdown false
       (handleOptionClick (Some o)
          (screenCall PreventDefault
             (foldl (typeAndPress id) (initialScreen [])
                [ ([], keyDown "/"); (Js.lit "/", keyDown "ArrowDown");
                  (Js.lit "/", keyDown "ArrowDown") ]))), false).
Proof.
  apply (dropdown_enter_selects_collection id []
           [ ([], keyDown "/"); (Js.lit "/", keyDown "ArrowDown");
             (Js.lit "/", keyDown "ArrowDown") ] (keyDown "Enter")).
  - vm_compute. repeat split; discriminate.
  - vm_compute. reflexivity.
  - vm_compute. discriminate.
Defined.

Lemma splitOn_nonempty sep s : splitOn sep s <> [].
Proof.
  destruct s as [|c rest]; simpl; [done|].
  destruct (c =? sep)%N; [done|]. by destruct (splitOn sep rest).
Qed.

Lemma splitOn_no_sep sep s : sep ∉ s -> splitOn sep s = [s].
Proof.
  induction s as [|c rest IH]; simpl; [done|].
  intros Hnot. apply not_elem_of_cons in Hnot as [Hne Hrest].
  destruct (N.eqb_spec c sep) as [->|_]; [done|]. by rewrite IH.
Qed.

Lemma splitOn_app sep x w :
  splitOn sep (x ++ sep :: w) = splitOn sep x ++ splitOn sep w.
Proof.
  induction x as [|c x IH]; simpl.
  - by rewrite N.eqb_refl.
  - destruct (c =? sep)%N; [by rewrite IH|]. rewrite IH.
    pose proof (splitOn_nonempty sep x). by destruct (splitOn sep x).
Qed.

(** The last word is what follows the last space. *)
Lemma lastWord_app before w :
  before = [] \/ last before = Some 32%N -> 32%N ∉ w ->
  lastWord (before ++ w) = w.
Proof.
  intros Hbefore Hw. unfold lastWord.
  destruct Hbefore as [->|Hlast].
  - simpl. by rewrite splitOn_no_sep.
  - apply last_Some in Hlast as [x ->].
    rewrite <- app_assoc. cbn [app]. rewrite splitOn_app.
    rewrite (splitOn_no_sep _ w) by done. by rewrite last_snoc.
Qed.

(** X22: [handleOptionClick] replaces the last word of the textarea, that
    is what follows the last space, by a slash, the option and a space,
    and leaves everything before it as it is; it closes the dropdown and
    touches neither the view nor the filtered options. *)
Theorem handleOptionClick_replaces_last_word before w o ui :
  textareaValue ui = before ++ w ->
  before = [] \/ last before = Some 32%N ->
  32%N ∉ w ->
  let ui' := handleOptionClick (Some o) ui in
  textareaValue ui' = before ++ Js.lit "/" ++ o ++ Js.lit " " /\
  lastWord (textareaValue ui') = [] /\
  showDropdown ui' = false /\
  currNodeId ui' = currNodeId ui /\
  filteredOptions ui' = filteredOptions ui /\
  highlightedIndex ui' = highlightedIndex ui.
Proof.
  intros Hvalue Hbefore Hw ui'. subst ui'. unfold handleOptionClick.
  cbn [textareaValue showDropdown currNodeId filteredOptions highlightedIndex
       screenCall setShowDropdown setValue default from_option].
  rewrite Hvalue, lastWord_app by done.
  rewrite length_app, Nat.add_sub, take_app_length.
  split; [done|]. split; [|done].
  change (Js.lit " ") with [32%N]. rewrite !app_assoc.
  match goal with |- lastWord ?v = [] => rewrite <- (app_nil_r v) end.
  apply lastWord_app; [|by intros ?%elem_of_nil].
  right. by rewrite last_snoc.
Qed.

Lemma handleOptionClick_replaces_last_word_witness :
  textareaValue
    (handleOptionClick (Some (Js.lit "products"))
       (setValue (Js.lit "find me /pro") (initialScreen []))) =
  Js.lit "find me /products ".
Proof.
  refine (proj1 (handleOptionClick_replaces_last_word (Js.lit "find me ")
                   (Js.lit "/pro") (Js.lit "products")
                   (setValue (Js.lit "find me /pro") (initialScreen []))
                   _ _ _)).
  - reflexivity.
  - right. reflexivity.
  - vm_compute. intros H. by repeat (apply elem_of_cons in H as [?|H]; [done|]);
      apply elem_of_nil in H.
Defined.

Lemma ragCollections_commands o :
  o ∈ ragCollections -> isCommand (Js.lit "/" ++ o ++ Js.lit " ").
Proof.
  unfold ragCollections, isCommand, commandPrefixes.
  rewrite !elem_of_cons, elem_of_nil, !Exists_cons, Exists_nil.
  intros [->|[->|[->|[->|[]]]]]; vm_compute; tauto.
Qed.

(** X23: an option of the dropdown chosen as the first word of the
    textarea gives a text that [sendMessage] takes as a command: every
    collection the screen offers, with a slash in front, begins with one
    of the four command prefixes, and the text is not blank, so the guard
    of [sendMessage] lets it through to the rewriters. *)
Theorem chosen_collection_is_command o ui :
  o ∈ ragCollections -> 32%N ∉ textareaValue ui ->
  let content := textareaValue (handleOptionClick (Some o) ui) in
  isCommand content /\ Js.trim content <> [] /\
  forall convId leafNodeId extra rag net st,
    isGeneratingIn st (default [] convId) = false ->
    sendMessage convId leafNodeId content extra rag net st =
    (let* content := rewriteContent content rag in
     sendRewritten convId leafNodeId content extra net) st.
Proof.
  intros Ho Hword content.
  assert (Hcontent : content = Js.lit "/" ++ o ++ Js.lit " ").
  { subst content. unfold handleOptionClick.
    cbn [textareaValue screenCall setShowDropdown setValue default from_option].
    rewrite <- (app_nil_l (textareaValue ui)) at 1 2 3.
    rewrite lastWord_app; [|by left|done].
    by rewrite length_app, Nat.add_sub. }
  assert (Hcmd : isCommand content).
  { rewrite Hcontent. by apply ragCollections_commands. }
  split; [done|]. split; [by apply isCommand_not_blank|].
  intros convId leafNodeId extra rag net st Hidle.
  apply sendMessage_accepted; [done|by apply isCommand_not_blank].
Qed.

Lemma chosen_collection_is_command_witness :
  isCommand (textareaValue
    (handleOptionClick (Some (Js.lit "medical_records case:14338"))
       (setValue (Js.lit "/med") (initialScreen [])))).
Proof.
  refine (proj1 (chosen_collection_is_command
                   (Js.lit "medical_records case:14338")
                   (setValue (Js.lit "/med") (initialScreen [])) _ _)).
  - vm_compute. repeat constructor.
  - vm_compute. intros H. by repeat (apply elem_of_cons in H as [?|H]; [done|]);
      apply elem_of_nil in H.
Defined.

Lemma quietly_refl st : quietly st st.
Proof. exists []. by rewrite app_nil_r. Qed.

Lemma quietly_same st st' : effects st' = effects st -> quietly st st'.
Proof. intros He. exists []. by rewrite He, app_nil_r. Qed.

Lemma quietly_trans st1 st2 st3 :
  quietly st1 st2 -> quietly st2 st3 -> quietly st1 st3.
Proof.
  intros (a & Ha & Hqa) (b & Hb & Hqb). exists (a ++ b).
  split; [by rewrite Hb, Ha, app_assoc|by apply Forall_app].
Qed.

Lemma consumeChunk_quietly cfg convId p chunk st :
  quietly st (snd (consumeChunk cfg convId p chunk st)).
Proof.
  destruct (consumeChunk cfg convId p chunk st) as [[p1|e] st1] eqn:Hstep.
  - apply consumeChunk_returns in Hstep as ->.
    exists [OnChunk None]. split; [done|]. by repeat constructor.
  - apply consumeChunk_throws in Hstep as ->. apply quietly_refl.
Qed.

Lemma consumeStream_quietly cfg convId fin chunks p st :
  quietly st (snd (consumeStream cfg convId p chunks fin st)).
Proof.
  revert p st. induction chunks as [|chunk rest IH]; intros p st.
  - destruct fin; by apply quietly_same.
  - rewrite consumeStream_cons.
    pose proof (consumeChunk_quietly cfg convId p chunk st) as Hstep.
    destruct (consumeChunk cfg convId p chunk st) as [[p1|e] st1];
      simpl in Hstep; [|done].
    eapply quietly_trans; [exact Hstep|apply IH].
Qed.

Lemma tryBlock_quietly cfg convId net p st :
  quietly st (snd (tryBlock cfg convId p net st)).
Proof.
  destruct net as [e| |status errorBody chunks fin]; simpl.
  - apply quietly_refl.
  - by apply quietly_same.
  - case_decide.
    + destruct errorBody; apply quietly_refl.
    + apply consumeStream_quietly.
Qed.

(** What [generateMessage] shows once it has started: effects that do not
    move the view, and then, if and only if it returns, [onChunk] with the
    id of the pending message. *)
Lemma generateMessage_trace convId leafNodeId net st :
  isGeneratingIn st convId = false ->
  is_Some (conversations (storage st) !! convId) ->
  let r := generateMessage convId leafNodeId net st in
  exists q, Forall quiet q /\
    effects (snd r) = effects st ++ q ++
      match fst r with
      | Return _ => [OnChunk (Some (clock st (ticks st) + 1)%Z)]
      | Throw _ => []
      end.
Proof.
  intros Hidle Hconv r. subst r.
  rewrite generateMessage_started by done.
  set (pendingId := (clock st (ticks st) + 1)%Z).
  set (p0 := newPending convId leafNodeId pendingId).
  set (st1 := started convId leafNodeId st).
  destruct (tryBlock_frame (config (storage st)) convId net p0 st1)
    as (p' & tried & Hrun & _).
  destruct (tryBlock_quietly (config (storage st)) convId net p0 st1)
    as (q & Hq & Hquiet).
  destruct (tryBlock _ _ _ _ _) as [c st2]. simpl in Hrun, Hq. subst c.
  assert (Hpersist : forall st3, effects st3 = effects st2 ->
    let r := persistPending convId leafNodeId pendingId p' st3 in
    exists q, Forall quiet q /\
      effects (snd r) = effects st ++ q ++
        match fst r with
        | Return _ => [OnChunk (Some pendingId)]
        | Throw _ => []
        end).
  { intros st3 He3. exists q. split; [done|].
    destruct (Node.content p') as [content|] eqn:Hcontent.
    - destruct (StorageUtils.findNode (storage st3) (Node.convId p') leafNodeId)
        as [parentNode|] eqn:Hleaf.
      + erewrite persistPending_found by eauto. simpl.
        by rewrite He3, Hq, <- app_assoc.
      + erewrite persistPending_dangling by eauto. simpl.
        by rewrite He3, Hq, app_nil_r.
    - rewrite persistPending_nothing by done. simpl.
      by rewrite He3, Hq, <- app_assoc. }
  destruct tried as [[]|err].
  - rewrite afterTry_ended by eauto. by apply Hpersist.
  - destruct (decide (err_name err = Js.lit "AbortError")) as [Hname|Hname].
    + unfold afterTry, catchBlock. run.
      destruct (decide (err_name err = Js.lit "AbortError")); [|done].
      by apply Hpersist.
    + rewrite afterTry_failed by done. simpl.
      exists (q ++ [Alert (err_message err)]). split.
      * apply Forall_app. split; [done|]. by repeat constructor.
      * by rewrite Hq, app_nil_r, <- app_assoc.
Qed.

Lemma lastShown_app a b shown :
  lastShown (a ++ b) shown = lastShown b (lastShown a shown).
Proof. unfold lastShown. by rewrite foldl_app. Qed.

Lemma lastShown_quiet trace shown :
  Forall quiet trace -> lastShown trace shown = shown.
Proof.
  intros Hquiet. revert shown.
  induction Hquiet as [|e trace He _ IH]; intros shown; [done|].
  simpl. destruct e as [| |[nodeId|]|]; try done; apply IH.
Qed.

(** Playing a trace on the screen moves the view and scrolls, and touches
    neither the textarea nor the dropdown. *)
Lemma replayChunks_fields trace ui :
  currNodeId (replayChunks trace ui) = lastShown trace (currNodeId ui) /\
  textareaValue (replayChunks trace ui) = textareaValue ui /\
  showDropdown (replayChunks trace ui) = showDropdown ui /\
  filteredOptions (replayChunks trace ui) = filteredOptions ui /\
  highlightedIndex (replayChunks trace ui) = highlightedIndex ui /\
  exists scrolls,
    screenCalls (replayChunks trace ui) = screenCalls ui ++ scrolls /\
    Forall (fun c => c = ScrollToBottom true) scrolls.
Proof.
  revert ui. induction trace as [|e trace IH]; intros ui.
  - simpl. repeat split; try done. exists []. by rewrite app_nil_r.
  - simpl.
    set (ui1 := match e with
                | OnChunk currLeafNodeId => screenOnChunk currLeafNodeId ui
                | _ => ui
                end).
    destruct (IH ui1) as (Hc & Hv & Hs & Hf & Hh & scrolls & Hcalls & Hall).
    fold (replayChunks trace ui1). rewrite Hc, Hv, Hs, Hf, Hh, Hcalls.
    assert (Hstep : currNodeId ui1 =
                      lastShown [e] (currNodeId ui) /\
                    textareaValue ui1 = textareaValue ui /\
                    showDropdown ui1 = showDropdown ui /\
                    filteredOptions ui1 = filteredOptions ui /\
                    highlightedIndex ui1 = highlightedIndex ui /\
                    exists step, screenCalls ui1 = screenCalls ui ++ step /\
                                 Forall (fun c => c = ScrollToBottom true) step).
    { subst ui1. destruct e as [| |[nodeId|]|]; simpl;
        try (repeat split; try done; exists []; by rewrite app_nil_r).
      - unfold screenOnChunk. case_decide; simpl;
          (repeat split; try done; eexists; split; [done|by repeat constructor]).
      - repeat split; try done. eexists. split; [done|by repeat constructor]. }
    destruct Hstep as (Hc1 & Hv1 & Hs1 & Hf1 & Hh1 & step & Hstep & Hall1).
    rewrite Hc1, Hv1, Hs1, Hf1, Hh1. repeat split; try done.
    exists (step ++ scrolls). split; [by rewrite Hstep, app_assoc|].
    by apply Forall_app.
Qed.

Lemma navigations_app a b : navigations (a ++ b) = navigations a ++ navigations b.
Proof. apply omap_app. Qed.

Lemma navigations_quiet trace : Forall quiet trace -> navigations trace = [].
Proof.
  induction 1 as [|e trace He _ IH]; [done|].
  unfold navigations in *. simpl. by destruct e as [| |[]|].
Qed.

(** A trace without [navigate] leaves the conversation on screen as it
    is: only the [onChunk] calls are played. *)
Lemma replaySend_settled currConvId resetAfter trace ui :
  navigations trace = [] ->
  replaySend currConvId resetAfter trace ui = replayChunks trace ui.
Proof.
  intros Hnav. unfold replaySend.
  assert (Hfold : foldl (replayStep currConvId resetAfter) (Settled, ui) trace =
                  (Settled, replayChunks trace ui)); [|by rewrite Hfold].
  revert ui Hnav. induction trace as [|e trace IH]; intros ui Hnav; [done|].
  destruct e as [message|path|currLeafNodeId|err]; try done;
    simpl; by apply IH.
Qed.

Lemma userAppended_found c l content extra st :
  is_Some (StorageUtils.findNode (storage st) c l) ->
  effects (userAppended c l content extra st) =
    effects st ++ [OnChunk (Some (clock st (ticks st)))] /\
  clock (userAppended c l content extra st) = clock st /\
  ticks (userAppended c l content extra st) = S (S (ticks st)).
Proof. intros [parentNode Hleaf]. unfold userAppended. by rewrite Hleaf. Qed.

Lemma lastShown_one nodeId shown :
  nodeId <> 0%Z -> lastShown [OnChunk (Some nodeId)] shown = nodeId.
Proof. intros Hne. unfold lastShown. simpl. by rewrite decide_True. Qed.

(** [sendNewMessage] for a text that is no command, in a conversation
    that is in the store together with the last message displayed: the
    run comes down to the run of [generateMessage] on the state in which
    the user message has been appended. *)
Lemma sendNewMessage_run c l messages currExtra rag net resetAfter ui st :
  c <> [] -> isGeneratingIn st c = false ->
  Js.trim (textareaValue ui) <> [] -> ~ isCommand (textareaValue ui) ->
  lastMsgNodeId messages = Some l ->
  is_Some (conversations (storage st) !! c) ->
  is_Some (StorageUtils.findNode (storage st) c l) ->
  clockPositive st ->
  let content := textareaValue ui in
  let g := generateMessage c (clock st (ticks st)) net
             (userAppended c l content currExtra st) in
  exists ui',
    sendNewMessage (Some c) messages currExtra rag net resetAfter ui st =
      (Return tt, ui', snd g) /\
    textareaValue ui' =
      match fst g with Return _ => [] | Throw _ => content end /\
    currNodeId ui' =
      match fst g with
      | Return _ => (clock st (S (S (ticks st))) + 1)%Z
      | Throw _ => clock st (ticks st)
      end /\
    last (screenCalls ui') = Some ClearExtraContext /\
    showDropdown ui' = showDropdown ui /\
    filteredOptions ui' = filteredOptions ui /\
    highlightedIndex ui' = highlightedIndex ui.
Proof.
  intros Hc Hidle Hblank Hcmd Hlast Hconv Hleaf Hclock content g.
  unfold sendNewMessage. change (default [] (Some c)) with c.
  rewrite Hidle, bool_decide_eq_false_2 by (by intros ?%nil_length_inv).
  cbn [orb]. unfold awaitSend.
  rewrite Hlast, sendMessage_accepted by done. unfold bind.
  rewrite rewriteContent_plain by done.
  rewrite sendRewritten_run, resolveTarget_run. unfold continues.
  rewrite decide_False by (by intros ?%nil_length_inv).
  rewrite send_generate. fold content. fold g.
  destruct (userAppended_found c l content currExtra st Hleaf)
    as (Heff & Hclk & Hticks).
  destruct (userAppended_ready c l content currExtra st Hconv Hleaf)
    as (Hconv' & _).
  destruct (generateMessage_trace c (clock st (ticks st)) net
              (userAppended c l content currExtra st))
    as (q & Hquiet & Htrace); [by rewrite userAppended_idle|done|].
  fold g in Htrace. rewrite Heff, Hclk, Hticks, <- app_assoc in Htrace.
  cbn [screenCall setCurrNodeId setValue textareaValue currNodeId
       screenCalls showDropdown filteredOptions highlightedIndex].
  rewrite Htrace, drop_app_length.
  rewrite replaySend_settled
    by (rewrite !navigations_app, (navigations_quiet q) by done;
        by destruct (fst g) as [[]|]).
  match goal with
  | |- context [replayChunks ?trace ?ui0] =>
      destruct (replayChunks_fields trace ui0)
        as (Hcurr & Hvalue & Hshown & Hfiltered & Hindex & scrolls & Hcalls & _);
      set (ui1 := replayChunks trace ui0) in *
  end.
  cbn [currNodeId textareaValue showDropdown filteredOptions highlightedIndex
       screenCalls] in Hcurr, Hvalue, Hshown, Hfiltered, Hindex, Hcalls.
  assert (Hnow : clock st (ticks st) <> 0%Z) by (specialize (Hclock (ticks st)); lia).
  assert (Hpending : (clock st (S (S (ticks st))) + 1)%Z <> 0%Z)
    by (specialize (Hclock (S (S (ticks st)))); lia).
  rewrite !lastShown_app, lastShown_one, (lastShown_quiet q) in Hcurr by done.
  destruct (fst g) as [[]|e].
  - exists (screenCall ClearExtraContext ui1).
    cbn [screenCall setValue textareaValue currNodeId screenCalls
         showDropdown filteredOptions highlightedIndex].
    rewrite lastShown_one in Hcurr by done.
    repeat split; try done. by rewrite last_snoc.
  - exists (screenCall ClearExtraContext (setValue content ui1)).
    cbn [screenCall setValue textareaValue currNodeId screenCalls
         showDropdown filteredOptions highlightedIndex].
    repeat split; try done. by rewrite last_snoc.
Qed.

(** X24: for a send into the conversation on screen, which is in the
    store together with the last message displayed, of a text that is no
    command (clock readings being positive): when the generation started
    by [sendNewMessage] fails, the text is put back into the textarea
    although the user message is already in the store, the view stays on
    that message, and the extra context is cleared all the same; the
    handler itself does not throw. *)
Theorem failed_send_restores_text
    c l messages currExtra rag net err resetAfter ui st :
  c <> [] -> isGeneratingIn st c = false ->
  Js.trim (textareaValue ui) <> [] -> ~ isCommand (textareaValue ui) ->
  lastMsgNodeId messages = Some l ->
  is_Some (conversations (storage st) !! c) ->
  is_Some (StorageUtils.findNode (storage st) c l) ->
  clockPositive st ->
  failsWith net err -> err_name err <> Js.lit "AbortError" ->
  exists ui' st',
    sendNewMessage (Some c) messages currExtra rag net resetAfter ui st =
      (Return tt, ui', st') /\
    textareaValue ui' = textareaValue ui /\
    holdsUserMessage (storage st') (textareaValue ui) /\
    is_Some (StorageUtils.findNode (storage st') c (currNodeId ui')) /\
    isGeneratingIn st' c = false /\
    last (screenCalls ui') = Some ClearExtraContext.
Proof.
  intros Hc Hidle Hblank Hcmd Hlast Hconv Hleaf Hclock Hfails Hname.
  destruct (sendNewMessage_run c l messages currExtra rag net resetAfter ui st)
    as (ui' & Hrun & Hvalue & Hcurr & Hcalls & _); try done.
  destruct (userAppended_ready c l (textareaValue ui) currExtra st Hconv Hleaf)
    as (Hconv' & Hnode & Hholds).
  destruct (generateMessage_fails c (clock st (ticks st)) net err
              (userAppended c l (textareaValue ui) currExtra st))
    as (Hthrow & Hstorage & Hidle'); [by rewrite userAppended_idle|done..|].
  rewrite Hthrow in Hvalue, Hcurr.
  eexists ui', _. split; [exact Hrun|].
  rewrite Hstorage, Hcurr. done.
Qed.

Lemma failed_send_restores_text_witness :
  exists ui' st',
    sendNewMessage (Some sampleConv) sampleDisplay None RagUnreachable
      (Responded 500 (Return None) [] StreamDone) 0 (screenWith "hello")
      sampleState = (Return tt, ui', st') /\
    textareaValue ui' = Js.lit "hello" /\
    holdsUserMessage (storage st') (Js.lit "hello") /\
    is_Some (StorageUtils.findNode (storage st') sampleConv (currNodeId ui')) /\
    isGeneratingIn st' sampleConv = false /\
    last (screenCalls ui') = Some ClearExtraContext.
Proof.
  refine (failed_send_restores_text sampleConv 4 sampleDisplay None
            RagUnreachable (Responded 500 (Return None) [] StreamDone) _ 0
            (screenWith "hello") sampleState _ _ _ _ _ _ _ _
            (fails_status 500 None [] StreamDone _) _).
  - vm_compute. discriminate.
  - vm_compute. reflexivity.
  - vm_compute. discriminate.
  - unfold isCommand, commandPrefixes.
    rewrite !Exists_cons, Exists_nil. vm_compute. intuition discriminate.
  - reflexivity.
  - vm_compute. eauto.
  - vm_compute. eauto.
  - intros n. simpl. lia.
  - lia.
  - vm_compute. discriminate.
Defined.

Lemma userAppended_trace c l content extra st :
  exists pre, Forall quiet pre /\
    effects (userAppended c l content extra st) =
      effects st ++ pre ++ [OnChunk (Some (clock st (ticks st)))].
Proof.
  unfold userAppended.
  destruct (StorageUtils.findNode (storage st) c l).
  - exists []. by split.
  - exists [UnhandledRejection StorageUtils.NotFoundError].
    split; [by repeat constructor|]. simpl. by rewrite <- app_assoc.
Qed.

Lemma userAppended_conversation c l content extra st convId :
  is_Some (conversations (storage st) !! convId) ->
  is_Some (conversations (storage (userAppended c l content extra st)) !! convId).
Proof.
  intros Hconv. unfold userAppended.
  destruct (StorageUtils.findNode (storage st) c l); simpl storage;
    [by apply appended_conversation|done].
Qed.

(** X25: [handleEditMessage] and [handleRegenerateMessage] reset the view
    to the latest message only after [replaceMessageAndGenerate] has
    returned.  When the generation fails they reject with its error and
    the reset is not reached: the view stays on the node that was last
    handed to [onChunk], the new user message after an edit, the parent of
    the message after a regeneration. *)
Theorem failed_replace_leaves_view convId m content net err ui st :
  isGeneratingIn st convId = false ->
  is_Some (conversations (storage st) !! convId) ->
  failsWith net err -> err_name err <> Js.lit "AbortError" ->
  clock st (ticks st) <> 0%Z ->
  (exists ui' st',
     handleEditMessage (Some convId) m content net ui st = (Throw err, ui', st') /\
     currNodeId ui' = clock st (ticks st)) /\
  (exists ui' st',
     handleRegenerateMessage (Some convId) m net ui st = (Throw err, ui', st') /\
     currNodeId ui' = Node.parent m).
Proof.
  intros Hidle Hconv Hfails Hname Hnow. split.
  - unfold handleEditMessage, awaitWithOnChunk.
    rewrite replaceMessageAndGenerate_run, Hidle.
    set (st1 := userAppended convId (Node.parent m) content (Node.extra m) st).
    destruct (userAppended_trace convId (Node.parent m) content (Node.extra m) st)
      as (pre & Hpre & Heff). fold st1 in Heff.
    assert (Hidle1 : isGeneratingIn st1 convId = false)
      by (subst st1; by rewrite userAppended_idle).
    assert (Hconv1 : is_Some (conversations (storage st1) !! convId))
      by (by apply userAppended_conversation).
    destruct (generateMessage_fails convId (clock st (ticks st)) net err st1)
      as (Hthrow & _); [done..|].
    destruct (generateMessage_trace convId (clock st (ticks st)) net st1)
      as (q & Hq & Htrace); [done..|].
    rewrite Hthrow, app_nil_r, Heff, <- !app_assoc in Htrace.
    destruct (generateMessage convId (clock st (ticks st)) net st1) as [r st2].
    cbn [fst snd] in Hthrow, Htrace. subst r. rewrite Htrace, drop_app_length.
    eexists _, _. split; [done|].
    match goal with
    | |- currNodeId (replayChunks ?trace ?ui0) = _ =>
        destruct (replayChunks_fields trace ui0) as (-> & _)
    end.
    rewrite !lastShown_app, (lastShown_quiet pre), lastShown_one by done.
    by apply lastShown_quiet.
  - unfold handleRegenerateMessage, awaitWithOnChunk.
    rewrite replaceMessageAndGenerate_run, Hidle.
    set (st1 := with_effect (OnChunk (Some (Node.parent m))) st).
    destruct (generateMessage_fails convId (Node.parent m) net err st1)
      as (Hthrow & _); [done..|].
    destruct (generateMessage_trace convId (Node.parent m) net st1)
      as (q & Hq & Htrace); [done..|].
    rewrite Hthrow, app_nil_r in Htrace. subst st1. simpl effects in Htrace.
    rewrite <- !app_assoc in Htrace.
    destruct (generateMessage convId (Node.parent m) net _) as [r st2].
    cbn [fst snd] in Hthrow, Htrace. subst r. rewrite Htrace, drop_app_length.
    eexists _, _. split; [done|].
    match goal with
    | |- currNodeId (replayChunks ?trace ?ui0) = _ =>
        destruct (replayChunks_fields trace ui0) as (-> & _)
    end.
    rewrite lastShown_app, (lastShown_quiet q) by done.
    unfold lastShown. simpl. by case_decide.
Qed.

Lemma failed_replace_leaves_view_witness :
  exists ui' st',
    handleEditMessage (Some sampleConv) (sampleNode 2 text user 1 [3]%Z)
      (Js.lit "v2") (RequestFails (TypeError (Js.lit "Failed to fetch")))
      (initialScreen []) sampleState =
    (Throw (TypeError (Js.lit "Failed to fetch")), ui', st') /\
    currNodeId ui' = 1000%Z.
Proof.
  refine (proj1 (failed_replace_leaves_view sampleConv
                   (sampleNode 2 text user 1 [3]%Z) (Js.lit "v2")
                   (RequestFails (TypeError (Js.lit "Failed to fetch"))) _
                   (initialScreen []) sampleState _ _ (fails_request _) _ _)).
  - vm_compute. reflexivity.
  - vm_compute. eauto.
  - vm_compute. discriminate.
  - vm_compute. discriminate.
Defined.

(** X26: for a send into the conversation on screen, which is in the
    store together with the last message displayed, of a text that is no
    command (clock readings being positive): after [sendNewMessage] for a
    generation whose stream of clean chunks ends with text, the textarea
    is empty and the view is on the assistant reply: the node id the
    screen keeps is the id of a stored assistant message that holds the
    streamed text and hangs under the new user message. *)
Theorem completed_send_shows_reply
    c l display currExtra rag errorBody chunks resetAfter ui st :
  c <> [] -> isGeneratingIn st c = false ->
  Js.trim (textareaValue ui) <> [] -> ~ isCommand (textareaValue ui) ->
  lastMsgNodeId display = Some l ->
  is_Some (conversations (storage st) !! c) ->
  is_Some (StorageUtils.findNode (storage st) c l) ->
  clockPositive st ->
  Forall cleanChunk chunks -> streamText chunks <> [] ->
  exists ui' st' reply,
    sendNewMessage (Some c) display currExtra rag
      (Responded 200 errorBody chunks StreamDone) resetAfter ui st =
      (Return tt, ui', st') /\
    textareaValue ui' = [] /\
    reply ∈ messages (storage st') /\
    Node.id reply = currNodeId ui' /\
    Node.role reply = assistant /\
    Node.content reply = streamText chunks /\
    Node.parent reply = clock st (ticks st) /\
    isGeneratingIn st' c = false.
Proof.
  intros Hc Hidle Hblank Hcmd Hlast Hconv Hleaf Hclock Hclean Htext.
  destruct (sendNewMessage_run c l display currExtra rag
              (Responded 200 errorBody chunks StreamDone) resetAfter ui st)
    as (ui' & Hrun & Hvalue & Hcurr & _); try done.
  set (st1 := userAppended c l (textareaValue ui) currExtra st) in *.
  destruct (userAppended_ready c l (textareaValue ui) currExtra st Hconv Hleaf)
    as (Hconv' & Hnode & _). fold st1 in Hconv', Hnode.
  destruct (userAppended_found c l (textareaValue ui) currExtra st Hleaf)
    as (_ & Hclk & Hticks). fold st1 in Hclk, Hticks.
  destruct (generateMessage_ended c (clock st (ticks st)) errorBody chunks
              StreamDone st1)
    as (_ & Hsome & _); [by subst st1; rewrite userAppended_idle|done..|eauto|].
  destruct (Hsome Htext Hnode)
    as (Hret & Hidle' & node & Hstorage & Hid & _ & _ & Hrole & Hcontent & _).
  rewrite Hret in Hvalue, Hcurr.
  eexists ui', _, (Node.with_parent node (clock st (ticks st))).
  split; [exact Hrun|]. split; [done|].
  rewrite Hstorage. split; [apply appended_new_node|].
  rewrite Hcurr. simpl. rewrite Hid, Hclk, Hticks. done.
Qed.

Lemma completed_send_shows_reply_witness :
  exists ui' st' reply,
    sendNewMessage (Some sampleConv) sampleDisplay None RagUnreachable
      (Responded 200 (Return None) [contentChunk "Hi"] StreamDone) 0
      (screenWith "hello") sampleState = (Return tt, ui', st') /\
    textareaValue ui' = [] /\
    reply ∈ messages (storage st') /\
    Node.id reply = currNodeId ui' /\
    Node.role reply = assistant /\
    Node.content reply = streamText [contentChunk "Hi"] /\
    Node.parent reply = clock sampleState (ticks sampleState) /\
    isGeneratingIn st' sampleConv = false.
Proof.
  apply (completed_send_shows_reply sampleConv 4 sampleDisplay None
           RagUnreachable (Return None) [contentChunk "Hi"] 0
           (screenWith "hello") sampleState).
  - vm_compute. discriminate.
  - vm_compute. reflexivity.
  - vm_compute. discriminate.
  - unfold isCommand, commandPrefixes.
    rewrite !Exists_cons, Exists_nil. vm_compute. intuition discriminate.
  - reflexivity.
  - vm_compute. eauto.
  - vm_compute. eauto.
  - intros n. simpl. lia.
  - repeat constructor; vm_compute; discriminate.
  - vm_compute. discriminate.
Defined.

Lemma findNode_above s c bound :
  idsBelow s c bound -> StorageUtils.findNode s c bound = None.
Proof.
  unfold idsBelow, idsOf, StorageUtils.findNode. intros Hbelow.
  induction (StorageUtils.messagesOf s c) as [|m ms IH]; [done|].
  apply Forall_cons in Hbelow as [Hm Hms].
  rewrite filter_cons_False by lia. by apply IH.
Qed.

(** X27: for a send into the conversation on screen, which is in the
    store together with the last message displayed, of a text that is no
    command: when the user stops the generation started by
    [sendNewMessage] before any text has arrived, no reply is stored, yet
    [generateMessage] still calls [onChunk(pendingId)]: the send counts as
    done (the textarea stays empty) and the view is left on the id of the
    pending message.  Provided the clock readings are positive, the clock
    does not run backwards and its reading at the send lies above every id
    the conversation holds, the store has no node under that id. *)
Theorem stopped_send_views_missing_node
    c l messages currExtra rag net resetAfter ui st :
  c <> [] -> isGeneratingIn st c = false ->
  Js.trim (textareaValue ui) <> [] -> ~ isCommand (textareaValue ui) ->
  lastMsgNodeId messages = Some l ->
  is_Some (conversations (storage st) !! c) ->
  is_Some (StorageUtils.findNode (storage st) c l) ->
  clockPositive st -> monotoneClock st ->
  idsBelow (storage st) c (clock st (ticks st)) ->
  stoppedEmpty net ->
  exists ui' st',
    sendNewMessage (Some c) messages currExtra rag net resetAfter ui st =
      (Return tt, ui', st') /\
    textareaValue ui' = [] /\
    currNodeId ui' = (clock st (S (S (ticks st))) + 1)%Z /\
    StorageUtils.findNode (storage st') c (currNodeId ui') = None /\
    isGeneratingIn st' c = false.
Proof.
  intros Hc Hidle Hblank Hcmd Hlast Hconv Hleaf Hclock Hmono Hbelow Hnet.
  destruct (sendNewMessage_run c l messages currExtra rag net resetAfter ui st)
    as (ui' & Hrun & Hvalue & Hcurr & _); try done.
  set (st1 := userAppended c l (textareaValue ui) currExtra st) in *.
  destruct (userAppended_ready c l (textareaValue ui) currExtra st Hconv Hleaf)
    as (Hconv' & _). fold st1 in Hconv'.
  assert (Hidle1 : isGeneratingIn st1 c = false)
    by (subst st1; by rewrite userAppended_idle).
  assert (Hgen : fst (generateMessage c (clock st (ticks st)) net st1) = Return tt /\
                 storage (snd (generateMessage c (clock st (ticks st)) net st1)) =
                   storage st1 /\
                 isGeneratingIn (snd (generateMessage c (clock st (ticks st)) net st1)) c
                   = false).
  { destruct Hnet as [-> | (errorBody & chunks & -> & Hclean & Htext)].
    - by apply generateMessage_stopped_early.
    - destruct (generateMessage_ended c (clock st (ticks st)) errorBody chunks
                  UserStops st1) as (Hnone & _); eauto. }
  destruct Hgen as (Hret & Hstorage & Hidle').
  rewrite Hret in Hvalue, Hcurr.
  eexists ui', _. split; [exact Hrun|]. split; [done|]. split; [done|].
  split; [|done]. rewrite Hstorage, Hcurr. apply findNode_above.
  subst st1. unfold userAppended, idsBelow. destruct Hleaf as [parentNode ->].
  simpl storage. rewrite idsOf_appended. simpl. rewrite decide_True by done.
  pose proof (Hmono (ticks st) (S (S (ticks st))) ltac:(lia)) as Hlater.
  apply Forall_app. split.
  - eapply Forall_impl; [exact Hbelow|]. simpl. intros i Hi. lia.
  - repeat constructor. lia.
Qed.

Lemma stopped_send_views_missing_node_witness :
  exists ui' st',
    sendNewMessage (Some sampleConv) sampleDisplay None RagUnreachable
      StoppedBeforeResponse 0 (screenWith "hello") sampleState =
      (Return tt, ui', st') /\
    textareaValue ui' = [] /\
    currNodeId ui' = 1003%Z /\
    StorageUtils.findNode (storage st') sampleConv (currNodeId ui') = None /\
    isGeneratingIn st' sampleConv = false.
Proof.
  apply (stopped_send_views_missing_node sampleConv 4 sampleDisplay None
           RagUnreachable StoppedBeforeResponse 0 (screenWith "hello")
           sampleState).
  - vm_compute. discriminate.
  - vm_compute. reflexivity.
  - vm_compute. discriminate.
  - unfold isCommand, commandPrefixes.
    rewrite !Exists_cons, Exists_nil. vm_compute. intuition discriminate.
  - reflexivity.
  - vm_compute. eauto.
  - vm_compute. eauto.
  - intros n. simpl. lia.
  - intros n m Hnm. simpl. lia.
  - repeat constructor; vm_compute; reflexivity.
  - left. reflexivity.
Defined.

(** The first message of a conversation, with a generation that fails:
    the send creates the conversation and navigates to it, the view goes
    to the user message, and the render in which the new conversation is
    on screen resets it, however long the conversation takes to load. *)
Example first_message_failure_resets_view resetAfter :
  let '(r, ui', _) :=
    sendNewMessage None [] None RagUnreachable
      (Responded 500 (Return None) [] StreamDone) resetAfter
      (screenWith "hello") sampleState in
  r = Return tt /\ currNodeId ui' = (-1)%Z /\
  textareaValue ui' = Js.lit "hello".
Proof. destruct resetAfter as [|[|n]]; vm_compute; done. Qed.

(** * Further properties of [sendMessage] *)

Lemma generateMessage_navigations convId leafNodeId net st :
  exists added,
    effects (snd (generateMessage convId leafNodeId net st)) =
      effects st ++ added /\
    navigations added = [].
Proof.
  destruct (isGeneratingIn st convId) eqn:Hidle.
  { rewrite generateMessage_busy by done. exists []. by rewrite app_nil_r. }
  destruct (conversations (storage st) !! convId) as [conv|] eqn:Hconv.
  2: { rewrite generateMessage_no_conversation by done.
       exists []. by rewrite app_nil_r. }
  destruct (generateMessage_trace convId leafNodeId net st Hidle)
    as (q & Hq & ->); [eauto|].
  eexists. split; [done|].
  rewrite navigations_app, navigations_quiet by done.
  by destruct (fst _).
Qed.

Lemma appended_dom s now (m : Message) parentNodeId :
  dom (conversations (StorageUtils.appended s now m parentNodeId)) =
  dom (conversations s).
Proof. simpl. apply dom_alter_L. Qed.

Lemma generateMessage_dom convId leafNodeId net st :
  dom (conversations (storage (snd (generateMessage convId leafNodeId net st)))) =
  dom (conversations (storage st)).
Proof.
  destruct (generateMessage_effect convId leafNodeId net st)
    as (_ & _ & [-> | (node & -> & _)]); [done|apply appended_dom].
Qed.

Lemma userAppended_dom c l content extra st :
  dom (conversations (storage (userAppended c l content extra st))) =
  dom (conversations (storage st)).
Proof.
  unfold userAppended.
  destruct (StorageUtils.findNode (storage st) c l); simpl storage;
    [apply appended_dom|done].
Qed.

(** X28: a send that gets past the guard navigates exactly when it has no
    conversation to continue, once, to the page of the conversation it
    creates, which is then the only conversation added to the store; a
    send into a conversation it was given neither navigates nor adds a
    conversation, whatever the two endpoints do. *)
Theorem send_navigates_only_to_new_conversation
    convId leafNodeId content extra rag net st :
  isGeneratingIn st (default [] convId) = false -> Js.trim content <> [] ->
  let st' := snd (sendMessage convId leafNodeId content extra rag net st) in
  let newId := Js.lit "conv-" ++ StorageUtils.decimal (clock st (ticks st)) in
  exists added,
    effects st' = effects st ++ added /\
    match continues convId leafNodeId with
    | Some _ =>
        navigations added = [] /\
        dom (conversations (storage st')) = dom (conversations (storage st))
    | None =>
        navigations added = [Js.lit "/chat/" ++ newId] /\
        dom (conversations (storage st')) =
          {[newId]} ∪ dom (conversations (storage st))
    end.
Proof.
  intros Hidle Hcontent st' newId. subst st'.
  rewrite sendMessage_accepted by done. unfold bind.
  destruct (rewriteContent_frame content rag st) as (content' & st0 & -> & Hst0).
  rewrite sendRewritten_run, resolveTarget_run.
  assert (Hframe : exists pre, effects st0 = effects st ++ pre /\
                     navigations pre = [] /\ storage st0 = storage st /\
                     clock st0 = clock st /\ ticks st0 = ticks st).
  { destruct Hst0 as [-> | ->].
    - exists []. by rewrite app_nil_r.
    - by exists [Alert ragAlert]. }
  destruct Hframe as (pre & Hpre & Hnav & Hstorage & Hclock & Hticks).
  destruct (continues convId leafNodeId) as [[c l]|];
    rewrite send_generate; cbn [snd];
    match goal with
    | |- context [generateMessage ?c ?l net ?s] =>
        destruct (generateMessage_navigations c l net s) as (gen & -> & Hgen);
        rewrite (generateMessage_dom c l net s)
    end;
    match goal with
    | |- context [userAppended ?c ?l content' extra ?s] =>
        destruct (userAppended_trace c l content' extra s) as (ua & Hua & ->);
        rewrite (userAppended_dom c l content' extra s)
    end.
  - rewrite Hpre, Hstorage. eexists. rewrite <- !app_assoc.
    split; [reflexivity|]. split; [|done].
    rewrite !navigations_app, Hnav, Hgen, (navigations_quiet ua) by done. done.
  - unfold conversationCreated. cbn [effects with_effect with_storage with_tick].
    rewrite Hpre. eexists. rewrite <- !app_assoc.
    split; [reflexivity|]. split.
    + rewrite !navigations_app, Hnav, Hgen, (navigations_quiet ua) by done.
      simpl. by rewrite Hclock, Hticks.
    + simpl. rewrite dom_insert_L. by rewrite Hstorage, Hclock, Hticks.
Qed.

Lemma send_navigates_only_to_new_conversation_witness :
  exists added,
    effects (snd (sendMessage None None (Js.lit "hello") None RagUnreachable
                    StoppedBeforeResponse sampleState)) =
      effects sampleState ++ added /\
    navigations added = [Js.lit "/chat/conv-1000"] /\
    dom (conversations (storage (snd
           (sendMessage None None (Js.lit "hello") None RagUnreachable
              StoppedBeforeResponse sampleState)))) =
      {[Js.lit "conv-1000"]} ∪ dom (conversations (storage sampleState)).
Proof.
  apply (send_navigates_only_to_new_conversation None None (Js.lit "hello")
           None RagUnreachable StoppedBeforeResponse sampleState).
  - vm_compute. reflexivity.
  - vm_compute. discriminate.
Defined.
